(** * A shallow embedding of the workflow orchestrator

    The development follows the Go packages of the repository:
    - [dag]: the task graph, its validation, its canonical hash and the
      topological sort (internal/dag);
    - [run]: the SQLite run store (internal/run);
    - [executor]: the sequential executor with retries, cancellation and
      resume (internal/executor), and the [resume] command guarding it.

    Go maps are finite maps ([gmap]); the unspecified order in which a
    [range] statement visits a map is an explicit parameter of every
    function that ranges over one.  Go's [int] is the 64-bit two's
    complement integer of the supported platforms. *)

From stdpp Require Import gmap strings list sorting relations fin_maps pretty.
From Stdlib Require Import ZArith Lia.

Open Scope string_scope.
Open Scope list_scope.

(** ** Go preliminaries *)

(** [int] arithmetic wraps around. *)
Definition int_bits : Z := 64%Z.
Definition max_int : Z := (2 ^ (int_bits - 1) - 1)%Z.
Definition min_int : Z := (- 2 ^ (int_bits - 1))%Z.
Definition wrap_int (z : Z) : Z :=
  ((z + 2 ^ (int_bits - 1)) `mod` 2 ^ int_bits - 2 ^ (int_bits - 1))%Z.
Definition int_add (a b : Z) : Z := wrap_int (a + b)%Z.

(** The order in which one [range] statement visits the entries of a map.
    The language only promises that every entry is visited once. *)
Record RangeOrder := {
  visit : ∀ A : Type, list (string * A) → list (string * A);
  visit_perm : ∀ (A : Type) (l : list (string * A)), visit A l ≡ₚ l
}.

Definition range {A} (ρ : RangeOrder) (m : gmap string A) : list (string * A) :=
  visit ρ A (map_to_list m).

(** Successive [range] statements of a function draw their orders from a
    stream; [skip n ρ] is what remains after the first [n] statements. *)
Definition skip (n : nat) (ρ : nat → RangeOrder) : nat → RangeOrder := λ k, ρ (n + k)%nat.
Definition later (ρ : nat → RangeOrder) : nat → RangeOrder := skip 1 ρ.

Definition key_le {A} (x y : string * A) : Prop := String.le x.1 y.1.

#[global] Instance key_le_dec {A} : RelDecision (@key_le A).
Proof. intros x y. unfold key_le. apply _. Defined.

(** Two concrete orders: ascending and descending keys. *)
Definition ascending : RangeOrder :=
  {| visit := λ A l, merge_sort key_le l;
     visit_perm := λ A l, merge_sort_Permutation key_le l |}.

Definition descending : RangeOrder :=
  {| visit := λ A l, reverse (merge_sort key_le l);
     visit_perm := λ A l,
       transitivity (reverse_Permutation (merge_sort key_le l))
                    (merge_sort_Permutation key_le l) |}.

(** A missing key reads as the zero value of the element type. *)
Definition get_int (m : gmap string Z) (k : string) : Z := default 0%Z (m !! k).
Definition get_list (m : gmap string (list string)) (k : string) : list string :=
  default [] (m !! k).

(** [sort.Strings] *)
Definition sort_Strings (l : list string) : list string := merge_sort String.le l.

(** ** Errors *)

Inductive WorkflowStatus := StatusPending | StatusRunning | StatusSuccess | StatusFailed.
Inductive TaskStatus := TaskPending | TaskRunning | TaskSuccess | TaskFailed.

#[global] Instance WorkflowStatus_eq_dec : EqDecision WorkflowStatus.
Proof. solve_decision. Defined.
#[global] Instance TaskStatus_eq_dec : EqDecision TaskStatus.
Proof. solve_decision. Defined.

(** Operations of the run store, used to name the origin of a database error. *)
Inductive StoreOp :=
| OpNewStore | OpNewWorkflowRun | OpUpdate | OpLoad
| OpSaveTaskRun | OpUpdateTaskRun | OpGetTaskRun.

#[global] Instance StoreOp_eq_dec : EqDecision StoreOp.
Proof. solve_decision. Defined.

(** The error of [cmd.CombinedOutput]: an [*exec.ExitError] carrying the
    exit code of the child, or any other error (the process could not be
    started, the context was already done, ...). *)
Inductive CmdError :=
| ExitError (code : Z)
| StartError (msg : string).

Inductive Error :=
| ErrNameRequired                                  (* workflow name is required *)
| ErrNoTasks                                       (* no tasks defined *)
| ErrDuplicateTask (name : string)                 (* duplicate task name: %s *)
| ErrInvalidTaskName (name : string)               (* invalid task name %q *)
| ErrNoCommand (name : string)                     (* task %s has no command defined *)
| ErrMissingDependency (name dep : string)         (* task %s depends on missing task %s *)
| ErrCycle                                         (* cycle detected in DAG *)
| ErrMarshal                                       (* json.Marshal *)
| ErrUnmarshal                                     (* failed to unmarshal TOML *)
| ErrReadFile (workflow : string)                  (* failed to read workflow file *)
| ErrValidation (e : Error)                        (* workflow validation failed: %w *)
| ErrStore (op : StoreOp)                          (* an error of database/sql *)
| ErrNoRows                                        (* sql.ErrNoRows *)
| ErrMkdirAll                                      (* os.MkdirAll *)
| ErrTopologicalSort (e : Error)                   (* topological sort error: %w *)
| ErrCancelled                                     (* workflow cancelled: %w *)
| ErrTaskFailed (task workflow : string) (cause : CmdError)
                                                   (* task %s failed => workflow %s failed: %w *)
| ErrLoadWorkflow (workflow : string) (e : Error)  (* failed to load workflow '%s': %w *)
| ErrStoreInit (e : Error)                         (* failed to initialise run store: %w *)
| ErrRunNotFound (id : string) (e : Error)         (* run '%s' not found: %w *)
| ErrNotResumable (id : string) (status : WorkflowStatus)
                                                   (* ... is not in a resumable state *)
| ErrResume (id : string) (e : Error)              (* failed to resume workflow run '%s': %w *)
| PanicNilTask.                                    (* nil pointer dereference of a *Task *)

Inductive result (A : Type) :=
| Ok (a : A)
| Err (e : Error).
Arguments Ok {A} a.
Arguments Err {A} e.

(** * Package dag *)

Record Task := {
  Name : string;
  Cmd : string;
  DependsOn : list string;
  Retries : Z
}.

(** [DName] is the field [Name] of the Go struct [DAG]. *)
Record DAG := {
  DName : string;
  Tasks : gmap string Task
}.

(** ** TopologicalSort (Kahn's method with a first-in first-out queue) *)

(** Body of the inner loop that records one edge [dep -> t.Name]:
    [neighborList[dep] = append(neighborList[dep], t.Name); inDegree[t.Name]++]. *)
Definition addEdge (t : Task)
    (acc : gmap string (list string) * gmap string Z) (dep : string)
    : gmap string (list string) * gmap string Z :=
  (<[dep := get_list acc.1 dep ++ [Name t]]> acc.1,
   <[Name t := (get_int acc.2 (Name t) + 1)%Z]> acc.2).

(** Body of the loop over [neighborList[n]]:
    [inDegree[neighbor]--; if inDegree[neighbor] == 0 { queue = append(queue, neighbor) }]. *)
Definition release (acc : gmap string Z * list string) (neighbor : string)
    : gmap string Z * list string :=
  let inDegree := <[neighbor := (get_int acc.1 neighbor - 1)%Z]> acc.1 in
  if decide (get_int inDegree neighbor = 0%Z)
  then (inDegree, acc.2 ++ [neighbor])
  else (inDegree, acc.2).

(** The loop [for len(queue) > 0].  [bound] limits the number of
    iterations; [loop_bound] below is never exhausted (lemma
    [drain_bound_irrelevant]). *)
Fixpoint drain (bound : nat) (tasks : gmap string Task)
    (neighborList : gmap string (list string))
    (inDegree : gmap string Z) (queue : list string)
    (result : list (option Task)) : list (option Task) :=
  match bound, queue with
  | S bound, n :: queue =>
      let acc := foldl release (inDegree, queue) (get_list neighborList n) in
      drain bound tasks neighborList acc.1 acc.2 (result ++ [tasks !! n])
  | _, _ => result
  end.

Definition positive_degrees (inDegree : gmap string Z) : nat :=
  sum_list_with (λ kv : string * Z, Z.to_nat kv.2) (map_to_list inDegree).

Definition loop_bound (inDegree : gmap string Z) (queue : list string) : nat :=
  length queue + positive_degrees inDegree.

Definition initInDegree (ρ : RangeOrder) (tasks : gmap string Task) : gmap string Z :=
  foldl (λ inDegree kv, <[kv.1 := 0%Z]> inDegree) ∅ (range ρ tasks).

Definition collectEdges (ρ : RangeOrder) (tasks : gmap string Task)
    (inDegree : gmap string Z) : gmap string (list string) * gmap string Z :=
  foldl (λ acc kv, foldl (addEdge kv.2) acc (DependsOn kv.2))
        (∅, inDegree) (range ρ tasks).

Definition sortNeighbors (ρ : RangeOrder) (neighborList : gmap string (list string))
    : gmap string (list string) :=
  foldl (λ nl kv, <[kv.1 := sort_Strings (get_list nl kv.1)]> nl)
        neighborList (range ρ neighborList).

Definition initQueue (ρ : RangeOrder) (inDegree : gmap string Z) : list string :=
  (filter (λ kv : string * Z, kv.2 = 0%Z) (range ρ inDegree)).*1.

Definition TopologicalSort (ρ : nat → RangeOrder) (d : DAG) : result (list (option Task)) :=
  let inDegree := initInDegree (ρ 0) (Tasks d) in
  let edges := collectEdges (ρ 1) (Tasks d) inDegree in
  let neighborList := sortNeighbors (ρ 2) edges.1 in
  let inDegree := edges.2 in
  let queue := initQueue (ρ 3) inDegree in
  let result :=
    drain (loop_bound inDegree queue) (Tasks d) neighborList inDegree queue [] in
  if decide (length result ≠ size (Tasks d)) then Err ErrCycle else Ok result.

(** ** Validate *)

(** [taskNamePattern = ^[a-zA-Z0-9_-]+$] *)
Definition name_char (c : Ascii.ascii) : bool :=
  let n := Ascii.N_of_ascii c in
  ((97 <=? n) && (n <=? 122) || (65 <=? n) && (n <=? 90) ||
   (48 <=? n) && (n <=? 57) || (n =? 95) || (n =? 45))%N.

Definition taskNamePattern_MatchString (s : string) : bool :=
  negb (String.eqb s "") && forallb name_char (String.list_ascii_of_string s).

(** The loop of [Validate] over the entries of [d.Tasks], with the set [seen]. *)
Fixpoint validateTasks (tasks : gmap string Task) (seen : gset string)
    (entries : list (string * Task)) : option Error :=
  match entries with
  | [] => None
  | (name, t) :: entries =>
      if decide (name ∈ seen) then Some (ErrDuplicateTask name)
      else
        let seen := {[name]} ∪ seen in
        if negb (taskNamePattern_MatchString name) then Some (ErrInvalidTaskName name)
        else if decide (Cmd t = "") then Some (ErrNoCommand name)
        else
          match List.find (λ dep, bool_decide (tasks !! dep = None)) (DependsOn t) with
          | Some dep => Some (ErrMissingDependency name dep)
          | None => validateTasks tasks seen entries
          end
  end.

(** [None] is the nil error. *)
Definition Validate (ρ : nat → RangeOrder) (d : DAG) : option Error :=
  if decide (DName d = "") then Some ErrNameRequired
  else if decide (size (Tasks d) = 0) then Some ErrNoTasks
  else
    match validateTasks (Tasks d) ∅ (range (ρ 0) (Tasks d)) with
    | Some e => Some e
    | None =>
        match TopologicalSort (later ρ) d with
        | Err e => Some e
        | Ok _ => None
        end
    end.

(** ** Roots *)
Definition Roots (ρ : RangeOrder) (d : DAG) : list Task :=
  (filter (λ kv : string * Task, length (DependsOn kv.2) = 0) (range ρ (Tasks d))).*2.

(** ** ComputeHash *)

Record taskSnapshot := {
  snap_Name : string;
  snap_Cmd : string;
  snap_DependsOn : list string;
  snap_Retries : Z
}.

Record dagSnapshot := {
  dsnap_Name : string;
  dsnap_Tasks : list taskSnapshot
}.

(** The decoded form of a workflow document (loader.go). *)
Record rawTask := {
  raw_Cmd : string;
  raw_Retries : Z;
  raw_DependsOn : list string
}.

Record rawWorkflow := {
  raw_Name : string;
  raw_Tasks : gmap string rawTask
}.

(** Library functions the code calls and this development does not look into. *)
Class Externals := {
  json_Marshal : dagSnapshot → option (list Byte.byte);     (* None: an error *)
  sha256_Sum256 : list Byte.byte → list Byte.byte;
  hex_EncodeToString : list Byte.byte → string;
  toml_Unmarshal : list Byte.byte → option rawWorkflow      (* None: an error *)
}.

Definition snapshot_of (t : Task) : taskSnapshot :=
  {| snap_Name := Name t;
     snap_Cmd := Cmd t;
     snap_DependsOn := sort_Strings (DependsOn t);
     snap_Retries := Retries t |}.

(** [sort.Slice(tasks, func(i, j) { return tasks[i].Name < tasks[j].Name })].
    [sort.Slice] is not stable; snapshots with equal names do not occur in a
    graph whose tasks are stored under their names. *)
Definition snap_le (a b : taskSnapshot) : Prop := String.le (snap_Name a) (snap_Name b).

#[global] Instance snap_le_dec : RelDecision snap_le.
Proof. intros a b. unfold snap_le. apply _. Defined.

Definition sort_Slice_by_Name (tasks : list taskSnapshot) : list taskSnapshot :=
  merge_sort snap_le tasks.

Definition snapshot (ρ : RangeOrder) (d : DAG) : dagSnapshot :=
  let tasks := foldl (λ tasks kv, tasks ++ [snapshot_of kv.2]) [] (range ρ (Tasks d)) in
  {| dsnap_Name := DName d; dsnap_Tasks := sort_Slice_by_Name tasks |}.

Definition ComputeHash `{!Externals} (ρ : nat → RangeOrder) (d : DAG) : result string :=
  match json_Marshal (snapshot (ρ 0) d) with
  | None => Err ErrMarshal
  | Some data => Ok (hex_EncodeToString (sha256_Sum256 data))
  end.

(** ** Loader *)

Definition parseWorkflow `{!Externals} (ρ : nat → RangeOrder) (data : list Byte.byte)
    : result DAG :=
  match toml_Unmarshal data with
  | None => Err ErrUnmarshal
  | Some wf =>
      if decide (raw_Name wf = "") then Err ErrNameRequired
      else
        Ok {| DName := raw_Name wf;
              Tasks :=
                foldl (λ tasks kv,
                         <[kv.1 := {| Name := kv.1;
                                      Cmd := raw_Cmd kv.2;
                                      DependsOn := raw_DependsOn kv.2;
                                      Retries := raw_Retries kv.2 |}]> tasks)
                      ∅ (range (ρ 0) (raw_Tasks wf)) |}
  end.

Definition LoadFromString `{!Externals} (ρ : nat → RangeOrder) (data : list Byte.byte)
    : result DAG :=
  match parseWorkflow ρ data with
  | Err e => Err e
  | Ok dag =>
      match Validate (later ρ) dag with
      | Some e => Err (ErrValidation e)
      | None => Ok dag
      end
  end.

(** * Package run: the store *)

Record WorkflowRun := {
  wr_ID : string;
  wr_Workflow : string;
  wr_WorkflowHash : string;
  wr_Status : WorkflowStatus;
  wr_StartedAt : nat;
  wr_EndedAt : option nat;
  wr_ExitCode : option Z;
  wr_Meta : option string;
  wr_CreatedAt : nat
}.

Record TaskRun := {
  tr_ID : Z;
  tr_RunID : string;
  tr_Name : string;
  tr_Status : TaskStatus;
  tr_StartedAt : nat;
  tr_EndedAt : option nat;
  tr_Attempts : Z;
  tr_ExitCode : option Z;
  tr_LogPath : string;
  tr_LastError : string
}.

(** Assignments to the fields of a [*WorkflowRun] and of a [*TaskRun]. *)
Definition wr_finish (status : WorkflowStatus) (now : nat) (wr : WorkflowRun) : WorkflowRun :=
  {| wr_ID := wr_ID wr; wr_Workflow := wr_Workflow wr;
     wr_WorkflowHash := wr_WorkflowHash wr; wr_Status := status;
     wr_StartedAt := wr_StartedAt wr; wr_EndedAt := Some now;
     wr_ExitCode := wr_ExitCode wr; wr_Meta := wr_Meta wr;
     wr_CreatedAt := wr_CreatedAt wr |}.

Definition tr_set_ID (id : Z) (tr : TaskRun) : TaskRun :=
  {| tr_ID := id; tr_RunID := tr_RunID tr; tr_Name := tr_Name tr;
     tr_Status := tr_Status tr; tr_StartedAt := tr_StartedAt tr;
     tr_EndedAt := tr_EndedAt tr; tr_Attempts := tr_Attempts tr;
     tr_ExitCode := tr_ExitCode tr; tr_LogPath := tr_LogPath tr;
     tr_LastError := tr_LastError tr |}.

Definition tr_set_Attempts (attempt : Z) (tr : TaskRun) : TaskRun :=
  {| tr_ID := tr_ID tr; tr_RunID := tr_RunID tr; tr_Name := tr_Name tr;
     tr_Status := tr_Status tr; tr_StartedAt := tr_StartedAt tr;
     tr_EndedAt := tr_EndedAt tr; tr_Attempts := attempt;
     tr_ExitCode := tr_ExitCode tr; tr_LogPath := tr_LogPath tr;
     tr_LastError := tr_LastError tr |}.

Definition tr_set_LogPath (path : string) (tr : TaskRun) : TaskRun :=
  {| tr_ID := tr_ID tr; tr_RunID := tr_RunID tr; tr_Name := tr_Name tr;
     tr_Status := tr_Status tr; tr_StartedAt := tr_StartedAt tr;
     tr_EndedAt := tr_EndedAt tr; tr_Attempts := tr_Attempts tr;
     tr_ExitCode := tr_ExitCode tr; tr_LogPath := path;
     tr_LastError := tr_LastError tr |}.

Definition tr_set_ExitCode (code : Z) (tr : TaskRun) : TaskRun :=
  {| tr_ID := tr_ID tr; tr_RunID := tr_RunID tr; tr_Name := tr_Name tr;
     tr_Status := tr_Status tr; tr_StartedAt := tr_StartedAt tr;
     tr_EndedAt := tr_EndedAt tr; tr_Attempts := tr_Attempts tr;
     tr_ExitCode := Some code; tr_LogPath := tr_LogPath tr;
     tr_LastError := tr_LastError tr |}.

Definition tr_set_LastError (msg : string) (tr : TaskRun) : TaskRun :=
  {| tr_ID := tr_ID tr; tr_RunID := tr_RunID tr; tr_Name := tr_Name tr;
     tr_Status := tr_Status tr; tr_StartedAt := tr_StartedAt tr;
     tr_EndedAt := tr_EndedAt tr; tr_Attempts := tr_Attempts tr;
     tr_ExitCode := tr_ExitCode tr; tr_LogPath := tr_LogPath tr;
     tr_LastError := msg |}.

Definition tr_finish (status : TaskStatus) (now : nat) (tr : TaskRun) : TaskRun :=
  {| tr_ID := tr_ID tr; tr_RunID := tr_RunID tr; tr_Name := tr_Name tr;
     tr_Status := status; tr_StartedAt := tr_StartedAt tr;
     tr_EndedAt := Some now; tr_Attempts := tr_Attempts tr;
     tr_ExitCode := tr_ExitCode tr; tr_LogPath := tr_LogPath tr;
     tr_LastError := tr_LastError tr |}.

(** ** The world the executor acts on *)

(** What the code cannot control: the moment of cancellation, the faults
    of the database and of the file system, what a command does, the
    random run ids, the workflow files on disk and the configured paths.
    Instants are counted by the clock of the [World]. *)
Record Env := {
  cancel_at : option nat;
  store_fault : StoreOp → nat → bool;
  mkdir_fault : nat → bool;
  command : string → nat → list Byte.byte * option CmdError;
  uuid_New : nat → string;
  files : string → option (list Byte.byte);
  workflows_dir : string;
  logs_dir : string
}.

(** [<-ctx.Done()] is ready from the instant of cancellation on. *)
Definition ctx_Done (env : Env) (now : nat) : bool :=
  match cancel_at env with
  | Some c => bool_decide (c ≤ now)%nat
  | None => false
  end.

Record World := {
  clock : nat;
  workflow_runs : list WorkflowRun;          (* table workflow_runs *)
  task_runs : list TaskRun;                  (* table task_runs, in insertion order *)
  task_seq : Z;                              (* AUTOINCREMENT: the largest id handed out *)
  processes : list string;                   (* the commands run with bash -c, in order *)
  log_files : gmap string (list Byte.byte)   (* the files written under the log root *)
}.

Definition tick (w : World) : World :=
  {| clock := S (clock w); workflow_runs := workflow_runs w; task_runs := task_runs w;
     task_seq := task_seq w; processes := processes w; log_files := log_files w |}.

Definition with_workflow_runs (rows : list WorkflowRun) (w : World) : World :=
  {| clock := clock w; workflow_runs := rows; task_runs := task_runs w;
     task_seq := task_seq w; processes := processes w; log_files := log_files w |}.

Definition with_task_runs (rows : list TaskRun) (seq : Z) (w : World) : World :=
  {| clock := clock w; workflow_runs := workflow_runs w; task_runs := rows;
     task_seq := seq; processes := processes w; log_files := log_files w |}.

Definition with_process (cmd : string) (w : World) : World :=
  {| clock := clock w; workflow_runs := workflow_runs w; task_runs := task_runs w;
     task_seq := task_seq w; processes := processes w ++ [cmd]; log_files := log_files w |}.

Definition with_log_file (path : string) (out : list Byte.byte) (w : World) : World :=
  {| clock := clock w; workflow_runs := workflow_runs w; task_runs := task_runs w;
     task_seq := task_seq w; processes := processes w;
     log_files := <[path := out]> (log_files w) |}.

(** ** A state and error monad for code that returns [error] *)

Definition M (A : Type) : Type := World → result A * World.

Definition ret {A} (a : A) : M A := λ w, (Ok a, w).
Definition fail {A} (e : Error) : M A := λ w, (Err e, w).
Definition bind {A B} (m : M A) (f : A → M B) : M B :=
  λ w, match m w with
       | (Ok a, w') => f a w'
       | (Err e, w') => (Err e, w')
       end.
(** [_ = f()]: the error of [f] is dropped. *)
Definition ignore {A} (m : M A) : M unit :=
  λ w, (Ok tt, (m w).2).
Definition lift {A} (r : result A) : M A := λ w, (r, w).

Notation "'let*' x := m 'in' f" := (bind m (λ x, f))
  (at level 10, x pattern, m at level 100, f at level 200, only parsing).

Definition time_Now : M nat := λ w, (Ok (clock w), w).
Definition ctx_done (env : Env) : M bool := λ w, (Ok (ctx_Done env (clock w)), w).

(** ** Store operations (store.go with the queries of its schema) *)

Definition NewStore (env : Env) : M unit :=
  λ w, if store_fault env OpNewStore (clock w)
       then (Err (ErrStore OpNewStore), tick w)
       else (Ok tt, tick w).

(** INSERT INTO workflow_runs; [id] is the primary key. *)
Definition NewWorkflowRun (env : Env) (workflow dagHash : string) : M WorkflowRun :=
  λ w,
    let now := clock w in
    let run := {| wr_ID := uuid_New env now; wr_Workflow := workflow;
                  wr_WorkflowHash := dagHash; wr_Status := StatusRunning;
                  wr_StartedAt := now; wr_EndedAt := None; wr_ExitCode := None;
                  wr_Meta := None; wr_CreatedAt := now |} in
    if store_fault env OpNewWorkflowRun now
       || bool_decide (wr_ID run ∈ wr_ID <$> workflow_runs w)
    then (Err (ErrStore OpNewWorkflowRun), tick w)
    else (Ok run, with_workflow_runs (workflow_runs w ++ [run]) (tick w)).

(** UPDATE workflow_runs SET status, ended_at, exit_code, meta WHERE id *)
Definition update_run (run r : WorkflowRun) : WorkflowRun :=
  if decide (wr_ID r = wr_ID run)
  then {| wr_ID := wr_ID r; wr_Workflow := wr_Workflow r;
          wr_WorkflowHash := wr_WorkflowHash r; wr_Status := wr_Status run;
          wr_StartedAt := wr_StartedAt r; wr_EndedAt := wr_EndedAt run;
          wr_ExitCode := wr_ExitCode run; wr_Meta := wr_Meta run;
          wr_CreatedAt := wr_CreatedAt r |}
  else r.

Definition Update (env : Env) (run : WorkflowRun) : M unit :=
  λ w, if store_fault env OpUpdate (clock w)
       then (Err (ErrStore OpUpdate), tick w)
       else (Ok tt, with_workflow_runs (update_run run <$> workflow_runs w) (tick w)).

(** SELECT ... FROM workflow_runs WHERE id; [Store_Load] is [Store.Load]. *)
Definition Store_Load (env : Env) (id : string) : M WorkflowRun :=
  λ w, if store_fault env OpLoad (clock w)
       then (Err (ErrStore OpLoad), tick w)
       else match List.find (λ r, bool_decide (wr_ID r = id)) (workflow_runs w) with
            | Some r => (Ok r, tick w)
            | None => (Err ErrNoRows, tick w)
            end.

(** INSERT INTO task_runs; the id is [LastInsertId] and is stored in [task.ID]. *)
Definition SaveTaskRun (env : Env) (task : TaskRun) : M TaskRun :=
  λ w, if store_fault env OpSaveTaskRun (clock w)
       then (Err (ErrStore OpSaveTaskRun), tick w)
       else
         let id := (task_seq w + 1)%Z in
         let task := tr_set_ID id task in
         (Ok task, with_task_runs (task_runs w ++ [task]) id (tick w)).

(** UPDATE task_runs SET status, ended_at, attempts, exit_code, log_path,
    last_error WHERE id *)
Definition update_task (task r : TaskRun) : TaskRun :=
  if decide (tr_ID r = tr_ID task)
  then {| tr_ID := tr_ID r; tr_RunID := tr_RunID r; tr_Name := tr_Name r;
          tr_Status := tr_Status task; tr_StartedAt := tr_StartedAt r;
          tr_EndedAt := tr_EndedAt task; tr_Attempts := tr_Attempts task;
          tr_ExitCode := tr_ExitCode task; tr_LogPath := tr_LogPath task;
          tr_LastError := tr_LastError task |}
  else r.

Definition UpdateTaskRun (env : Env) (task : TaskRun) : M unit :=
  λ w, if store_fault env OpUpdateTaskRun (clock w)
       then (Err (ErrStore OpUpdateTaskRun), tick w)
       else (Ok tt, with_task_runs (update_task task <$> task_runs w) (task_seq w) (tick w)).

(** SELECT ... FROM task_runs WHERE run_id = ? AND name = ?, first row;
    [sql.ErrNoRows] when there is none. *)
Definition GetTaskRun (env : Env) (runID taskName : string) : M TaskRun :=
  λ w, if store_fault env OpGetTaskRun (clock w)
       then (Err (ErrStore OpGetTaskRun), tick w)
       else match List.find (λ r, bool_decide (tr_RunID r = runID ∧ tr_Name r = taskName))
                            (task_runs w) with
            | Some r => (Ok r, tick w)
            | None => (Err ErrNoRows, tick w)
            end.

(** * Package executor *)

(** [exitErr.Error()] and [err.Error()] *)
Definition CmdError_Error (e : CmdError) : string :=
  match e with
  | ExitError code => "exit status " +:+ pretty code
  | StartError msg => msg
  end.

(** [exec.CommandContext(ctx, "bash", "-c", t.Cmd)] followed by
    [cmd.CombinedOutput()]: one child process.  Every call is recorded in
    [processes], also when the library reports that the child could not be
    started ([StartError]). *)
Definition CombinedOutput (env : Env) (cmd : string)
    : M (list Byte.byte * option CmdError) :=
  λ w, (Ok (command env cmd (clock w)), with_process cmd (tick w)).

Definition MkdirAll (env : Env) (dir : string) : M unit :=
  λ w, if mkdir_fault env (clock w)
       then (Err ErrMkdirAll, tick w)
       else (Ok tt, tick w).

(** [os.WriteFile(logPath, out, 0644)]; its error is not looked at. *)
Definition WriteFile (path : string) (out : list Byte.byte) : M unit :=
  λ w, (Ok tt, with_log_file path out w).

Definition Join (dir file : string) : string := dir +:+ "/" +:+ file.

(** The initial row of a task: status running, no attempt yet. *)
Definition new_TaskRun (wr : WorkflowRun) (t : Task) (now : nat) : TaskRun :=
  {| tr_ID := 0; tr_RunID := wr_ID wr; tr_Name := Name t; tr_Status := TaskRunning;
     tr_StartedAt := now; tr_EndedAt := None; tr_Attempts := 0; tr_ExitCode := None;
     tr_LogPath := ""; tr_LastError := "" |}.

(** The classification of the result of an attempt (executor.go 105-120). *)
Definition record_exit (err : option CmdError) (tr : TaskRun) : TaskRun :=
  match err with
  | Some (ExitError code) =>
      tr_set_LastError (CmdError_Error (ExitError code)) (tr_set_ExitCode code tr)
  | Some (StartError msg) =>
      tr_set_ExitCode 1 (tr_set_LastError msg tr)
  | None => tr_set_ExitCode 0 tr
  end.

(** [for attempt := 1; attempt <= t.Retries+1; attempt++ { ... }], the same
    text in [Run] and in [Resume].  [bound] limits the number of iterations
    that remain; with [attempts_bound] it is never exhausted before the loop
    condition fails (lemma [attemptLoop_bound_irrelevant]).  The result is the
    [TaskRun] as the loop leaves it. *)
Fixpoint attemptLoop (env : Env) (bound : nat) (workflow : string) (t : Task)
    (wr : WorkflowRun) (tr : TaskRun) (attempt : Z) : M TaskRun :=
  match bound with
  | O => ret tr
  | S bound =>
      if (attempt <=? int_add (Retries t) 1)%Z then
        let tr := tr_set_Attempts attempt tr in
        let* res := CombinedOutput env (Cmd t) in
        let dir := Join (logs_dir env) (wr_ID wr) in
        let* _ := MkdirAll env dir in
        let logPath := Join dir (Name t +:+ "_" +:+ pretty attempt +:+ ".log") in
        let tr := tr_set_LogPath logPath tr in
        let* _ := WriteFile logPath res.1 in
        let tr := record_exit res.2 tr in
        let* _ := ignore (UpdateTaskRun env tr) in
        match res.2 with
        | None =>
            let* now := time_Now in
            let tr := tr_finish TaskSuccess now tr in
            let* _ := ignore (UpdateTaskRun env tr) in
            ret tr
        | Some err =>
            if (attempt =? int_add (Retries t) 1)%Z then
              let* now := time_Now in
              let tr := tr_finish TaskFailed now tr in
              let* _ := ignore (UpdateTaskRun env tr) in
              let wr := wr_finish StatusFailed now wr in
              let* _ := ignore (Update env wr) in
              fail (ErrTaskFailed (Name t) workflow err)
            else attemptLoop env bound workflow t wr tr (int_add attempt 1)
        end
      else ret tr
  end.

Definition attempts_bound (t : Task) : nat := Z.to_nat (int_add (Retries t) 1).

(** The [select] on [ctx.Done()] before a task. *)
Definition checkCancelled (env : Env) (wr : WorkflowRun) : M unit :=
  let* done := ctx_done env in
  if done : bool then
    let* now := time_Now in
    let wr := wr_finish StatusFailed now wr in
    let* _ := ignore (Update env wr) in
    fail ErrCancelled
  else ret tt.

(** One iteration of [for _, t := range order] in [Run]. *)
Definition runTask (env : Env) (workflow : string) (wr : WorkflowRun)
    (t : option Task) : M unit :=
  match t with
  | None => fail PanicNilTask
  | Some t =>
      let* _ := checkCancelled env wr in
      let* now := time_Now in
      let* tr := SaveTaskRun env (new_TaskRun wr t now) in
      let* _ := attemptLoop env (attempts_bound t) workflow t wr tr 1 in
      ret tt
  end.

Fixpoint runTasks (env : Env) (workflow : string) (wr : WorkflowRun)
    (order : list (option Task)) : M unit :=
  match order with
  | [] => ret tt
  | t :: order =>
      let* _ := runTask env workflow wr t in
      runTasks env workflow wr order
  end.

(** What both entry points do when the topological sort fails. *)
Definition sortFailed (env : Env) (wr : WorkflowRun) (e : Error) : M unit :=
  let* now := time_Now in
  let wr := wr_finish StatusFailed now wr in
  let* _ := ignore (Update env wr) in
  fail (ErrTopologicalSort e).

Definition finishRun (env : Env) (wr : WorkflowRun) : M unit :=
  let* now := time_Now in
  let wr := wr_finish StatusSuccess now wr in
  let* _ := ignore (Update env wr) in
  ret tt.

Definition Run `{!Externals} (ρ : nat → RangeOrder) (env : Env) (d : DAG) : M unit :=
  let* dagHash := lift (ComputeHash ρ d) in
  let* wr := NewWorkflowRun env (DName d) dagHash in
  match TopologicalSort (later ρ) d with
  | Err e => sortFailed env wr e
  | Ok order =>
      let* _ := runTasks env (DName d) wr order in
      finishRun env wr
  end.

(** [strings.TrimSuffix] *)
Definition TrimSuffix (s suffix : string) : string :=
  let n := String.length s in
  let k := String.length suffix in
  if bool_decide (k ≤ n)%nat && String.eqb (String.substring (n - k) k s) suffix
  then String.substring 0 (n - k) s
  else s.

(** [dag.Load]: read <workflows>/<name>.toml, parse, validate. *)
Definition dag_Load `{!Externals} (ρ : nat → RangeOrder) (env : Env) (path : string)
    : result DAG :=
  let path := TrimSuffix path ".toml" in
  let filePath := Join (workflows_dir env) (path +:+ ".toml") in
  match files env filePath with
  | None => Err (ErrReadFile filePath)
  | Some data =>
      match parseWorkflow ρ data with
      | Err e => Err e
      | Ok dag =>
          match Validate (later ρ) dag with
          | Some e => Err (ErrValidation e)
          | None => Ok dag
          end
      end
  end.

(** One iteration of [for _, t := range order] in [Resume]. *)
Definition resumeTask (env : Env) (workflow : string) (wr : WorkflowRun)
    (t : option Task) : M unit :=
  match t with
  | None => fail PanicNilTask
  | Some t =>
      λ w,
        match GetTaskRun env (wr_ID wr) (Name t) w with
        | (Err ErrNoRows, w) =>
            (let* _ := checkCancelled env wr in
             let* now := time_Now in
             let* tr := SaveTaskRun env (new_TaskRun wr t now) in
             let* _ := attemptLoop env (attempts_bound t) workflow t wr tr 1 in
             ret tt) w
        | (Err e, w) => (Err e, w)
        | (Ok tr, w) =>
            if decide (tr_Status tr = TaskSuccess) then (Ok tt, w)
            else
              (let* _ := checkCancelled env wr in
               let* _ := attemptLoop env (attempts_bound t) workflow t wr tr 1 in
               ret tt) w
        end
  end.

Fixpoint resumeTasks (env : Env) (workflow : string) (wr : WorkflowRun)
    (order : list (option Task)) : M unit :=
  match order with
  | [] => ret tt
  | t :: order =>
      let* _ := resumeTask env workflow wr t in
      resumeTasks env workflow wr order
  end.

Definition Resume `{!Externals} (ρ : nat → RangeOrder) (env : Env) (wr : WorkflowRun)
    : M unit :=
  match dag_Load ρ env (wr_Workflow wr) with
  | Err e => fail (ErrLoadWorkflow (wr_Workflow wr) e)
  | Ok d =>
      match TopologicalSort (skip 6 ρ) d with
      | Err e => sortFailed env wr e
      | Ok order =>
          let* _ := resumeTasks env (DName d) wr order in
          finishRun env wr
      end
  end.

(** * The commands that call the executor (cmd/resume.go, cmd/run.go) *)

Definition resumeCmd `{!Externals} (ρ : nat → RangeOrder) (env : Env) (runID : string)
    : M unit :=
  λ w,
    match NewStore env w with
    | (Err e, w) => (Err (ErrStoreInit e), w)
    | (Ok _, w) =>
        match Store_Load env runID w with
        | (Err e, w) => (Err (ErrRunNotFound runID e), w)
        | (Ok workflowRun, w) =>
            if decide (wr_Status workflowRun ≠ StatusFailed)
            then (Err (ErrNotResumable runID (wr_Status workflowRun)), w)
            else
              match Resume ρ env workflowRun w with
              | (Err e, w) => (Err (ErrResume runID e), w)
              | (Ok _, w) => (Ok tt, w)
              end
        end
    end.

(** [wf run <workflow>] without [--dry-run]. *)
Definition runCmd `{!Externals} (ρ : nat → RangeOrder) (env : Env) (workflowName : string)
    : M unit :=
  match dag_Load ρ env workflowName with
  | Err e => fail e
  | Ok d =>
      λ w,
        match NewStore env w with
        | (Err e, w) => (Err (ErrStoreInit e), w)
        | (Ok _, w) =>
            Run (skip 6 ρ) env d w
        end
  end.

(** * Example graphs and environments *)

Definition task (name cmd : string) (deps : list string) (retries : Z) : Task :=
  {| Name := name; Cmd := cmd; DependsOn := deps; Retries := retries |}.

(** A graph built the way the loader and the tests build one: every task
    is stored under its own name. *)
Definition graph_of (name : string) (ts : list Task) : DAG :=
  {| DName := name; Tasks := foldl (λ m t, <[Name t := t]> m) ∅ ts |}.

(** Seed scenario 3: [b] and [c] depend on [a], [d] on both. *)
Definition diamond : DAG :=
  graph_of "complex"
    [task "a" "echo a" [] 0; task "b" "echo b" ["a"] 0;
     task "c" "echo c" ["a"] 0; task "d" "echo d" ["b"; "c"] 0].

(** Seed scenario 4: a two-task cycle. *)
Definition two_cycle : DAG :=
  graph_of "cycle" [task "a" "echo a" ["b"] 0; task "b" "echo b" ["a"] 0].

(** Seed scenario 2: one task that always fails, [retries = 2]. *)
Definition retry_graph : DAG := graph_of "retry" [task "a" "false" [] 2].

(** Two roots [a] and [c]; [b] depends on [a]. *)
Definition two_roots : DAG :=
  graph_of "roots" [task "a" "echo a" [] 0; task "c" "echo c" [] 0;
                    task "b" "echo b" ["a"] 0].

#[local] Instance toy_externals : Externals :=
  {| json_Marshal := λ _, Some [];
     sha256_Sum256 := λ data, data;
     hex_EncodeToString := λ _, "e3b0c442";
     toml_Unmarshal := λ _, None |}.

(** A quiet machine: nothing is cancelled, nothing breaks, [false] and
    [exit 1] fail with exit status 1 and every other command succeeds. *)
Definition quiet : Env :=
  {| cancel_at := None;
     store_fault := λ _ _, false;
     mkdir_fault := λ _, false;
     command := λ cmd _,
       if String.eqb cmd "false" || String.eqb cmd "exit 1"
       then ([], Some (ExitError 1)) else ([], None);
     uuid_New := λ now, "run-" +:+ pretty now;
     files := λ _, None;
     workflows_dir := "workflows";
     logs_dir := "logs" |}.

(** The same machine with the context cancelled from the start. *)
Definition cancelled : Env :=
  {| cancel_at := Some 0%nat;
     store_fault := store_fault quiet;
     mkdir_fault := mkdir_fault quiet;
     command := command quiet;
     uuid_New := uuid_New quiet;
     files := files quiet;
     workflows_dir := workflows_dir quiet;
     logs_dir := logs_dir quiet |}.

(** The same machine with a database that refuses every UPDATE. *)
Definition update_faults : Env :=
  {| cancel_at := None;
     store_fault := λ op _, bool_decide (op = OpUpdateTaskRun ∨ op = OpUpdate);
     mkdir_fault := mkdir_fault quiet;
     command := command quiet;
     uuid_New := uuid_New quiet;
     files := files quiet;
     workflows_dir := workflows_dir quiet;
     logs_dir := logs_dir quiet |}.

(** Seed scenario 1. *)
Definition simple : DAG := graph_of "simple" [task "a" "echo hello" [] 0].

(** A run row as [NewWorkflowRun] returns it. *)
Definition first_run : WorkflowRun :=
  {| wr_ID := "run-0"; wr_Workflow := "retry"; wr_WorkflowHash := "e3b0c442";
     wr_Status := StatusRunning; wr_StartedAt := 0; wr_EndedAt := None;
     wr_ExitCode := None; wr_Meta := None; wr_CreatedAt := 0 |}.

Definition failing_task : Task := task "a" "false" [] 2.

Definition empty_world : World :=
  {| clock := 0; workflow_runs := []; task_runs := []; task_seq := 0;
     processes := []; log_files := ∅ |}.

(** The row of a task of [first_run] that succeeded at its first attempt,
    and a store that holds it. *)
Definition finished_row : TaskRun :=
  {| tr_ID := 1; tr_RunID := "run-0"; tr_Name := "a"; tr_Status := TaskSuccess;
     tr_StartedAt := 1; tr_EndedAt := Some 5%nat; tr_Attempts := 1;
     tr_ExitCode := Some 0%Z; tr_LogPath := "logs/run-0/a_1.log"; tr_LastError := "" |}.

Definition finished_world : World :=
  {| clock := 6; workflow_runs := [first_run]; task_runs := [finished_row]; task_seq := 1;
     processes := ["false"]; log_files := ∅ |}.

(** Seed scenario 5: the workflow as first run, and the document that is on
    disk when the run is resumed ([t1] now succeeds). *)
Definition resume_first : DAG :=
  graph_of "resume" [task "t1" "exit 1" [] 0; task "t2" "echo ok" ["t1"] 0].

Definition resume_document : rawWorkflow :=
  {| raw_Name := "resume";
     raw_Tasks :=
       <["t1" := {| raw_Cmd := "exit 0"; raw_Retries := 0%Z; raw_DependsOn := [] |}]>
       (<["t2" := {| raw_Cmd := "echo ok"; raw_Retries := 0%Z; raw_DependsOn := ["t1"] |}]>
        ∅) |}.

Definition document_externals : Externals :=
  {| json_Marshal := λ _, Some [];
     sha256_Sum256 := λ data, data;
     hex_EncodeToString := λ _, "e3b0c442";
     toml_Unmarshal := λ _, Some resume_document |}.

(** The quiet machine with the file [workflows/resume.toml]. *)
Definition on_disk : Env :=
  {| cancel_at := None;
     store_fault := store_fault quiet;
     mkdir_fault := mkdir_fault quiet;
     command := command quiet;
     uuid_New := uuid_New quiet;
     files := λ path, if String.eqb path "workflows/resume.toml" then Some [] else None;
     workflows_dir := workflows_dir quiet;
     logs_dir := logs_dir quiet |}.

(** A task that depends on a task the graph does not have. *)
Definition dangling : DAG := graph_of "dangling" [task "a" "echo a" ["ghost"] 0].

(** The machine [env] with a database that refuses the operation [op] from
    the time [from] on, and nothing else. *)
Definition refusing (op : StoreOp) (from : nat) (env : Env) : Env :=
  {| cancel_at := cancel_at env;
     store_fault := λ op' k, bool_decide (op' = op) && bool_decide (from ≤ k)%nat;
     mkdir_fault := mkdir_fault env; command := command env; uuid_New := uuid_New env;
     files := files env; workflows_dir := workflows_dir env; logs_dir := logs_dir env |}.

(** The run row that the run of [resume_first] leaves, as [resume] reads it. *)
Definition failed_run : WorkflowRun :=
  {| wr_ID := "run-0"; wr_Workflow := "resume"; wr_WorkflowHash := "e3b0c442";
     wr_Status := StatusFailed; wr_StartedAt := 0; wr_EndedAt := Some 5%nat;
     wr_ExitCode := None; wr_Meta := None; wr_CreatedAt := 0 |}.

(** * Vocabulary of the properties *)

(** The representation invariant of a graph: the key of an entry of
    [Tasks] is the name of its task (spec: a mapping from task name to
    Task).  [parseWorkflow] and every literal of the tests establish it. *)
Definition well_keyed (d : DAG) : Prop :=
  ∀ k t, Tasks d !! k = Some t → Name t = k.

(** Two tasks that differ in the order of their dependency lists only. *)
Definition task_reordered (t t' : Task) : Prop :=
  Name t = Name t' ∧ Cmd t = Cmd t' ∧ Retries t = Retries t' ∧
  DependsOn t ≡ₚ DependsOn t'.

(** Two graphs with the same name and, under every key, the same task up
    to the order of its dependency list. *)
Definition same_graph (d d' : DAG) : Prop :=
  DName d = DName d' ∧
  ∀ k, option_Forall2 task_reordered (Tasks d !! k) (Tasks d' !! k).

(** Two sequences of tasks to insert that differ in the order of the tasks
    and in the order of each dependency list. *)
Definition reordered (ts ts' : list Task) : Prop :=
  ∃ ts'', ts ≡ₚ ts'' ∧ Forall2 task_reordered ts'' ts'.

(** The dependency relation of a graph, and what it means for it to be
    acyclic and to stay inside the graph. *)
Definition depends_on (d : DAG) (v u : string) : Prop :=
  ∃ t, Tasks d !! v = Some t ∧ u ∈ DependsOn t.

Definition acyclic (d : DAG) : Prop := ∀ v, ¬ tc (depends_on d) v v.

Definition deps_closed (d : DAG) : Prop :=
  ∀ v u, depends_on d v u → is_Some (Tasks d !! u).

(** Every dependency of a task of the sequence stands before the task. *)
Definition deps_first (order : list Task) : Prop :=
  ∀ i t dep, order !! i = Some t → dep ∈ DependsOn t →
    ∃ j t', (j < i)%nat ∧ order !! j = Some t' ∧ Name t' = dep.

(** The number of dependencies of each task: what [inDegree] holds when the
    queue is initialised. *)
Definition in_degrees (d : DAG) : gmap string Z :=
  (λ t, Z.of_nat (length (DependsOn t))) <$> Tasks d.

Definition at_most_one_root (d : DAG) : Prop :=
  ∀ k k' t t', Tasks d !! k = Some t → Tasks d !! k' = Some t' →
    DependsOn t = [] → DependsOn t' = [] → k = k'.

(** Occurrences of a name in a list of names. *)
Definition occ (x : string) (l : list string) : nat :=
  length (filter (λ y, y = x) l).

(** The edges that [collectEdges] adds for a list of entries: the names
    appended to [neighborList[u]] and the increments of [inDegree[x]]. *)
Definition edges_to (t : Task) (u : string) : list string :=
  DependsOn t ≫= (λ dep, if decide (dep = u) then [Name t] else []).

Definition outgoing (entries : list (string * Task)) (u : string) : list string :=
  entries ≫= (λ kv, edges_to kv.2 u).

Definition incoming (entries : list (string * Task)) (x : string) : nat :=
  sum_list_with (λ kv : string * Task,
                   if decide (Name kv.2 = x) then length (DependsOn kv.2) else 0%nat)
                entries.

(** The names that [drain] takes from the queue, in order. *)
Fixpoint drain_names (bound : nat) (neighborList : gmap string (list string))
    (inDegree : gmap string Z) (queue : list string) : list string :=
  match bound, queue with
  | S bound, n :: queue =>
      let acc := foldl release (inDegree, queue) (get_list neighborList n) in
      n :: drain_names bound neighborList acc.1 acc.2
  | _, _ => []
  end.

Definition deps_of (tasks : gmap string Task) (v : string) : list string :=
  from_option DependsOn [] (tasks !! v).

(** The dependencies of [v], with repetitions, that are not yet in [P]. *)
Definition pending (tasks : gmap string Task) (P : list string) (v : string) : nat :=
  length (filter (λ u, u ∉ P) (deps_of tasks v)).

(** The invariant of the loop of Kahn's method: [P] are the names already
    taken from the queue [Q]. *)
Record kahn_inv (tasks : gmap string Task) (inDegree : gmap string Z)
    (Q P : list string) : Prop := {
  inv_NoDup : NoDup (P ++ Q);
  inv_tasks : ∀ x, x ∈ P ++ Q → is_Some (tasks !! x);
  inv_degree : ∀ v, inDegree !! v = (λ _, Z.of_nat (pending tasks P v)) <$> tasks !! v;
  inv_ready : ∀ v, is_Some (tasks !! v) → (v ∈ P ++ Q ↔ pending tasks P v = 0%nat);
  inv_order : ∀ i x u, P !! i = Some x → u ∈ deps_of tasks x →
                ∃ j, (j < i)%nat ∧ P !! j = Some u
}.

(** The map [neighborList] of [TopologicalSort] when its main loop starts,
    and the names that the loop takes from the queue. *)
Definition neighborList_of (ρ : nat → RangeOrder) (d : DAG) : gmap string (list string) :=
  sortNeighbors (ρ 2) (collectEdges (ρ 1) (Tasks d) (initInDegree (ρ 0) (Tasks d))).1.

Definition emitted (ρ : nat → RangeOrder) (d : DAG) : list string :=
  let edges := collectEdges (ρ 1) (Tasks d) (initInDegree (ρ 0) (Tasks d)) in
  let queue := initQueue (ρ 3) edges.2 in
  drain_names (loop_bound edges.2 queue) (neighborList_of ρ d) edges.2 queue.

(** Follows the words of the spec, for comparison with [TopologicalSort]:
    Kahn's method where, at every extraction step, the lexicographically
    smallest task with no remaining incoming edge goes next. *)
Fixpoint lexicographic_steps (steps : nat) (d : DAG) (taken : list string) : list string :=
  match steps with
  | O => []
  | S steps =>
      let ready :=
        filter (λ n, n ∉ taken ∧ Forall (λ dep, dep ∈ taken) (deps_of (Tasks d) n))
               (map_to_list (Tasks d)).*1 in
      match sort_Strings ready with
      | [] => []
      | n :: _ => n :: lexicographic_steps steps d (taken ++ [n])
      end
  end.

Definition lexicographic_order (d : DAG) : list string :=
  lexicographic_steps (size (Tasks d)) d [].

Definition task_names (r : result (list (option Task))) : result (list (option string)) :=
  match r with
  | Ok l => Ok ((λ o : option Task, Name <$> o) <$> l)
  | Err e => Err e
  end.

(** ** Vocabulary of the executor *)

(** An environment in which neither the database nor the file system fails. *)
Definition healthy (env : Env) : Prop :=
  (∀ op k, store_fault env op k = false) ∧ (∀ k, mkdir_fault env k = false).

(** The command fails whenever it is run. *)
Definition always_fails (env : Env) (cmd : string) : Prop :=
  ∀ k, (command env cmd k).2 ≠ None.

(** Nothing but the clock differs between the two worlds. *)
Definition same_state (w w' : World) : Prop :=
  workflow_runs w' = workflow_runs w ∧ task_runs w' = task_runs w ∧
  task_seq w' = task_seq w ∧ processes w' = processes w ∧ log_files w' = log_files w.

(** The row that [GetTaskRun] finds for a task of a run. *)
Definition task_row (w : World) (runID taskName : string) : option TaskRun :=
  List.find (λ r, bool_decide (tr_RunID r = runID ∧ tr_Name r = taskName)) (task_runs w).

Definition run_row (w : World) (id : string) : option WorkflowRun :=
  List.find (λ r, bool_decide (wr_ID r = id)) (workflow_runs w).

(** A computation that only adds to the list of spawned processes. *)
Definition spawns_only_more {A} (m : M A) : Prop :=
  ∀ w, ∃ more, processes (m w).2 = processes w ++ more.

(** A computation whose database errors, when it returns one, come from
    the operations [ops]. *)
Definition surfaces_only {A} (ops : list StoreOp) (m : M A) : Prop :=
  ∀ w op, (m w).1 = Err (ErrStore op) → op ∈ ops.

(** * The plan of a dry run (cmd/run.go) *)

Record TaskPlan := {
  tp_Order : Z;
  tp_Name : string;
  tp_Cmd : string;
  tp_DependsOn : list string;
  tp_Retries : Z
}.

Record WorkflowPlan := {
  wp_Workflow : string;
  wp_Tasks : list TaskPlan
}.

(** [for i, t := range order { plan.Tasks = append(plan.Tasks, TaskPlan{Order: i + 1, ...}) }];
    [i] is the index of the loop. *)
Fixpoint planTasks (i : Z) (order : list (option Task)) (tasks : list TaskPlan)
    : result (list TaskPlan) :=
  match order with
  | [] => Ok tasks
  | None :: _ => Err PanicNilTask
  | Some t :: order =>
      planTasks (i + 1) order
        (tasks ++ [{| tp_Order := int_add i 1; tp_Name := Name t; tp_Cmd := Cmd t;
                      tp_DependsOn := DependsOn t; tp_Retries := Retries t |}])
  end.

Definition planRun (ρ : nat → RangeOrder) (d : DAG) : result WorkflowPlan :=
  match TopologicalSort ρ d with
  | Err e => Err e
  | Ok order =>
      match planTasks 0 order [] with
      | Err e => Err e
      | Ok tasks => Ok {| wp_Workflow := DName d; wp_Tasks := tasks |}
      end
  end.

(** * RenderASCII (internal/dag/dag.go) *)

(** The closure [render] calls itself without a bound; the model takes the
    bound [depth] on the depth of the recursion and returns [None] where it
    is reached. *)

Definition newline : string := String (Ascii.ascii_of_nat 10) "".

(** [children[dep] = append(children[dep], n.Name)] for every dependency of
    every task. *)
Definition childrenOf (ρ : RangeOrder) (tasks : gmap string Task)
    : gmap string (list string) :=
  foldl (λ children kv,
           foldl (λ children dep, <[dep := get_list children dep ++ [Name kv.2]]> children)
                 children (DependsOn kv.2))
        ∅ (range ρ tasks).

(** The loop [for i, k := range kids] of the closure [render]; [rec] is the
    recursive call, [n] is [len(kids)], [out] what the builder holds of this
    subtree. *)
Fixpoint renderKids (rec : string → string → option string) (prefix : string)
    (n i : nat) (kids : list string) (out : string) : option string :=
  match kids with
  | [] => Some out
  | k :: kids =>
      let last := bool_decide (i = n - 1)%nat in
      let edge := if last then "└── " else "├── " in
      let next := if last then prefix +:+ "    " else prefix +:+ "│   " in
      match rec k next with
      | None => None
      | Some sub => renderKids rec prefix n (S i) kids (out +:+ prefix +:+ edge +:+ sub)
      end
  end.

(** The closure [render]: what it writes to the builder, or [None] when the
    recursion is deeper than [depth] (on a cycle it never returns). *)
Fixpoint render (depth : nat) (children : gmap string (list string))
    (node prefix : string) : option string :=
  match depth with
  | O => None
  | S depth =>
      let kids := sort_Strings (get_list children node) in
      renderKids (render depth children) prefix (length kids) 0 kids
                 (prefix +:+ node +:+ newline)
  end.

(** [sort.Slice(roots, func(i, j) { return roots[i].Name < roots[j].Name })];
    [sort.Slice] is not stable: the result is determined where the names of
    the roots are distinct, as they are in a well-keyed graph. *)
Definition task_le (a b : Task) : Prop := String.le (Name a) (Name b).

#[global] Instance task_le_dec : RelDecision task_le.
Proof. intros a b. unfold task_le. apply _. Defined.

Definition sort_Slice_roots (roots : list Task) : list Task := merge_sort task_le roots.

Fixpoint renderRoots (depth : nat) (children : gmap string (list string))
    (roots : list Task) (out : string) : option string :=
  match roots with
  | [] => Some out
  | root :: roots =>
      match render depth children (Name root) "" with
      | None => None
      | Some sub => renderRoots depth children roots (out +:+ sub)
      end
  end.

Definition RenderASCII (depth : nat) (ρ : nat → RangeOrder) (d : DAG) : option string :=
  let children := childrenOf (ρ 0) (Tasks d) in
  let roots := sort_Slice_roots (Roots (ρ 1) d) in
  renderRoots depth children roots "".

(** * Vocabulary of the further properties *)

(** What [Validate] asks of a graph. *)
Definition valid (d : DAG) : Prop :=
  DName d ≠ "" ∧ Tasks d ≠ ∅ ∧
  (∀ k t, Tasks d !! k = Some t → taskNamePattern_MatchString k = true ∧ Cmd t ≠ "") ∧
  deps_closed d ∧ acyclic d.

(** What an error of [Validate] says about the graph. *)
Definition justified (d : DAG) (e : Error) : Prop :=
  match e with
  | ErrNameRequired => DName d = ""
  | ErrNoTasks => Tasks d = ∅
  | ErrInvalidTaskName k =>
      is_Some (Tasks d !! k) ∧ taskNamePattern_MatchString k = false
  | ErrNoCommand k => ∃ t, Tasks d !! k = Some t ∧ Cmd t = ""
  | ErrMissingDependency k dep =>
      ∃ t, Tasks d !! k = Some t ∧ dep ∈ DependsOn t ∧ Tasks d !! dep = None
  | ErrCycle => deps_closed d ∧ (well_keyed d → ¬ acyclic d)
  | _ => False
  end.

(** The task that the loader builds for an entry of the document. *)
Definition task_of_raw (name : string) (r : rawTask) : Task :=
  {| Name := name; Cmd := raw_Cmd r; DependsOn := raw_DependsOn r; Retries := raw_Retries r |}.

(** The entry of the plan for the task at index [i] of the order. *)
Definition plan_entry (i : nat) (t : Task) : TaskPlan :=
  {| tp_Order := Z.of_nat i + 1; tp_Name := Name t; tp_Cmd := Cmd t;
     tp_DependsOn := DependsOn t; tp_Retries := Retries t |}.

(** Every error that [m] returns satisfies [P]. *)
Definition raises {A} (P : Error → Prop) (m : M A) : Prop :=
  ∀ w e, (m w).1 = Err e → P e.

(** The errors of the loop over the tasks of [d]: the cancellation, the
    directory of the logs, the insertion of a row, and a task of [d] whose
    attempts are exhausted. *)
Definition task_error (d : DAG) (e : Error) : Prop :=
  match e with
  | ErrCancelled | ErrMkdirAll | ErrStore OpSaveTaskRun => True
  | ErrTaskFailed task workflow _ => workflow = DName d ∧ is_Some (Tasks d !! task)
  | _ => False
  end.

(** The errors of [Run] on the graph [d]. *)
Definition run_error (d : DAG) (e : Error) : Prop :=
  match e with
  | ErrMarshal | ErrStore OpNewWorkflowRun | ErrTopologicalSort ErrCycle => True
  | _ => task_error d e
  end.

(** The errors of [Resume] on the run [wr]; [d] is the graph that the loader
    reads for the workflow of the run. *)
Definition resume_error `{!Externals} (ρ : nat → RangeOrder) (env : Env) (wr : WorkflowRun)
    (e : Error) : Prop :=
  match e with
  | ErrLoadWorkflow workflow e' =>
      workflow = wr_Workflow wr ∧ dag_Load ρ env (wr_Workflow wr) = Err e'
  | ErrStore OpGetTaskRun => True
  | _ => ∃ d, dag_Load ρ env (wr_Workflow wr) = Ok d ∧ task_error d e
  end.

(** The keys of the two tables: the ids of the runs are distinct (primary
    key), the ids of the task rows are distinct and none is above the
    counter of the AUTOINCREMENT column. *)
Definition store_ok (w : World) : Prop :=
  NoDup (wr_ID <$> workflow_runs w) ∧
  NoDup (tr_ID <$> task_runs w) ∧
  Forall (λ r, (tr_ID r ≤ task_seq w)%Z) (task_runs w).

(** Every run of [m] takes a world to one that is related to it by [R]. *)
Definition steps {A} (R : relation World) (m : M A) : Prop := ∀ w, R w (m w).2.

(** The columns of a task row, and of a run row, that no UPDATE statement
    of the store writes. *)
Definition row_key (r : TaskRun) : Z * string * string * nat :=
  (tr_ID r, tr_RunID r, tr_Name r, tr_StartedAt r).

Definition run_key (r : WorkflowRun) : string * string * string * nat * nat :=
  (wr_ID r, wr_Workflow r, wr_WorkflowHash r, wr_StartedAt r, wr_CreatedAt r).

(** From [w] to [w'] rows were only added at the end of the two tables;
    the rows of [w] are still there, in place, with these columns as they were. *)
Definition rows_appended (w w' : World) : Prop :=
  (∃ more, row_key <$> task_runs w' = (row_key <$> task_runs w) ++ more) ∧
  (∃ more, run_key <$> workflow_runs w' = (run_key <$> workflow_runs w) ++ more).

(** From [w] to [w'] no run row was added. *)
Definition runs_kept (w w' : World) : Prop :=
  run_key <$> workflow_runs w' = run_key <$> workflow_runs w.

Definition store_kept_ok (w w' : World) : Prop := store_ok w → store_ok w'.

(** The processes that the attempts counted in [row] started for [t]. *)
Definition spawned (t : Task) (row : TaskRun) : list string :=
  replicate (Z.to_nat (tr_Attempts row)) (Cmd t).

(** The row that the loop of [Run] leaves for the task [t] of the run [wr],
    by its status: a success within the budget of [Retries t + 1] attempts,
    a failure with the budget used up, or a row that is still running with
    no attempt, when the budget is empty. *)
Definition row_of (wr : WorkflowRun) (t : Task) (row : TaskRun) : Prop :=
  tr_RunID row = wr_ID wr ∧ tr_Name row = Name t ∧
  match tr_Status row with
  | TaskSuccess =>
      (1 ≤ tr_Attempts row ≤ int_add (Retries t) 1)%Z ∧
      tr_ExitCode row = Some 0%Z ∧ is_Some (tr_EndedAt row)
  | TaskFailed =>
      (1 ≤ tr_Attempts row)%Z ∧ tr_Attempts row = int_add (Retries t) 1 ∧
      is_Some (tr_EndedAt row)
  | TaskRunning => tr_Attempts row = 0%Z ∧ (int_add (Retries t) 1 < 1)%Z
  | TaskPending => False
  end.

Definition attempts_sum (rows : list TaskRun) : Z :=
  foldr (λ row s, (tr_Attempts row + s)%Z) 0%Z rows.

(** Every command exits with status 0, at every time. *)
Definition always_succeeds (env : Env) : Prop :=
  ∀ cmd k, (command env cmd k).2 = None.

(** The row of a task that succeeded at its first attempt. *)
Definition succeeded (run : WorkflowRun) (t : Task) (row : TaskRun) : Prop :=
  tr_RunID row = wr_ID run ∧ tr_Name row = Name t ∧ tr_Status row = TaskSuccess ∧
  tr_Attempts row = 1%Z ∧ tr_ExitCode row = Some 0%Z ∧ is_Some (tr_EndedAt row).

(** The quiet machine with commands that all succeed. *)
Definition obliging : Env :=
  {| cancel_at := None;
     store_fault := store_fault quiet;
     mkdir_fault := mkdir_fault quiet;
     command := λ _ _, ([], None);
     uuid_New := uuid_New quiet;
     files := files quiet;
     workflows_dir := workflows_dir quiet;
     logs_dir := logs_dir quiet |}.

(** * Properties of [range] *)

Lemma range_Permutation {A} (ρ : RangeOrder) (m : gmap string A) :
  range ρ m ≡ₚ map_to_list m.
Proof. apply visit_perm. Qed.

Lemma elem_of_range {A} (ρ : RangeOrder) (m : gmap string A) k x :
  (k, x) ∈ range ρ m ↔ m !! k = Some x.
Proof. rewrite range_Permutation. apply elem_of_map_to_list. Qed.

Lemma NoDup_range_keys {A} (ρ : RangeOrder) (m : gmap string A) :
  NoDup (range ρ m).*1.
Proof. rewrite range_Permutation. apply NoDup_fst_map_to_list. Qed.

Lemma elem_of_range_keys {A} (ρ : RangeOrder) (m : gmap string A) k :
  k ∈ (range ρ m).*1 ↔ is_Some (m !! k).
Proof.
  rewrite list_elem_of_fmap. split.
  - intros [[k' x] [-> Hin]]. apply elem_of_range in Hin. by exists x.
  - intros [x Hx]. exists (k, x). split; [done|]. by apply elem_of_range.
Qed.

Lemma length_range {A} (ρ : RangeOrder) (m : gmap string A) :
  length (range ρ m) = size m.
Proof. rewrite range_Permutation. apply length_map_to_list. Qed.

(** * Validate never reports a duplicate task *)

Lemma validateTasks_no_duplicate tasks seen entries name :
  NoDup entries.*1 →
  (∀ k, k ∈ entries.*1 → k ∉ seen) →
  validateTasks tasks seen entries ≠ Some (ErrDuplicateTask name).
Proof.
  revert seen. induction entries as [|[k t] entries IH]; intros seen Hnd Hseen; [done|].
  cbn [validateTasks]. apply NoDup_cons in Hnd as [Hk Hnd].
  destruct (decide (k ∈ seen)) as [Hin|_].
  { exfalso. apply (Hseen k); [left|done]. }
  destruct (negb _); [done|].
  destruct (decide _); [done|].
  destruct (List.find _ _); [done|].
  apply IH; [done|].
  intros k' Hk' [->%elem_of_singleton|Hin]%elem_of_union; [done|].
  apply (Hseen k'); [by right|done].
Qed.

Lemma TopologicalSort_error ρ d e : TopologicalSort ρ d = Err e → e = ErrCycle.
Proof. unfold TopologicalSort. case_decide; congruence. Qed.

Lemma Validate_no_duplicate ρ d name : Validate ρ d ≠ Some (ErrDuplicateTask name).
Proof.
  unfold Validate. repeat case_decide; try done.
  destruct (validateTasks _ _ _) as [e|] eqn:Hv.
  - intros [= ->]. revert Hv. apply validateTasks_no_duplicate.
    + apply NoDup_range_keys.
    + set_solver.
  - destruct (TopologicalSort _ _) as [|e] eqn:Hs; [done|].
    apply TopologicalSort_error in Hs as ->. done.
Qed.

(** * The loader stores every task under its own name *)

Lemma foldl_insert_named {A} (f : string → A → Task) (l : list (string * A))
    (acc : gmap string Task) k t :
  (∀ k a, Name (f k a) = k) →
  (∀ k t, acc !! k = Some t → Name t = k) →
  foldl (λ tasks kv, <[kv.1 := f kv.1 kv.2]> tasks) acc l !! k = Some t →
  Name t = k.
Proof.
  intros Hf. revert acc. induction l as [|[k' a] l IH]; intros acc Hacc; cbn.
  - apply Hacc.
  - apply IH. intros k0 t0. destruct (decide (k' = k0)) as [->|Hne].
    + rewrite lookup_insert_eq. intros [= <-]. apply Hf.
    + rewrite lookup_insert_ne by done. apply Hacc.
Qed.

Section loader.
Context `{!Externals}.

Lemma parseWorkflow_well_keyed ρ data d :
  parseWorkflow ρ data = Ok d → well_keyed d.
Proof.
  unfold parseWorkflow. destruct (toml_Unmarshal data) as [wf|]; [|done].
  case_decide; [done|]. intros [= <-] k t. cbn.
  apply (foldl_insert_named (λ k r, {| Name := k; Cmd := raw_Cmd r;
            DependsOn := raw_DependsOn r; Retries := raw_Retries r |})); [done|].
  intros k0 t0. by rewrite lookup_empty.
Qed.

Lemma LoadFromString_well_keyed ρ data d :
  LoadFromString ρ data = Ok d → well_keyed d.
Proof.
  unfold LoadFromString. destruct (parseWorkflow ρ data) as [d'|] eqn:Hp; [|done].
  destruct (Validate _ _); [done|]. intros [= <-].
  by eapply parseWorkflow_well_keyed.
Qed.

Lemma dag_Load_well_keyed ρ env path d :
  dag_Load ρ env path = Ok d → well_keyed d.
Proof.
  unfold dag_Load. destruct (files env _); [|done].
  destruct (parseWorkflow ρ _) as [d'|] eqn:Hp; [|done].
  destruct (Validate _ _); [done|]. intros [= <-].
  by eapply parseWorkflow_well_keyed.
Qed.

Lemma dag_Load_valid ρ env path d :
  dag_Load ρ env path = Ok d → Validate (later ρ) d = None.
Proof.
  unfold dag_Load. destruct (files env _); [|done].
  destruct (parseWorkflow ρ _) as [d'|] eqn:Hp; [|done].
  destruct (Validate _ _) eqn:Hv; [done|]. by intros [= <-].
Qed.

(** ** C10 *)

(** C10.  For every DAG value and every iteration order, [Validate] does
    not return the duplicate-task error: the loop visits each key of the
    name-keyed map once, so the key is never in [seen].  The loaders, which
    wrap the error of [Validate], do not return it either. *)
Theorem duplicate_task_unreachable :
  ∀ (ρ : nat → RangeOrder) (name : string),
    (∀ d : DAG, Validate ρ d ≠ Some (ErrDuplicateTask name)) ∧
    (∀ data : list Byte.byte,
        LoadFromString ρ data ≠ Err (ErrValidation (ErrDuplicateTask name)) ∧
        LoadFromString ρ data ≠ Err (ErrDuplicateTask name)) ∧
    (∀ (env : Env) (path : string),
        dag_Load ρ env path ≠ Err (ErrValidation (ErrDuplicateTask name)) ∧
        dag_Load ρ env path ≠ Err (ErrDuplicateTask name)).
Proof.
  intros ρ name. split; [|split].
  - intros d. apply Validate_no_duplicate.
  - intros data. unfold LoadFromString, parseWorkflow.
    destruct (toml_Unmarshal data) as [wf|]; [|done].
    case_decide; [done|].
    destruct (Validate _ _) as [e|] eqn:Hv; [|done].
    split; [|done]. intros [= ->]. by apply Validate_no_duplicate in Hv.
  - intros env path. unfold dag_Load, parseWorkflow.
    destruct (files env _) as [data|]; [|done].
    destruct (toml_Unmarshal data) as [wf|]; [|done].
    case_decide; [done|].
    destruct (Validate _ _) as [e|] eqn:Hv; [|done].
    split; [|done]. intros [= ->]. by apply Validate_no_duplicate in Hv.
Qed.

End loader.

(** * ComputeHash does not depend on any order *)

#[global] Instance snap_le_trans : Transitive snap_le.
Proof. intros a b c. unfold snap_le. apply transitivity. Qed.

#[global] Instance snap_le_total : Total snap_le.
Proof. intros a b. unfold snap_le. apply total, _. Qed.

Lemma sort_Strings_Permutation l l' : l ≡ₚ l' → sort_Strings l = sort_Strings l'.
Proof.
  intros Hp. unfold sort_Strings. apply (Sorted_unique String.le).
  - apply Sorted_merge_sort, _.
  - apply Sorted_merge_sort, _.
  - by rewrite !merge_sort_Permutation.
Qed.

Lemma snapshot_of_reordered t t' : task_reordered t t' → snapshot_of t = snapshot_of t'.
Proof.
  intros (Hn & Hc & Hr & Hd). unfold snapshot_of.
  rewrite Hn, Hc, Hr. f_equal. by apply sort_Strings_Permutation.
Qed.

Lemma foldl_snoc_fmap {A B} (f : A → B) (l : list A) (acc : list B) :
  foldl (λ acc x, acc ++ [f x]) acc l = acc ++ (f <$> l).
Proof.
  revert acc. induction l as [|x l IH]; intros acc; cbn.
  - by rewrite app_nil_r.
  - rewrite IH. by rewrite <-app_assoc.
Qed.

Lemma snapshots_Permutation (ρ : RangeOrder) (tasks : gmap string Task) :
  foldl (λ acc kv, acc ++ [snapshot_of kv.2]) [] (range ρ tasks)
  ≡ₚ (map_to_list (snapshot_of <$> tasks)).*2.
Proof.
  rewrite (foldl_snoc_fmap (λ kv : string * Task, snapshot_of kv.2)). cbn.
  rewrite range_Permutation, map_to_list_fmap, <-list_fmap_compose.
  reflexivity.
Qed.

Lemma snapshot_same_graph ρ ρ' d d' :
  well_keyed d → same_graph d d' → snapshot ρ d = snapshot ρ' d'.
Proof.
  intros Hwk [Hname Htasks]. unfold snapshot. rewrite Hname. f_equal.
  assert (snapshot_of <$> Tasks d = snapshot_of <$> Tasks d') as Heq.
  { apply map_eq. intros k. rewrite !lookup_fmap.
    destruct (Htasks k) as [t t' Htt'|]; cbn; [|done].
    f_equal. by apply snapshot_of_reordered. }
  pose proof (snapshots_Permutation ρ (Tasks d)) as Hp.
  pose proof (snapshots_Permutation ρ' (Tasks d')) as Hp'.
  rewrite <-Heq in Hp'.
  unfold sort_Slice_by_Name. apply (StronglySorted_unique_strong snap_le).
  - intros x1 x2 Hx1 Hx2 H12 H21.
    rewrite merge_sort_Permutation, Hp in Hx1.
    rewrite merge_sort_Permutation, Hp' in Hx2.
    apply list_elem_of_fmap in Hx1 as ([k1 s1] & -> & Hx1).
    apply list_elem_of_fmap in Hx2 as ([k2 s2] & -> & Hx2).
    apply elem_of_map_to_list in Hx1, Hx2.
    rewrite lookup_fmap in Hx1, Hx2.
    destruct (Tasks d !! k1) as [t1|] eqn:H1; [|done].
    destruct (Tasks d !! k2) as [t2|] eqn:H2; [|done].
    cbn in *. injection Hx1 as <-. injection Hx2 as <-.
    assert (k1 = k2) as ->; [|congruence].
    rewrite <-(Hwk _ _ H1), <-(Hwk _ _ H2).
    unfold snap_le in *; cbn in *. by apply (anti_symm String.le).
  - apply StronglySorted_merge_sort; apply _.
  - apply StronglySorted_merge_sort; apply _.
  - by rewrite !merge_sort_Permutation, Hp, Hp'.
Qed.

(** Inserting tasks under their names. *)
Lemma foldl_insert_tasks (ts : list Task) (acc : gmap string Task) :
  NoDup (Name <$> ts) →
  (∀ t, t ∈ ts → foldl (λ m t, <[Name t := t]> m) acc ts !! Name t = Some t) ∧
  (∀ k, k ∉ Name <$> ts → foldl (λ m t, <[Name t := t]> m) acc ts !! k = acc !! k).
Proof.
  revert acc. induction ts as [|t0 ts IH]; intros acc Hnd.
  { split; [by intros t ?%elem_of_nil|done]. }
  cbn [foldl]. rewrite fmap_cons in Hnd. apply NoDup_cons in Hnd as [Ht0 Hnd].
  destruct (IH (<[Name t0 := t0]> acc) Hnd) as [IH1 IH2]. split.
  - intros t [->|Hin]%elem_of_cons.
    + rewrite IH2 by done. apply lookup_insert_eq.
    + by apply IH1.
  - intros k Hk. rewrite fmap_cons, not_elem_of_cons in Hk. destruct Hk as [Hne Hk].
    rewrite IH2 by done. by apply lookup_insert_ne.
Qed.

Lemma graph_of_lookup name ts k :
  NoDup (Name <$> ts) →
  Tasks (graph_of name ts) !! k = None ∧ k ∉ Name <$> ts ∨
  ∃ t, Tasks (graph_of name ts) !! k = Some t ∧ t ∈ ts ∧ Name t = k.
Proof.
  intros Hnd. cbn. destruct (foldl_insert_tasks ts ∅ Hnd) as [H1 H2].
  destruct (decide (k ∈ Name <$> ts)) as [Hin|Hnin].
  - right. apply list_elem_of_fmap in Hin as (t & -> & Hin). exists t. auto.
  - left. split; [|done]. by rewrite H2.
Qed.

Lemma graph_of_well_keyed name ts : well_keyed (graph_of name ts).
Proof.
  unfold well_keyed, graph_of. cbn.
  assert (∀ acc : gmap string Task,
    (∀ k t, acc !! k = Some t → Name t = k) →
    ∀ k t, foldl (λ m t, <[Name t := t]> m) acc ts !! k = Some t → Name t = k)
    as Hgen; [|apply Hgen; intros k t; by rewrite lookup_empty].
  induction ts as [|t0 ts IH]; intros acc Hacc; cbn; [done|].
  apply IH. intros k t. destruct (decide (Name t0 = k)) as [<-|Hne].
  - rewrite lookup_insert_eq. by intros [= <-].
  - rewrite lookup_insert_ne by done. apply Hacc.
Qed.

Lemma task_reordered_names ts ts' :
  Forall2 task_reordered ts ts' → Name <$> ts = Name <$> ts'.
Proof. induction 1 as [|t t' ts ts' [Hn _] _ IH]; cbn; [done|]. by rewrite Hn, IH. Qed.

Lemma graph_of_same_graph name ts ts' :
  NoDup (Name <$> ts) → reordered ts ts' →
  same_graph (graph_of name ts) (graph_of name ts').
Proof.
  intros Hnd (ts'' & Hperm & Hall). split; [done|]. intros k.
  assert (NoDup (Name <$> ts')) as Hnd'.
  { rewrite <-(task_reordered_names _ _ Hall), <-Hperm. done. }
  destruct (graph_of_lookup name ts k Hnd) as [[-> Hk]|(t & -> & Hin & Hname)].
  - destruct (graph_of_lookup name ts' k Hnd') as [[-> _]|(t' & _ & Hin' & Hname')].
    + constructor.
    + exfalso. apply Hk. rewrite Hperm, (task_reordered_names _ _ Hall).
      apply list_elem_of_fmap. eauto.
  - rewrite Hperm in Hin. apply list_elem_of_lookup in Hin as [i Hi].
    destruct (Forall2_lookup_l _ _ _ _ _ Hall Hi) as (t' & Hi' & Htt').
    assert (t' ∈ ts') as Hin' by (by eapply list_elem_of_lookup_2).
    destruct (foldl_insert_tasks ts' ∅ Hnd') as [H1 _].
    specialize (H1 t' Hin'). destruct Htt' as (Hn & Hrest).
    cbn. rewrite <-Hname, Hn, H1. constructor. by split.
Qed.

Section hash.
Context `{!Externals}.

Lemma ComputeHash_same_graph ρ ρ' d d' :
  well_keyed d → same_graph d d' → ComputeHash ρ d = ComputeHash ρ' d'.
Proof.
  intros Hwk Hsame. unfold ComputeHash.
  by rewrite (snapshot_same_graph (ρ 0) (ρ' 0) d d' Hwk Hsame).
Qed.

(** ** C4 *)

(** C4.  The digest of a graph depends neither on the order in which its
    tasks were inserted into the task map, nor on the order of any
    dependency list, nor on the order in which the map is iterated: two
    graphs built from task sequences that are equal up to these orders have
    the same [ComputeHash]. *)
Theorem ComputeHash_order_invariant :
  ∀ (ρ ρ' : nat → RangeOrder) (name : string) (ts ts' : list Task),
    NoDup (Name <$> ts) →
    reordered ts ts' →
    ComputeHash ρ (graph_of name ts) = ComputeHash ρ' (graph_of name ts').
Proof.
  intros ρ ρ' name ts ts' Hnd Hre.
  apply ComputeHash_same_graph.
  - apply graph_of_well_keyed.
  - by apply graph_of_same_graph.
Qed.

End hash.

Lemma ComputeHash_order_invariant_witness :
  ComputeHash (λ _, ascending)
    (graph_of "w" [task "a" "echo a" [] 0; task "d" "echo d" ["b"; "c"] 1]) =
  ComputeHash (λ _, descending)
    (graph_of "w" [task "d" "echo d" ["c"; "b"] 1; task "a" "echo a" [] 0]).
Proof.
  apply ComputeHash_order_invariant.
  - apply (bool_decide_unpack _). vm_compute. reflexivity.
  - exists [task "d" "echo d" ["b"; "c"] 1; task "a" "echo a" [] 0]. split.
    + apply perm_swap.
    + repeat constructor; apply perm_swap.
Defined.


(** * The maps built by TopologicalSort *)

Lemma occ_nil x : occ x [] = 0%nat.
Proof. done. Qed.

Lemma occ_cons x y l :
  occ x (y :: l) = ((if decide (y = x) then 1 else 0) + occ x l)%nat.
Proof. unfold occ. rewrite filter_cons. by case_decide. Qed.

Lemma occ_app x l k : occ x (l ++ k) = (occ x l + occ x k)%nat.
Proof. unfold occ. by rewrite filter_app, length_app. Qed.

Lemma occ_zero x l : occ x l = 0%nat ↔ x ∉ l.
Proof.
  induction l as [|y l IH]; [by rewrite occ_nil; split; [intros _; apply not_elem_of_nil|]|].
  rewrite occ_cons, not_elem_of_cons. case_decide; [subst|]; split.
  - lia.
  - by intros [? _].
  - intros H0. split; [congruence|]. apply IH. lia.
  - intros [_ Hl]. apply IH in Hl. lia.
Qed.

#[global] Instance occ_Permutation x : Proper ((≡ₚ) ==> (=)) (occ x).
Proof. intros l k Hp. unfold occ. by rewrite Hp. Qed.

(** A map is known by its domain and by what [get] reads. *)
Lemma map_eq_get_int (m1 m2 : gmap string Z) :
  (∀ k, is_Some (m1 !! k) ↔ is_Some (m2 !! k)) →
  (∀ k, get_int m1 k = get_int m2 k) → m1 = m2.
Proof.
  intros Hdom Hget. apply map_eq. intros k. specialize (Hdom k). specialize (Hget k).
  unfold get_int in Hget.
  destruct (m1 !! k), (m2 !! k); cbn in *; try congruence.
  - by destruct Hdom as [[? [=]]%(λ H, H (mk_is_Some _ _ eq_refl)) _].
  - by destruct Hdom as [_ [? [=]]%(λ H, H (mk_is_Some _ _ eq_refl))].
Qed.

(** ** The first loop: every key gets degree zero *)

Lemma foldl_insert_zero (l : list (string * Task)) (acc : gmap string Z) k :
  foldl (λ inDegree kv, <[kv.1 := 0%Z]> inDegree) acc l !! k =
  if decide (k ∈ l.*1) then Some 0%Z else acc !! k.
Proof.
  revert acc. induction l as [|[k' t] l IH]; intros acc; cbn [foldl].
  - rewrite decide_False; [done|]. apply not_elem_of_nil.
  - rewrite IH. cbn. destruct (decide (k ∈ l.*1)) as [Hin|Hnin].
    + rewrite decide_True; [done|]. by right.
    + destruct (decide (k' = k)) as [->|Hne].
      * rewrite lookup_insert_eq, decide_True; [done|]. by left.
      * rewrite lookup_insert_ne by done. rewrite decide_False; [done|].
        rewrite not_elem_of_cons. split; [congruence|done].
Qed.

Lemma initInDegree_spec ρ (tasks : gmap string Task) :
  initInDegree ρ tasks = (λ _, 0%Z) <$> tasks.
Proof.
  apply map_eq. intros k. unfold initInDegree.
  rewrite foldl_insert_zero, lookup_fmap, lookup_empty.
  case_decide as Hk.
  - apply elem_of_range_keys in Hk as [t ->]. done.
  - destruct (tasks !! k) as [t|] eqn:Ht; [|done].
    exfalso. apply Hk, elem_of_range_keys. eauto.
Qed.

(** ** The second loop: the edges *)

Lemma get_list_insert (m : gmap string (list string)) k l k' :
  get_list (<[k := l]> m) k' = if decide (k = k') then l else get_list m k'.
Proof.
  unfold get_list. case_decide as Hk; [subst; by rewrite lookup_insert_eq|].
  by rewrite lookup_insert_ne.
Qed.

Lemma get_int_insert (m : gmap string Z) k z k' :
  get_int (<[k := z]> m) k' = if decide (k = k') then z else get_int m k'.
Proof.
  unfold get_int. case_decide as Hk; [subst; by rewrite lookup_insert_eq|].
  by rewrite lookup_insert_ne.
Qed.

Lemma addEdge_fold (t : Task) (deps : list string)
    (acc : gmap string (list string) * gmap string Z) :
  let r := foldl (addEdge t) acc deps in
  (∀ u, get_list r.1 u =
        get_list acc.1 u ++ (deps ≫= (λ dep, if decide (dep = u) then [Name t] else []))) ∧
  (∀ x, get_int r.2 x =
        (get_int acc.2 x + (if decide (Name t = x) then Z.of_nat (length deps) else 0))%Z) ∧
  (∀ u, is_Some (r.1 !! u) ↔ is_Some (acc.1 !! u) ∨ u ∈ deps) ∧
  (∀ x, is_Some (r.2 !! x) ↔ is_Some (acc.2 !! x) ∨ (Name t = x ∧ deps ≠ [])).
Proof.
  revert acc. induction deps as [|dep deps IH]; intros acc; cbn zeta.
  { cbn. split; [|split; [|split]].
    - intros u. by rewrite app_nil_r.
    - intros x. case_decide; lia.
    - intros u. rewrite elem_of_nil. tauto.
    - intros x. tauto. }
  cbn [foldl]. destruct (IH (addEdge t acc dep)) as (H1 & H2 & H3 & H4).
  split; [|split; [|split]].
  - intros u. rewrite H1. unfold addEdge; cbn [fst snd].
    rewrite get_list_insert. cbn [mbind list_bind].
    case_decide; subst; [|done]. by rewrite <-app_assoc.
  - intros x. rewrite H2. unfold addEdge; cbn [fst snd].
    rewrite get_int_insert. cbn [length].
    repeat case_decide; subst; try done; lia.
  - intros u. rewrite H3. unfold addEdge; cbn [fst snd].
    rewrite elem_of_cons, lookup_insert_is_Some.
    destruct (decide (dep = u)); naive_solver.
  - intros x. rewrite H4. unfold addEdge; cbn [fst snd].
    rewrite lookup_insert_is_Some.
    destruct (decide (Name t = x)); [|naive_solver].
    split; [|naive_solver]. intros _. right. done.
Qed.

Lemma collectEdges_fold (l : list (string * Task))
    (acc : gmap string (list string) * gmap string Z) :
  let r := foldl (λ acc kv, foldl (addEdge kv.2) acc (DependsOn kv.2)) acc l in
  (∀ u, get_list r.1 u = get_list acc.1 u ++ outgoing l u) ∧
  (∀ x, get_int r.2 x = (get_int acc.2 x + Z.of_nat (incoming l x))%Z) ∧
  (∀ u, is_Some (r.1 !! u) ↔
        is_Some (acc.1 !! u) ∨ ∃ kv, kv ∈ l ∧ u ∈ DependsOn kv.2) ∧
  (∀ x, is_Some (r.2 !! x) ↔
        is_Some (acc.2 !! x) ∨ ∃ kv, kv ∈ l ∧ Name kv.2 = x ∧ DependsOn kv.2 ≠ []).
Proof.
  revert acc. induction l as [|kv l IH]; intros acc; cbn zeta.
  { cbn. split; [|split; [|split]].
    - intros u. by rewrite app_nil_r.
    - intros x. lia.
    - intros u. split; [auto|]. intros [?|(kv & []%elem_of_nil & _)]; done.
    - intros x. split; [auto|]. intros [?|(kv & []%elem_of_nil & _)]; done. }
  cbn [foldl].
  destruct (IH (foldl (addEdge kv.2) acc (DependsOn kv.2))) as (H1 & H2 & H3 & H4).
  destruct (addEdge_fold kv.2 (DependsOn kv.2) acc) as (E1 & E2 & E3 & E4).
  split; [|split; [|split]].
  - intros u. rewrite H1, E1. unfold outgoing, edges_to. cbn [mbind list_bind].
    by rewrite <-app_assoc.
  - intros x. rewrite H2, E2. unfold incoming. cbn [sum_list_with].
    case_decide; lia.
  - intros u. rewrite H3, E3. setoid_rewrite elem_of_cons. naive_solver.
  - intros x. rewrite H4, E4. setoid_rewrite elem_of_cons. naive_solver.
Qed.

#[global] Instance outgoing_Permutation :
  Proper ((≡ₚ) ==> (=) ==> (≡ₚ)) outgoing.
Proof. intros l l' Hp u ? <-. unfold outgoing. by rewrite Hp. Qed.

#[global] Instance incoming_Permutation :
  Proper ((≡ₚ) ==> (=) ==> (=)) incoming.
Proof. intros l l' Hp x ? <-. unfold incoming. by rewrite Hp. Qed.

(** The degrees do not depend on the order of the entries, and the lists
    of neighbours depend on it up to a permutation. *)
Lemma collectEdges_Permutation ρ ρ' (tasks : gmap string Task) deg0 :
  (collectEdges ρ tasks deg0).2 = (collectEdges ρ' tasks deg0).2 ∧
  (∀ u, is_Some ((collectEdges ρ tasks deg0).1 !! u) ↔
        is_Some ((collectEdges ρ' tasks deg0).1 !! u)) ∧
  (∀ u, get_list (collectEdges ρ tasks deg0).1 u ≡ₚ
        get_list (collectEdges ρ' tasks deg0).1 u).
Proof.
  unfold collectEdges.
  destruct (collectEdges_fold (range ρ tasks) (∅, deg0)) as (H1 & H2 & H3 & H4).
  destruct (collectEdges_fold (range ρ' tasks) (∅, deg0)) as (H1' & H2' & H3' & H4').
  assert (range ρ tasks ≡ₚ range ρ' tasks) as Hp by (by rewrite !range_Permutation).
  split; [|split].
  - apply map_eq_get_int.
    + intros x. rewrite H4, H4'. by setoid_rewrite Hp.
    + intros x. rewrite H2, H2'. by rewrite Hp.
  - intros u. rewrite H3, H3'. by setoid_rewrite Hp.
  - intros u. rewrite H1, H1'. by rewrite Hp.
Qed.

(** ** The third loop: every list of neighbours is sorted *)

Lemma foldl_sort_neighbors (l : list (string * list string))
    (acc : gmap string (list string)) u :
  NoDup l.*1 →
  foldl (λ nl kv, <[kv.1 := sort_Strings (get_list nl kv.1)]> nl) acc l !! u =
  if decide (u ∈ l.*1) then Some (sort_Strings (get_list acc u)) else acc !! u.
Proof.
  revert acc. induction l as [|[k x] l IH]; intros acc Hnd; cbn [foldl].
  { rewrite decide_False; [done|]. apply not_elem_of_nil. }
  cbn in Hnd. apply NoDup_cons in Hnd as [Hk Hnd]. rewrite IH by done. cbn.
  destruct (decide (u ∈ l.*1)) as [Hin|Hnin].
  - rewrite decide_True by (by right). rewrite get_list_insert.
    rewrite decide_False; [done|]. by intros ->.
  - destruct (decide (k = u)) as [->|Hne].
    + rewrite lookup_insert_eq, decide_True; [done|]. by left.
    + rewrite lookup_insert_ne by done. rewrite decide_False; [done|].
      rewrite not_elem_of_cons. split; [congruence|done].
Qed.

Lemma sortNeighbors_spec ρ (nl : gmap string (list string)) :
  sortNeighbors ρ nl = sort_Strings <$> nl.
Proof.
  apply map_eq. intros u. unfold sortNeighbors.
  rewrite foldl_sort_neighbors by apply NoDup_range_keys.
  rewrite lookup_fmap. case_decide as Hu.
  - apply elem_of_range_keys in Hu as [l Hl]. unfold get_list. by rewrite Hl.
  - destruct (nl !! u) eqn:Hl; [|done]. exfalso. apply Hu, elem_of_range_keys. eauto.
Qed.

Lemma get_list_sortNeighbors ρ nl u :
  get_list (sortNeighbors ρ nl) u ≡ₚ get_list nl u.
Proof.
  rewrite sortNeighbors_spec. unfold get_list. rewrite lookup_fmap.
  destruct (nl !! u); cbn; [|done]. apply merge_sort_Permutation.
Qed.

Lemma neighborList_order_irrelevant ρ1 ρ2 ρ1' ρ2' (tasks : gmap string Task) deg0 :
  sortNeighbors ρ2 (collectEdges ρ1 tasks deg0).1 =
  sortNeighbors ρ2' (collectEdges ρ1' tasks deg0).1.
Proof.
  destruct (collectEdges_Permutation ρ1 ρ1' tasks deg0) as (_ & Hdom & Hget).
  rewrite !sortNeighbors_spec. apply map_eq. intros u. rewrite !lookup_fmap.
  specialize (Hdom u). specialize (Hget u). unfold get_list in Hget.
  destruct ((collectEdges ρ1 tasks deg0).1 !! u) as [l|],
           ((collectEdges ρ1' tasks deg0).1 !! u) as [l'|]; cbn in *.
  - f_equal. by apply sort_Strings_Permutation.
  - by destruct Hdom as [[? [=]]%(λ H, H (mk_is_Some _ _ eq_refl)) _].
  - by destruct Hdom as [_ [? [=]]%(λ H, H (mk_is_Some _ _ eq_refl))].
  - done.
Qed.

(** ** The fourth loop: the initial queue *)

Lemma elem_of_initQueue ρ (deg : gmap string Z) x :
  x ∈ initQueue ρ deg ↔ deg !! x = Some 0%Z.
Proof.
  unfold initQueue. rewrite list_elem_of_fmap. split.
  - intros ([k z] & -> & [Hz Hin]%list_elem_of_filter). cbn in *. subst.
    by apply elem_of_range in Hin.
  - intros Hx. exists (x, 0%Z). split; [done|]. apply list_elem_of_filter.
    split; [done|]. by apply elem_of_range.
Qed.

Lemma NoDup_initQueue ρ (deg : gmap string Z) : NoDup (initQueue ρ deg).
Proof.
  unfold initQueue. apply (sublist_NoDup _ (range ρ deg).*1).
  - apply NoDup_range_keys.
  - apply fmap_sublist, sublist_filter.
Qed.

Lemma initQueue_Permutation ρ ρ' (deg : gmap string Z) :
  initQueue ρ deg ≡ₚ initQueue ρ' deg.
Proof.
  apply NoDup_Permutation; [apply NoDup_initQueue..|].
  intros x. by rewrite !elem_of_initQueue.
Qed.

(** ** The maps of a well-keyed graph *)

Lemma incoming_well_keyed (l : list (string * Task)) x :
  NoDup l.*1 → (∀ k t, (k, t) ∈ l → Name t = k) →
  (∀ t, (x, t) ∈ l → incoming l x = length (DependsOn t)) ∧
  (x ∉ l.*1 → incoming l x = 0%nat).
Proof.
  induction l as [|[k t0] l IH]; intros Hnd Hwk.
  { split; [by intros t ?%elem_of_nil|done]. }
  cbn in Hnd. apply NoDup_cons in Hnd as [Hk Hnd].
  destruct IH as [IH1 IH2]; [done|intros; apply Hwk; by right|].
  assert (Name t0 = k) as Hname by (apply Hwk; left).
  unfold incoming in *. cbn [sum_list_with snd]. rewrite Hname. split.
  - intros t [[= <- <-]|Hin]%elem_of_cons.
    + rewrite decide_True by done. rewrite IH2; [lia|done].
    + rewrite decide_False.
      * by rewrite (IH1 t Hin).
      * intros ->. apply Hk. apply list_elem_of_fmap. by exists (x, t).
  - cbn. rewrite not_elem_of_cons. intros [Hne Hnin].
    rewrite decide_False by congruence. by rewrite IH2.
Qed.

Lemma occ_edges_to (t : Task) u v :
  occ v (edges_to t u) = if decide (Name t = v) then occ u (DependsOn t) else 0%nat.
Proof.
  unfold edges_to. induction (DependsOn t) as [|dep deps IH]; cbn [mbind list_bind].
  { by case_decide. }
  rewrite occ_app, IH, occ_cons. repeat case_decide; subst; cbn;
    rewrite ?occ_cons, ?occ_nil; repeat case_decide; try done; lia.
Qed.

Lemma outgoing_well_keyed (l : list (string * Task)) u v :
  NoDup l.*1 → (∀ k t, (k, t) ∈ l → Name t = k) →
  (∀ t, (v, t) ∈ l → occ v (outgoing l u) = occ u (DependsOn t)) ∧
  (v ∉ l.*1 → occ v (outgoing l u) = 0%nat).
Proof.
  induction l as [|[k t0] l IH]; intros Hnd Hwk.
  { split; [by intros t ?%elem_of_nil|done]. }
  cbn in Hnd. apply NoDup_cons in Hnd as [Hk Hnd].
  destruct IH as [IH1 IH2]; [done|intros; apply Hwk; by right|].
  assert (Name t0 = k) as Hname by (apply Hwk; left).
  unfold outgoing in *. cbn [mbind list_bind snd].
  rewrite occ_app, occ_edges_to, Hname. split.
  - intros t [[= <- <-]|Hin]%elem_of_cons.
    + rewrite decide_True by done. rewrite IH2; [lia|done].
    + rewrite decide_False.
      * by rewrite (IH1 t Hin).
      * intros ->. apply Hk. apply list_elem_of_fmap. by exists (v, t).
  - cbn. rewrite not_elem_of_cons. intros [Hne Hnin].
    rewrite decide_False by congruence. by rewrite IH2.
Qed.

Section well_keyed_maps.
Context (d : DAG) (Hwk : well_keyed d).

Lemma range_well_keyed ρ k t : (k, t) ∈ range ρ (Tasks d) → Name t = k.
Proof. intros Hin%elem_of_range. by apply Hwk. Qed.

Lemma collectEdges_in_degrees ρ ρ' :
  (collectEdges ρ' (Tasks d) (initInDegree ρ (Tasks d))).2 = in_degrees d.
Proof.
  unfold collectEdges.
  destruct (collectEdges_fold (range ρ' (Tasks d)) (∅, initInDegree ρ (Tasks d)))
    as (_ & H2 & _ & H4).
  cbn [fst snd] in H2, H4. rewrite initInDegree_spec in *.
  apply map_eq_get_int.
  - intros x. rewrite H4. unfold in_degrees. rewrite !lookup_fmap, !fmap_is_Some.
    split; [|auto]. intros [?|([k t] & Hin & Hn & _)]; [done|].
    cbn in Hn. subst x. rewrite (range_well_keyed _ _ _ Hin).
    apply elem_of_range in Hin. eauto.
  - intros x. rewrite H2. unfold get_int, in_degrees. rewrite !lookup_fmap.
    destruct (incoming_well_keyed (range ρ' (Tasks d)) x) as [I1 I2];
      [apply NoDup_range_keys|apply range_well_keyed|].
    destruct (Tasks d !! x) as [t|] eqn:Ht; cbn.
    + rewrite (I1 t); [lia|]. by apply elem_of_range.
    + rewrite I2; [lia|]. rewrite elem_of_range_keys, Ht. by intros [? [=]].
Qed.

Lemma neighborList_well_keyed ρ0 ρ1 ρ2 u v :
  occ v (get_list (sortNeighbors ρ2
           (collectEdges ρ1 (Tasks d) (initInDegree ρ0 (Tasks d))).1) u) =
  from_option (λ t, occ u (DependsOn t)) 0%nat (Tasks d !! v).
Proof.
  rewrite get_list_sortNeighbors. unfold collectEdges.
  destruct (collectEdges_fold (range ρ1 (Tasks d)) (∅, initInDegree ρ0 (Tasks d)))
    as (H1 & _ & _ & _).
  rewrite H1. cbn [fst]. unfold get_list at 1. rewrite lookup_empty. cbn [default app].
  destruct (outgoing_well_keyed (range ρ1 (Tasks d)) u v) as [O1 O2];
    [apply NoDup_range_keys|apply range_well_keyed|].
  destruct (Tasks d !! v) as [t|] eqn:Ht; cbn.
  - apply O1. by apply elem_of_range.
  - apply O2. rewrite elem_of_range_keys, Ht. by intros [? [=]].
Qed.

End well_keyed_maps.

(** * The loop of Kahn's method *)

Lemma get_int_lookup (m : gmap string Z) k z : m !! k = Some z → get_int m k = z.
Proof. unfold get_int. by intros ->. Qed.

Lemma release_unfold (deg : gmap string Z) (Q : list string) x :
  release (deg, Q) x =
  (<[x := (get_int deg x - 1)%Z]> deg,
   if decide (get_int deg x - 1 = 0)%Z then Q ++ [x] else Q).
Proof.
  unfold release. cbn [fst snd]. rewrite get_int_insert.
  rewrite (decide_True (P := x = x)) by done. by case_decide.
Qed.

(** What the loop over the neighbours of one task does to the degrees and
    to the queue. *)
Lemma release_fold (L : list string) (deg : gmap string Z) (Q : list string) :
  let r := foldl release (deg, Q) L in
  (∀ v, r.1 !! v = if decide (occ v L = 0%nat) then deg !! v
                   else Some (get_int deg v - Z.of_nat (occ v L))%Z) ∧
  ∃ pushed, r.2 = Q ++ pushed ∧ NoDup pushed ∧
    ∀ v, v ∈ pushed ↔ (1 ≤ get_int deg v ≤ Z.of_nat (occ v L))%Z.
Proof.
  revert deg Q. induction L as [|x L IH]; intros deg Q; cbn zeta.
  { cbn. split; [done|]. exists []. rewrite app_nil_r. split; [done|].
    split; [constructor|]. intros v. rewrite elem_of_nil. unfold occ; cbn. lia. }
  cbn [foldl]. rewrite release_unfold.
  set (deg1 := <[x := (get_int deg x - 1)%Z]> deg).
  case_decide as Hz.
  - destruct (IH deg1 (Q ++ [x])) as [Hl (pushed & Hq & Hnd & Hin)].
    split.
    + intros v. rewrite Hl, occ_cons. unfold deg1.
      rewrite get_int_insert. destruct (decide (x = v)) as [->|Hne].
      * rewrite lookup_insert_eq. rewrite (decide_False (P := (1 + _)%nat = 0%nat)) by lia.
        case_decide; f_equal; lia.
      * rewrite lookup_insert_ne by done. cbn. done.
    + exists (x :: pushed). split; [by rewrite Hq, <-app_assoc|]. split.
      * apply NoDup_cons. split; [|done]. rewrite Hin. unfold deg1.
        rewrite get_int_insert, decide_True by done. lia.
      * intros v. rewrite elem_of_cons, Hin, occ_cons. unfold deg1.
        rewrite get_int_insert. destruct (decide (x = v)) as [->|Hne].
        -- split; [intros [_|?]; lia|]. intros ?. by left.
        -- split; [intros [?|?]; [congruence|lia]|]. intros ?. right. lia.
  - destruct (IH deg1 Q) as [Hl (pushed & Hq & Hnd & Hin)].
    split.
    + intros v. rewrite Hl, occ_cons. unfold deg1.
      rewrite get_int_insert. destruct (decide (x = v)) as [->|Hne].
      * rewrite lookup_insert_eq. rewrite (decide_False (P := (1 + _)%nat = 0%nat)) by lia.
        case_decide; f_equal; lia.
      * rewrite lookup_insert_ne by done. cbn. done.
    + exists pushed. split; [done|]. split; [done|].
      intros v. rewrite Hin, occ_cons. unfold deg1.
      rewrite get_int_insert. destruct (decide (x = v)) as [->|Hne]; lia.
Qed.

(** The names that one iteration adds to the queue are added behind it, in
    the order of the list of neighbours. *)
Lemma release_fold_sublist (L : list string) (deg : gmap string Z) (Q : list string) :
  ∃ pushed, (foldl release (deg, Q) L).2 = Q ++ pushed ∧ pushed `sublist_of` L.
Proof.
  revert deg Q. induction L as [|x L IH]; intros deg Q; cbn [foldl].
  { exists []. by rewrite app_nil_r. }
  rewrite release_unfold. case_decide.
  - destruct (IH (<[x := (get_int deg x - 1)%Z]> deg) (Q ++ [x])) as (pushed & -> & Hsub).
    exists (x :: pushed). split; [by rewrite <-app_assoc|]. by constructor.
  - destruct (IH (<[x := (get_int deg x - 1)%Z]> deg) Q) as (pushed & -> & Hsub).
    exists pushed. split; [done|]. by constructor.
Qed.

Lemma StronglySorted_sublist {A} (R : relation A) (l k : list A) :
  l `sublist_of` k → StronglySorted R k → StronglySorted R l.
Proof.
  induction 1 as [|x l k Hsub IH|x l k Hsub IH]; intros Hk; [done|..].
  - apply StronglySorted_inv in Hk as [Hk Hx]. constructor; [by apply IH|].
    apply Forall_forall. intros y Hy. eapply Forall_forall; [exact Hx|].
    by eapply elem_of_sublist.
  - apply StronglySorted_inv in Hk as [Hk _]. by apply IH.
Qed.

Lemma neighborList_sorted ρ d n : StronglySorted String.le (get_list (neighborList_of ρ d) n).
Proof.
  unfold neighborList_of. rewrite sortNeighbors_spec. unfold get_list.
  rewrite lookup_fmap. destruct (_ !! n); cbn; [|constructor].
  apply StronglySorted_merge_sort; apply _.
Qed.

(** ** The bound of the loop is never exhausted *)

Lemma positive_degrees_insert_fresh (deg : gmap string Z) x z :
  deg !! x = None →
  positive_degrees (<[x := z]> deg) = (Z.to_nat z + positive_degrees deg)%nat.
Proof.
  intros Hx. unfold positive_degrees. by rewrite map_to_list_insert.
Qed.

Lemma positive_degrees_delete (deg : gmap string Z) x :
  positive_degrees deg =
  (Z.to_nat (get_int deg x) + positive_degrees (delete x deg))%nat.
Proof.
  unfold get_int. destruct (deg !! x) as [y|] eqn:Hy; cbn.
  - rewrite <-(positive_degrees_insert_fresh (delete x deg) x y)
      by apply lookup_delete_eq.
    by rewrite insert_delete_id.
  - by rewrite delete_id.
Qed.

Lemma positive_degrees_insert (deg : gmap string Z) x z :
  (positive_degrees (<[x := z]> deg) + Z.to_nat (get_int deg x))%nat =
  (positive_degrees deg + Z.to_nat z)%nat.
Proof.
  rewrite (positive_degrees_delete deg x), <-(insert_delete_eq deg).
  rewrite positive_degrees_insert_fresh by apply lookup_delete_eq. lia.
Qed.

Lemma loop_bound_release deg Q x :
  (loop_bound (release (deg, Q) x).1 (release (deg, Q) x).2 ≤ loop_bound deg Q)%nat.
Proof.
  rewrite release_unfold. cbn [fst snd]. unfold loop_bound.
  pose proof (positive_degrees_insert deg x (get_int deg x - 1)%Z).
  case_decide; rewrite ?length_app; cbn; lia.
Qed.

Lemma loop_bound_release_fold L deg Q :
  (loop_bound (foldl release (deg, Q) L).1 (foldl release (deg, Q) L).2
   ≤ loop_bound deg Q)%nat.
Proof.
  revert deg Q. induction L as [|x L IH]; intros deg Q; cbn [foldl]; [done|].
  pose proof (loop_bound_release deg Q x).
  destruct (release (deg, Q) x) as [deg1 Q1]. cbn [fst snd] in *.
  specialize (IH deg1 Q1). lia.
Qed.

Lemma drain_bound_irrelevant b1 b2 tasks nl deg Q res :
  (loop_bound deg Q ≤ b1)%nat → (loop_bound deg Q ≤ b2)%nat →
  drain b1 tasks nl deg Q res = drain b2 tasks nl deg Q res.
Proof.
  revert b2 deg Q res. induction b1 as [|b1 IH]; intros b2 deg Q res H1 H2.
  - destruct Q; [by destruct b2|]. unfold loop_bound in H1. cbn in H1. lia.
  - destruct Q as [|n Q]; [by destruct b2|].
    destruct b2 as [|b2]; [unfold loop_bound in H2; cbn in H2; lia|].
    cbn [drain]. apply IH.
    + pose proof (loop_bound_release_fold (get_list nl n) deg Q).
      unfold loop_bound in *. cbn [length] in *. lia.
    + pose proof (loop_bound_release_fold (get_list nl n) deg Q).
      unfold loop_bound in *. cbn [length] in *. lia.
Qed.

Lemma drain_names_spec b tasks nl deg Q res :
  drain b tasks nl deg Q res = res ++ ((λ n, tasks !! n) <$> drain_names b nl deg Q).
Proof.
  revert deg Q res. induction b as [|b IH]; intros deg Q res.
  - cbn. destruct Q; by rewrite app_nil_r.
  - destruct Q as [|n Q]; cbn [drain drain_names]; [by rewrite app_nil_r|].
    rewrite IH, <-app_assoc. done.
Qed.

(** ** The invariant *)

Lemma pending_filter_snoc (P : list string) (n : string) (l : list string) :
  n ∉ P →
  length (filter (λ u, u ∉ P) l) =
  (length (filter (λ u, u ∉ P ++ [n]) l) + occ n l)%nat.
Proof.
  intros Hn. induction l as [|u l IH]; [done|].
  rewrite !filter_cons, occ_cons.
  destruct (decide (u = n)) as [->|Hne].
  - rewrite decide_True by done. rewrite decide_False.
    + cbn [length]. lia.
    + intros Hnin. apply Hnin, elem_of_app. right. by left.
  - destruct (decide (u ∉ P)) as [Hu|Hu].
    + rewrite decide_True; [cbn [length]; lia|].
      rewrite elem_of_app, list_elem_of_singleton. tauto.
    + rewrite decide_False; [cbn [length]; lia|].
      intros Hnin. apply Hu. intros ?. apply Hnin, elem_of_app. by left.
Qed.

Lemma pending_snoc tasks P n v :
  n ∉ P → pending tasks P v = (pending tasks (P ++ [n]) v + occ n (deps_of tasks v))%nat.
Proof. apply pending_filter_snoc. Qed.

Lemma pending_zero tasks P v u :
  pending tasks P v = 0%nat → u ∈ deps_of tasks v → u ∈ P.
Proof.
  unfold pending. intros H0 Hu.
  destruct (decide (u ∈ P)) as [|Hnin]; [done|].
  assert (u ∈ filter (λ u, u ∉ P) (deps_of tasks v)) as Hin
    by (by apply list_elem_of_filter).
  destruct (filter _ _); [by apply elem_of_nil in Hin|done].
Qed.

Lemma pending_positive tasks P v :
  pending tasks P v ≠ 0%nat → ∃ u, u ∈ deps_of tasks v ∧ u ∉ P.
Proof.
  unfold pending. intros H0.
  destruct (filter (λ u, u ∉ P) (deps_of tasks v)) as [|u l] eqn:Hf; [done|].
  exists u. assert (u ∈ filter (λ u, u ∉ P) (deps_of tasks v)) as Hin
    by (rewrite Hf; left).
  apply list_elem_of_filter in Hin. tauto.
Qed.

Section kahn.
Context (tasks : gmap string Task) (nl : gmap string (list string)).
Context (Hnl : ∀ u v, occ v (get_list nl u) =
                      from_option (λ t, occ u (DependsOn t)) 0%nat (tasks !! v)).

Lemma neighbors_occ u v : occ v (get_list nl u) = occ u (deps_of tasks v).
Proof.
  rewrite Hnl. unfold deps_of. by destruct (tasks !! v).
Qed.

Lemma neighbors_tasks u v : v ∈ get_list nl u → is_Some (tasks !! v).
Proof.
  intros Hin. destruct (tasks !! v) as [t|] eqn:Ht; [eauto|].
  exfalso. revert Hin. apply occ_zero. by rewrite Hnl, Ht.
Qed.

Lemma kahn_inv_step deg n Q P :
  kahn_inv tasks deg (n :: Q) P →
  kahn_inv tasks (foldl release (deg, Q) (get_list nl n)).1
                 (foldl release (deg, Q) (get_list nl n)).2 (P ++ [n]).
Proof.
  intros [Hnd Htasks Hdeg Hready Horder].
  destruct (release_fold (get_list nl n) deg Q) as [Hl (pushed & Hq & Hndp & Hin)].
  cbn zeta in Hl, Hq. rewrite Hq. clear Hq.
  assert (n ∉ P) as HnP.
  { apply NoDup_app in Hnd as (_ & Hdisj & _). intros HP. apply (Hdisj n HP). left. }
  assert (∀ v, is_Some (tasks !! v) → get_int deg v = Z.of_nat (pending tasks P v)) as Hget.
  { intros v [t Ht]. apply get_int_lookup. by rewrite Hdeg, Ht. }
  assert (∀ v, v ∈ pushed → is_Some (tasks !! v)) as Hpt.
  { intros v Hv%Hin. apply (neighbors_tasks n). apply dec_stable. rewrite <-occ_zero. lia. }
  assert (∀ v, v ∈ pushed → v ∉ P ++ n :: Q) as Hfresh.
  { intros v Hv Hold. pose proof (Hpt v Hv) as Hsome.
    apply Hready in Hold; [|done]. apply Hin in Hv. rewrite Hget in Hv by done. lia. }
  assert ((P ++ [n]) ++ Q ++ pushed = (P ++ n :: Q) ++ pushed) as Hassoc.
  { by rewrite <-!app_assoc. }
  constructor.
  - rewrite Hassoc. apply NoDup_app. split; [done|]. split; [|done].
    intros x Hx Hp. by apply (Hfresh x).
  - rewrite Hassoc. intros x [Hx|Hx]%elem_of_app; [by apply Htasks|by apply Hpt].
  - intros v. rewrite Hl, Hdeg. rewrite neighbors_occ.
    pose proof (pending_snoc tasks P n v HnP) as Hsnoc.
    destruct (tasks !! v) as [t|] eqn:Ht; cbn.
    + rewrite (Hget v) by (rewrite Ht; eauto). case_decide; f_equal; lia.
    + unfold deps_of. rewrite Ht. cbn. done.
  - intros v Hv. rewrite Hassoc, elem_of_app, Hready by done.
    rewrite Hin, (Hget v Hv), neighbors_occ.
    pose proof (pending_snoc tasks P n v HnP) as Hsnoc. lia.
  - intros i x u Hi Hu. apply lookup_app_Some in Hi as [Hi|[Hlen Hi]].
    + destruct (Horder i x u Hi Hu) as (j & Hj & HPj). exists j. split; [done|].
      by apply lookup_app_l_Some.
    + destruct (decide (i - length P = 0)%nat) as [H0|]; [|by destruct (i - length P)%nat].
      rewrite H0 in Hi. cbn in Hi. injection Hi as <-.
      assert (pending tasks P n = 0%nat) as Hp0.
      { apply Hready; [apply Htasks|]; apply elem_of_app; right; left. }
      pose proof (pending_zero tasks P n u Hp0 Hu) as HuP.
      apply list_elem_of_lookup in HuP as [j Hj]. exists j. split.
      * apply lookup_lt_Some in Hj. lia.
      * by apply lookup_app_l_Some.
Qed.

Lemma drain_names_inv b deg Q P :
  (loop_bound deg Q ≤ b)%nat → kahn_inv tasks deg Q P →
  ∃ deg', kahn_inv tasks deg' [] (P ++ drain_names b nl deg Q).
Proof.
  revert deg Q P. induction b as [|b IH]; intros deg Q P Hb Hinv.
  - destruct Q; [|unfold loop_bound in Hb; cbn in Hb; lia].
    exists deg. cbn. by rewrite app_nil_r.
  - destruct Q as [|n Q]; cbn [drain_names].
    { exists deg. by rewrite app_nil_r. }
    destruct (IH (foldl release (deg, Q) (get_list nl n)).1
                 (foldl release (deg, Q) (get_list nl n)).2 (P ++ [n]))
      as [deg' Hinv'].
    + pose proof (loop_bound_release_fold (get_list nl n) deg Q).
      unfold loop_bound in *. cbn [length] in *. lia.
    + by apply kahn_inv_step.
    + exists deg'. by rewrite <-app_assoc in Hinv'.
Qed.

(** When the queue is empty, the names taken are exactly the tasks all of
    whose dependencies were taken. *)
Lemma kahn_inv_final deg P :
  kahn_inv tasks deg [] P →
  NoDup P ∧ (∀ x, x ∈ P → is_Some (tasks !! x)) ∧
  (∀ v, is_Some (tasks !! v) → v ∉ P → ∃ u, u ∈ deps_of tasks v ∧ u ∉ P) ∧
  (∀ i x u, P !! i = Some x → u ∈ deps_of tasks x → ∃ j, (j < i)%nat ∧ P !! j = Some u).
Proof.
  intros [Hnd Htasks _ Hready Horder]. rewrite app_nil_r in *.
  split; [done|]. split; [done|]. split; [|done].
  intros v Hv HvP. apply pending_positive. intros H0. by apply HvP, Hready.
Qed.

End kahn.

(** * TopologicalSort on a well-keyed graph *)

Lemma TopologicalSort_emitted ρ d :
  TopologicalSort ρ d =
  if decide (length (emitted ρ d) ≠ size (Tasks d)) then Err ErrCycle
  else Ok ((λ n, Tasks d !! n) <$> emitted ρ d).
Proof.
  unfold TopologicalSort, emitted, neighborList_of. cbn zeta.
  rewrite drain_names_spec. cbn [app]. rewrite length_fmap. done.
Qed.

Lemma pending_nil tasks v : pending tasks [] v = length (deps_of tasks v).
Proof.
  unfold pending. induction (deps_of tasks v) as [|u l IH]; [done|].
  rewrite filter_cons, decide_True by apply not_elem_of_nil. cbn. by rewrite IH.
Qed.

Lemma fmap_omap_total {A B} (f : A → option B) (l : list A) :
  (∀ x, x ∈ l → is_Some (f x)) → f <$> l = Some <$> omap f l.
Proof.
  induction l as [|x l IH]; intros Hl; [done|]. cbn.
  destruct (Hl x) as [y Hy]; [left|]. rewrite Hy. cbn. f_equal.
  apply IH. intros z Hz. apply Hl. by right.
Qed.

Lemma omap_lookup_keys (tasks : gmap string Task) (l : list (string * Task)) :
  (∀ k t, (k, t) ∈ l → tasks !! k = Some t) →
  omap (λ n, tasks !! n) l.*1 = l.*2.
Proof.
  induction l as [|[k t] l IH]; intros Hl; [done|]. cbn.
  rewrite (Hl k t) by left. cbn. f_equal. apply IH. intros k' t' Hin. apply Hl. by right.
Qed.

Section topological_sort.
Context (d : DAG) (Hwk : well_keyed d).

Lemma deps_of_lookup v t : Tasks d !! v = Some t → deps_of (Tasks d) v = DependsOn t.
Proof. unfold deps_of. by intros ->. Qed.

Lemma kahn_inv_init ρ :
  kahn_inv (Tasks d) (in_degrees d) (initQueue ρ (in_degrees d)) [].
Proof.
  constructor; cbn [app].
  - apply NoDup_initQueue.
  - intros x Hx%elem_of_initQueue. unfold in_degrees in Hx.
    rewrite lookup_fmap in Hx. destruct (Tasks d !! x); [eauto|done].
  - intros v. unfold in_degrees. rewrite lookup_fmap, pending_nil.
    destruct (Tasks d !! v) as [t|] eqn:Ht; [|done]. cbn.
    by rewrite (deps_of_lookup v t).
  - intros v [t Ht]. rewrite elem_of_initQueue, pending_nil, (deps_of_lookup v t Ht).
    unfold in_degrees. rewrite lookup_fmap, Ht. cbn. split; [intros [=]|intros ->; f_equal]; lia.
  - intros i x u Hi. by rewrite lookup_nil in Hi.
Qed.

(** What is known of the names taken when the loop ends. *)
Lemma emitted_spec ρ :
  NoDup (emitted ρ d) ∧
  (∀ x, x ∈ emitted ρ d → is_Some (Tasks d !! x)) ∧
  (∀ v, is_Some (Tasks d !! v) → v ∉ emitted ρ d →
        ∃ u, u ∈ deps_of (Tasks d) v ∧ u ∉ emitted ρ d) ∧
  (∀ i x u, emitted ρ d !! i = Some x → u ∈ deps_of (Tasks d) x →
        ∃ j, (j < i)%nat ∧ emitted ρ d !! j = Some u).
Proof.
  unfold emitted, neighborList_of. cbn zeta. rewrite (collectEdges_in_degrees d Hwk).
  set (nl := sortNeighbors _ _).
  destruct (drain_names_inv (Tasks d) nl) with
    (b := loop_bound (in_degrees d) (initQueue (ρ 3) (in_degrees d)))
    (deg := in_degrees d) (Q := initQueue (ρ 3) (in_degrees d)) (P := @nil string)
    as [deg' Hinv].
  - intros u v. apply (neighborList_well_keyed d Hwk).
  - done.
  - apply kahn_inv_init.
  - cbn [app] in Hinv. by apply kahn_inv_final in Hinv.
Qed.

Lemma emitted_complete ρ :
  length (emitted ρ d) = size (Tasks d) →
  emitted ρ d ≡ₚ (map_to_list (Tasks d)).*1.
Proof.
  intros Hlen. destruct (emitted_spec ρ) as (Hnd & Htasks & _).
  apply submseteq_length_Permutation.
  - apply NoDup_submseteq; [done|]. intros x Hx%Htasks.
    destruct Hx as [t Ht]. apply list_elem_of_fmap. exists (x, t).
    split; [done|]. by apply elem_of_map_to_list.
  - rewrite length_fmap, length_map_to_list. lia.
Qed.

Lemma TopologicalSort_Ok ρ res :
  TopologicalSort ρ d = Ok res →
  ∃ order, res = Some <$> order ∧
           order ≡ₚ (map_to_list (Tasks d)).*2 ∧ deps_first order.
Proof.
  rewrite TopologicalSort_emitted. case_decide as Hlen; [done|]. intros [= <-].
  destruct (emitted_spec ρ) as (Hnd & Htasks & _ & Horder).
  pose proof (fmap_omap_total (λ n, Tasks d !! n) (emitted ρ d) Htasks) as Hres.
  exists (omap (λ n, Tasks d !! n) (emitted ρ d)). split; [done|]. split.
  - rewrite (emitted_complete ρ Hlen). rewrite omap_lookup_keys; [done|].
    intros k t. apply elem_of_map_to_list.
  - intros i t dep Hi Hdep.
    assert (∀ j t', omap (λ n, Tasks d !! n) (emitted ρ d) !! j = Some t' →
                    emitted ρ d !! j = Some (Name t') ∧ Tasks d !! Name t' = Some t') as Hback.
    { intros j t' Hj.
      assert (((λ n, Tasks d !! n) <$> emitted ρ d) !! j = Some (Some t')) as Hj'.
      { by rewrite Hres, list_lookup_fmap, Hj. }
      rewrite list_lookup_fmap in Hj'.
      destruct (emitted ρ d !! j) as [x|] eqn:Hx; [|done]. cbn in Hj'.
      injection Hj' as Hj'. by rewrite (Hwk _ _ Hj'). }
    destruct (Hback i t Hi) as [HPi Ht].
    destruct (Horder i (Name t) dep HPi) as (j & Hji & HPj).
    { by rewrite (deps_of_lookup _ _ Ht). }
    assert (((λ n, Tasks d !! n) <$> emitted ρ d) !! j = Some (Tasks d !! dep)) as Hj.
    { by rewrite list_lookup_fmap, HPj. }
    rewrite Hres, list_lookup_fmap in Hj.
    destruct (omap _ _ !! j) as [t'|] eqn:Ht'; [|done]. cbn in Hj.
    exists j, t'. split; [done|]. split; [done|].
    injection Hj as Hj. symmetry in Hj. by apply Hwk.
Qed.

Lemma TopologicalSort_Ok_acyclic ρ res :
  TopologicalSort ρ d = Ok res → acyclic d.
Proof.
  rewrite TopologicalSort_emitted. case_decide as Hlen; [done|]. intros _.
  destruct (emitted_spec ρ) as (Hnd & _ & _ & Horder).
  pose proof (emitted_complete ρ Hlen) as Hperm.
  assert (∀ v w, tc (depends_on d) v w →
            ∃ i j, emitted ρ d !! i = Some v ∧ emitted ρ d !! j = Some w ∧ (j < i)%nat)
    as Hindex.
  { assert (∀ v w, depends_on d v w →
      ∃ i j, emitted ρ d !! i = Some v ∧ emitted ρ d !! j = Some w ∧ (j < i)%nat) as Hstep.
    { intros v w (t & Ht & Hw).
      assert (v ∈ emitted ρ d) as [i Hi]%list_elem_of_lookup.
      { rewrite Hperm. apply list_elem_of_fmap. exists (v, t).
        split; [done|]. by apply elem_of_map_to_list. }
      destruct (Horder i v w Hi) as (j & Hji & Hj).
      { by rewrite (deps_of_lookup _ _ Ht). }
      eauto 6. }
    induction 1 as [v w Hvw|v w z Hvw _ (i' & j' & Hi' & Hj' & Hlt')].
    - by apply Hstep.
    - destruct (Hstep v w Hvw) as (i & j & Hi & Hj & Hlt).
      assert (j = i') as -> by (by eapply NoDup_lookup).
      exists i, j'. split; [done|]. split; [done|]. lia. }
  intros v Hcycle. destruct (Hindex v v Hcycle) as (i & j & Hi & Hj & Hlt).
  assert (i = j) by (by eapply NoDup_lookup). lia.
Qed.

Lemma tc_depends_on_finite v : pred_finite (tc (depends_on d) v).
Proof.
  exists ((map_to_list (Tasks d)).*2 ≫= DependsOn).
  assert (∀ x y, depends_on d x y → y ∈ (map_to_list (Tasks d)).*2 ≫= DependsOn) as Hstep.
  { intros x y (t & Ht & Hy). apply list_elem_of_bind. exists t. split; [done|].
    apply list_elem_of_fmap. exists (x, t). split; [done|]. by apply elem_of_map_to_list. }
  intros w Hw. induction Hw; eauto.
Qed.

Lemma TopologicalSort_Err_cyclic ρ e :
  deps_closed d → TopologicalSort ρ d = Err e → ¬ acyclic d.
Proof.
  intros Hclosed. rewrite TopologicalSort_emitted. case_decide as Hlen; [|done].
  intros _ Hacyclic.
  destruct (emitted_spec ρ) as (Hnd & Htasks & Hstuck & _).
  assert (∀ v, sn (depends_on d) v → is_Some (Tasks d !! v) → v ∈ emitted ρ d) as Hall.
  { intros v Hsn. induction Hsn as [v _ IH]. intros Hv.
    apply dec_stable. intros HvP.
    destruct (Hstuck v Hv HvP) as (u & Hu & HuP). apply HuP.
    destruct Hv as [t Ht]. rewrite (deps_of_lookup _ _ Ht) in Hu.
    assert (depends_on d v u) as Hdep by (exists t; done).
    apply IH; [done|]. by eapply Hclosed. }
  apply Hlen. apply Nat.le_antisymm.
  - rewrite <-length_map_to_list, <-(length_fmap fst).
    apply submseteq_length, NoDup_submseteq; [done|].
    intros x [t Ht]%Htasks. apply list_elem_of_fmap. exists (x, t).
    split; [done|]. by apply elem_of_map_to_list.
  - rewrite <-length_map_to_list, <-(length_fmap fst).
    apply submseteq_length, NoDup_submseteq; [apply NoDup_fst_map_to_list|].
    intros x ([k t] & -> & Hin%elem_of_map_to_list)%list_elem_of_fmap. cbn.
    apply Hall; [|eauto].
    apply tc_finite_sn; [exact Hacyclic|apply tc_depends_on_finite].
Qed.

End topological_sort.

(** * What Validate checks *)

Lemma validateTasks_None tasks seen entries :
  validateTasks tasks seen entries = None →
  ∀ k t, (k, t) ∈ entries →
    taskNamePattern_MatchString k = true ∧ Cmd t ≠ "" ∧
    ∀ dep, dep ∈ DependsOn t → is_Some (tasks !! dep).
Proof.
  revert seen. induction entries as [|[k0 t0] entries IH]; intros seen Hv k t Hin.
  { by apply elem_of_nil in Hin. }
  cbn [validateTasks] in Hv.
  destruct (decide (k0 ∈ seen)); [done|].
  destruct (taskNamePattern_MatchString k0) eqn:Hname; [|done]. cbn in Hv.
  destruct (decide (Cmd t0 = "")) as [|Hcmd]; [done|].
  destruct (List.find _ _) eqn:Hfind; [done|].
  apply elem_of_cons in Hin as [[= -> ->]|Hin]; [|by eapply IH].
  split; [done|]. split; [done|]. intros dep Hdep.
  apply list_elem_of_In in Hdep.
  pose proof (List.find_none _ _ Hfind dep Hdep) as Hnone. cbn in Hnone.
  apply bool_decide_eq_false in Hnone. by apply not_eq_None_Some.
Qed.

Lemma Validate_None ρ d :
  Validate ρ d = None →
  DName d ≠ "" ∧ size (Tasks d) ≠ 0%nat ∧ deps_closed d ∧
  (∀ k t, Tasks d !! k = Some t → taskNamePattern_MatchString k = true ∧ Cmd t ≠ "") ∧
  ∃ res, TopologicalSort (later ρ) d = Ok res.
Proof.
  unfold Validate. case_decide as Hname; [done|]. case_decide as Hsize; [done|].
  destruct (validateTasks _ _ _) eqn:Hv; [done|].
  destruct (TopologicalSort _ _) as [res|] eqn:Hs; [|done]. intros _.
  pose proof (validateTasks_None _ _ _ Hv) as Hall.
  split; [done|]. split; [done|]. split; [|split; [|eauto]].
  - intros v u (t & Ht & Hu). rewrite <-(elem_of_range (ρ 0)) in Ht.
    destruct (Hall v t Ht) as (_ & _ & Hdeps). by apply Hdeps.
  - intros k t Ht. rewrite <-(elem_of_range (ρ 0)) in Ht.
    destruct (Hall k t Ht) as (? & ? & _). done.
Qed.

(** A graph that [Validate] accepts under one iteration order is sorted
    under every iteration order. *)
Lemma TopologicalSort_valid ρ ρ' d :
  well_keyed d → Validate ρ' d = None →
  ∃ order : list Task,
    TopologicalSort ρ d = Ok (Some <$> order) ∧
    order ≡ₚ (map_to_list (Tasks d)).*2 ∧
    deps_first order.
Proof.
  intros Hwk (_ & _ & Hclosed & _ & res' & Hres')%Validate_None.
  pose proof (TopologicalSort_Ok_acyclic d Hwk _ _ Hres') as Hacyclic.
  destruct (TopologicalSort ρ d) as [res|e] eqn:Hres.
  - destruct (TopologicalSort_Ok d Hwk ρ res Hres) as (order & -> & Hperm & Hfirst).
    eauto.
  - by destruct (TopologicalSort_Err_cyclic d Hwk ρ e Hclosed Hres).
Qed.

(** * C1 *)

(** C1.  On a graph whose tasks are stored under their names: if [Validate]
    accepts the graph (under any iteration order), [TopologicalSort] (under
    any iteration order) returns a sequence that is a permutation of the
    tasks of the graph and in which every dependency of a task stands before
    the task; and on a graph whose dependencies all name tasks of the graph,
    [TopologicalSort] returns the cycle error exactly when the dependency
    relation is not acyclic. *)
Theorem TopologicalSort_correct :
  ∀ (ρ : nat → RangeOrder) (d : DAG),
    well_keyed d →
    (∀ ρ' : nat → RangeOrder, Validate ρ' d = None →
       ∃ order : list Task,
         TopologicalSort ρ d = Ok (Some <$> order) ∧
         order ≡ₚ (map_to_list (Tasks d)).*2 ∧
         deps_first order) ∧
    (deps_closed d → (TopologicalSort ρ d = Err ErrCycle ↔ ¬ acyclic d)).
Proof.
  intros ρ d Hwk. split.
  - intros ρ' (_ & _ & Hclosed & _ & res' & Hres')%Validate_None.
    pose proof (TopologicalSort_Ok_acyclic d Hwk _ _ Hres') as Hacyclic.
    destruct (TopologicalSort ρ d) as [res|e] eqn:Hres.
    + destruct (TopologicalSort_Ok d Hwk ρ res Hres) as (order & -> & Hperm & Hfirst).
      eauto.
    + by destruct (TopologicalSort_Err_cyclic d Hwk ρ e Hclosed Hres).
  - intros Hclosed. split.
    + intros Herr. by eapply TopologicalSort_Err_cyclic.
    + intros Hcyc. destruct (TopologicalSort ρ d) as [res|e] eqn:Hres.
      * destruct Hcyc. by eapply TopologicalSort_Ok_acyclic.
      * by apply TopologicalSort_error in Hres as ->.
Qed.

Lemma TopologicalSort_correct_witness :
  ∃ order : list Task,
    TopologicalSort (λ _, descending) diamond = Ok (Some <$> order) ∧
    order ≡ₚ (map_to_list (Tasks diamond)).*2 ∧
    deps_first order.
Proof.
  destruct (TopologicalSort_correct (λ _, descending) diamond
              (graph_of_well_keyed _ _)) as [Hsorted _].
  apply (Hsorted (λ _, ascending)). vm_compute. reflexivity.
Defined.

(** The equivalence of C1 needs the dependencies to name tasks of the
    graph: a dependency on a task that the graph does not have is never
    released, and the sort reports a cycle where there is none.  [Validate]
    rejects such a graph before it sorts. *)
Lemma depends_on_dangling v u : depends_on dangling v u → v = "a" ∧ u = "ghost".
Proof.
  intros (t & Ht & Hu). unfold dangling, graph_of in Ht. cbn in Ht.
  apply lookup_insert_Some in Ht as [[<- <-]|[_ Ht]]; [|by rewrite lookup_empty in Ht].
  split; [done|]. cbn in Hu. set_solver.
Qed.

Remark dangling_reported_as_cycle :
  acyclic dangling ∧
  TopologicalSort (λ _, ascending) dangling = Err ErrCycle ∧
  Validate (λ _, ascending) dangling = Some (ErrMissingDependency "a" "ghost").
Proof.
  split; [|split; vm_compute; reflexivity].
  intros v Hv. inversion Hv as [? ? Hstep|? y ? Hstep Hrest]; subst.
  - apply depends_on_dangling in Hstep as [-> [=]].
  - apply depends_on_dangling in Hstep as [-> ->].
    inversion Hrest as [? ? Hstep|? y ? Hstep _]; subst;
      by apply depends_on_dangling in Hstep as [[=] _].
Qed.

(** * C2 *)

Lemma TopologicalSort_queue ρ ρ' d :
  well_keyed d →
  initQueue (ρ 3) (in_degrees d) = initQueue (ρ' 3) (in_degrees d) →
  TopologicalSort ρ d = TopologicalSort ρ' d.
Proof.
  intros Hwk Hq. unfold TopologicalSort. cbn zeta.
  rewrite !(collectEdges_in_degrees d Hwk), Hq.
  rewrite (neighborList_order_irrelevant (ρ 1) (ρ 2) (ρ' 1) (ρ' 2)).
  by rewrite !initInDegree_spec.
Qed.

Lemma initQueue_one_root ρ ρ' d :
  at_most_one_root d →
  initQueue ρ (in_degrees d) = initQueue ρ' (in_degrees d).
Proof.
  intros Hone.
  assert (∀ x y, x ∈ initQueue ρ (in_degrees d) → y ∈ initQueue ρ (in_degrees d) → x = y)
    as Hsame.
  { intros x y Hx%elem_of_initQueue Hy%elem_of_initQueue.
    unfold in_degrees in Hx, Hy. rewrite lookup_fmap in Hx, Hy.
    destruct (Tasks d !! x) as [tx|] eqn:Htx; [|done].
    destruct (Tasks d !! y) as [ty|] eqn:Hty; [|done].
    cbn in Hx, Hy. apply (Hone x y tx ty); try done.
    - apply length_zero_iff_nil. injection Hx. lia.
    - apply length_zero_iff_nil. injection Hy. lia. }
  pose proof (initQueue_Permutation ρ ρ' (in_degrees d)) as Hperm.
  pose proof (NoDup_initQueue ρ (in_degrees d)) as Hnd.
  destruct (initQueue ρ (in_degrees d)) as [|x [|y l]].
  - by apply Permutation_nil in Hperm.
  - by apply Permutation_singleton_l in Hperm.
  - exfalso. apply NoDup_cons in Hnd as [Hx _]. apply Hx.
    rewrite (Hsame x y); [left|left|right; left].
Qed.

(** C2 (as amended).  [TopologicalSort] is Kahn's method with a first-in
    first-out queue and lists of neighbours sorted by name.  (1) On a graph
    whose tasks are stored under their names, the iteration orders of the
    maps reach the result only through the order in which the tasks without
    dependencies enter the initial queue: two iteration orders that agree on
    this initial queue give the same result, as do any two iteration orders
    on a graph with at most one task without dependencies.  (2) The tasks that
    the emission of a task makes ready enter the queue behind the tasks that
    wait there, in ascending order of name.  (3) The graph [a]; [b] on [a];
    [c] on [a]; [d] on [b] and [c] is sorted as [a; b; c; d] under every
    iteration order. *)
Theorem TopologicalSort_fifo_order :
  (∀ (ρ ρ' : nat → RangeOrder) (d : DAG),
      well_keyed d →
      initQueue (ρ 3) (in_degrees d) = initQueue (ρ' 3) (in_degrees d)
        ∨ at_most_one_root d →
      TopologicalSort ρ d = TopologicalSort ρ' d) ∧
  (∀ (ρ : nat → RangeOrder) (d : DAG) (inDegree : gmap string Z)
     (queue : list string) (n : string),
      ∃ ready : list string,
        (foldl release (inDegree, queue) (get_list (neighborList_of ρ d) n)).2 =
          queue ++ ready ∧
        StronglySorted String.le ready) ∧
  (∀ ρ : nat → RangeOrder,
      task_names (TopologicalSort ρ diamond) =
      Ok [Some "a"; Some "b"; Some "c"; Some "d"]).
Proof.
  assert (∀ (ρ ρ' : nat → RangeOrder) (d : DAG),
      well_keyed d →
      initQueue (ρ 3) (in_degrees d) = initQueue (ρ' 3) (in_degrees d)
        ∨ at_most_one_root d →
      TopologicalSort ρ d = TopologicalSort ρ' d) as Hfifo.
  { intros ρ ρ' d Hwk [Hq|Hone]; apply TopologicalSort_queue; try done.
    by apply initQueue_one_root. }
  split; [done|]. split.
  { intros ρ d deg Q n.
    destruct (release_fold_sublist (get_list (neighborList_of ρ d) n) deg Q)
      as (ready & Hq & Hsub).
    exists ready. split; [done|].
    eapply StronglySorted_sublist; [done|]. apply neighborList_sorted. }
  intros ρ.
  rewrite (Hfifo ρ (λ _, ascending) diamond (graph_of_well_keyed _ _)).
  - vm_compute. reflexivity.
  - right. intros k k' t t' Hk Hk' Ht Ht'.
    destruct (graph_of_lookup "complex"
      [task "a" "echo a" [] 0; task "b" "echo b" ["a"] 0;
       task "c" "echo c" ["a"] 0; task "d" "echo d" ["b"; "c"] 0] k)
      as [[Hnone _]|(t0 & Hsome & Hin & <-)];
      [apply (bool_decide_unpack _); vm_compute; reflexivity| |].
    { unfold diamond in Hk. congruence. }
    destruct (graph_of_lookup "complex"
      [task "a" "echo a" [] 0; task "b" "echo b" ["a"] 0;
       task "c" "echo c" ["a"] 0; task "d" "echo d" ["b"; "c"] 0] k')
      as [[Hnone _]|(t0' & Hsome' & Hin' & <-)];
      [apply (bool_decide_unpack _); vm_compute; reflexivity| |].
    { unfold diamond in Hk'. congruence. }
    unfold diamond in Hk, Hk'. rewrite Hsome in Hk. rewrite Hsome' in Hk'.
    injection Hk as ->. injection Hk' as ->.
    set_unfold in Hin. set_unfold in Hin'.
    destruct Hin as [->|[->|[->|[->|[]]]]]; try done;
      destruct Hin' as [->|[->|[->|[->|[]]]]]; done.
Qed.

Lemma TopologicalSort_fifo_order_witness :
  TopologicalSort (λ _, ascending) two_roots =
  TopologicalSort (λ k, if decide (k = 3)%nat then ascending else descending) two_roots.
Proof.
  apply (proj1 TopologicalSort_fifo_order).
  - apply graph_of_well_keyed.
  - left. reflexivity.
Defined.

(** C2 as stated does not hold.  On the graph with the tasks [a], [c] and
    [b] on [a], visited in ascending order, [a] is emitted, then [c] although
    [b] is ready and smaller: the order of the code differs from the order
    that always takes the least ready name; and visiting the same graph in
    descending order gives another ordering. *)
Lemma lexicographic_tie_break_fails :
  task_names (TopologicalSort (λ _, ascending) two_roots) =
    Ok [Some "a"; Some "c"; Some "b"] ∧
  lexicographic_order two_roots = ["a"; "b"; "c"] ∧
  task_names (TopologicalSort (λ _, descending) two_roots) =
    Ok [Some "c"; Some "a"; Some "b"].
Proof. split; [|split]; vm_compute; reflexivity. Qed.

(** * The executor *)

(** ** The primitive operations *)

Ltac simpl_world :=
  cbn [tick with_workflow_runs with_task_runs with_process with_log_file
       clock workflow_runs task_runs task_seq processes log_files fst snd] in *.

Lemma bind_Ok {A B} (m : M A) (f : A → M B) w a w' :
  m w = (Ok a, w') → bind m f w = f a w'.
Proof. unfold bind. by intros ->. Qed.

Lemma bind_Err {A B} (m : M A) (f : A → M B) w e w' :
  m w = (Err e, w') → bind m f w = (Err e, w').
Proof. unfold bind. by intros ->. Qed.

Lemma ctx_Done_mono env k k' : (k ≤ k')%nat → ctx_Done env k = true → ctx_Done env k' = true.
Proof.
  unfold ctx_Done. destruct (cancel_at env) as [c|]; [|done].
  intros Hk Hc%bool_decide_eq_true. apply bool_decide_eq_true. lia.
Qed.

Lemma same_state_refl w : same_state w w.
Proof. by repeat split. Qed.

Lemma same_state_tick w : same_state w (tick w).
Proof. by repeat split. Qed.

Lemma same_state_trans w1 w2 w3 : same_state w1 w2 → same_state w2 w3 → same_state w1 w3.
Proof.
  intros (?&?&?&?&?) (?&?&?&?&?). repeat split; congruence.
Qed.

Lemma Update_effect env r w :
  clock (Update env r w).2 = S (clock w) ∧
  task_runs (Update env r w).2 = task_runs w ∧
  task_seq (Update env r w).2 = task_seq w ∧
  processes (Update env r w).2 = processes w ∧
  log_files (Update env r w).2 = log_files w ∧
  workflow_runs (Update env r w).2 =
    if store_fault env OpUpdate (clock w) then workflow_runs w
    else update_run r <$> workflow_runs w.
Proof. unfold Update. by destruct (store_fault _ _ _). Qed.

Lemma UpdateTaskRun_effect env tr w :
  clock (UpdateTaskRun env tr w).2 = S (clock w) ∧
  workflow_runs (UpdateTaskRun env tr w).2 = workflow_runs w ∧
  task_seq (UpdateTaskRun env tr w).2 = task_seq w ∧
  processes (UpdateTaskRun env tr w).2 = processes w ∧
  log_files (UpdateTaskRun env tr w).2 = log_files w ∧
  task_runs (UpdateTaskRun env tr w).2 =
    if store_fault env OpUpdateTaskRun (clock w) then task_runs w
    else update_task tr <$> task_runs w.
Proof. unfold UpdateTaskRun. by destruct (store_fault _ _ _). Qed.

Lemma UpdateTaskRun_ok env tr w :
  store_fault env OpUpdateTaskRun (clock w) = false →
  UpdateTaskRun env tr w =
  (Ok tt, with_task_runs (update_task tr <$> task_runs w) (task_seq w) (tick w)).
Proof. unfold UpdateTaskRun. by intros ->. Qed.

Lemma Update_ok env r w :
  store_fault env OpUpdate (clock w) = false →
  Update env r w = (Ok tt, with_workflow_runs (update_run r <$> workflow_runs w) (tick w)).
Proof. unfold Update. by intros ->. Qed.

Lemma SaveTaskRun_ok env tr w :
  store_fault env OpSaveTaskRun (clock w) = false →
  SaveTaskRun env tr w =
  (Ok (tr_set_ID (task_seq w + 1) tr),
   with_task_runs (task_runs w ++ [tr_set_ID (task_seq w + 1) tr]) (task_seq w + 1) (tick w)).
Proof. unfold SaveTaskRun. by intros ->. Qed.

Lemma MkdirAll_ok env dir w :
  mkdir_fault env (clock w) = false → MkdirAll env dir w = (Ok tt, tick w).
Proof. unfold MkdirAll. by intros ->. Qed.

Lemma checkCancelled_fired env wr w :
  ctx_Done env (clock w) = true →
  checkCancelled env wr w =
  (Err ErrCancelled, (Update env (wr_finish StatusFailed (clock w) wr) w).2).
Proof.
  intros Hc. unfold checkCancelled, bind, ctx_done, time_Now, ignore, fail. by rewrite Hc.
Qed.

Lemma checkCancelled_quiet env wr w :
  ctx_Done env (clock w) = false → checkCancelled env wr w = (Ok tt, w).
Proof.
  intros Hc. unfold checkCancelled, bind, ctx_done, ret. by rewrite Hc.
Qed.

(** ** C6 *)

Section commands.
Context `{!Externals}.

(** C6.  When the run store opens and the stored run is read, and the
    status of the run is pending, running or success (anything but failed),
    [resume] returns the not-resumable error; no process is spawned and
    nothing in the store or in the log files changes. *)
Theorem resume_refuses :
  ∀ (ρ : nat → RangeOrder) (env : Env) (runID : string) (w : World) (r : WorkflowRun),
    store_fault env OpNewStore (clock w) = false →
    store_fault env OpLoad (S (clock w)) = false →
    run_row w runID = Some r →
    wr_Status r ≠ StatusFailed →
    ∃ w', resumeCmd ρ env runID w = (Err (ErrNotResumable runID (wr_Status r)), w') ∧
          same_state w w'.
Proof.
  intros ρ env runID w r Hopen Hload Hrow Hstatus.
  exists (tick (tick w)). split; [|by repeat split].
  unfold resumeCmd, NewStore, Store_Load, run_row in *. rewrite Hopen.
  simpl_world. rewrite Hload, Hrow. by rewrite decide_True.
Qed.

End commands.

(** ** C7 *)

Lemma update_run_fresh (run : WorkflowRun) (rows : list WorkflowRun) :
  wr_ID run ∉ wr_ID <$> rows → update_run run <$> rows = rows.
Proof.
  induction rows as [|r rows IH]; [done|]. cbn.
  rewrite not_elem_of_cons. intros [Hne Hnin]. rewrite IH by done.
  unfold update_run. rewrite decide_False by congruence. done.
Qed.

Lemma GetTaskRun_world env runID name w : (GetTaskRun env runID name w).2 = tick w.
Proof.
  unfold GetTaskRun. destruct (store_fault _ _ _); [done|]. by destruct (List.find _ _).
Qed.

(** With the token fired, the loop of [Run] stops at its first task. *)
Lemma runTasks_cancelled env workflow wr order w :
  ctx_Done env (clock w) = true →
  task_runs (runTasks env workflow wr order w).2 = task_runs w ∧
  processes (runTasks env workflow wr order w).2 = processes w ∧
  (∀ t rest, order = Some t :: rest →
     runTasks env workflow wr order w =
     (Err ErrCancelled, (Update env (wr_finish StatusFailed (clock w) wr) w).2)).
Proof.
  intros Hc. destruct order as [|[t|] rest]; cbn [runTasks runTask].
  - by repeat split.
  - rewrite (bind_Err _ _ w ErrCancelled
               (Update env (wr_finish StatusFailed (clock w) wr) w).2).
    + destruct (Update_effect env (wr_finish StatusFailed (clock w) wr) w)
        as (_ & Htr & _ & Hp & _).
      split; [done|]. split; [done|]. by intros t' rest' [= <- <-].
    + apply bind_Err. by apply checkCancelled_fired.
  - unfold bind, fail. by repeat split.
Qed.

(** With the token fired, the loop of [Resume] skips the successful tasks
    and stops at the first other task. *)
Lemma resumeTask_cancelled env workflow wr t w :
  ctx_Done env (clock w) = true →
  resumeTask env workflow wr t w = (Ok tt, tick w) ∨
  ∃ e w', resumeTask env workflow wr t w = (Err e, w') ∧
          task_runs w' = task_runs w ∧ processes w' = processes w.
Proof.
  intros Hc. destruct t as [t|]; cbn [resumeTask]; [|right; by eexists _, _].
  pose proof (GetTaskRun_world env (wr_ID wr) (Name t) w) as Hw.
  assert (ctx_Done env (clock (tick w)) = true) as Hc'
    by (eapply ctx_Done_mono; [|done]; cbn; lia).
  destruct (Update_effect env (wr_finish StatusFailed (clock (tick w)) wr) (tick w))
    as (_ & Htr & _ & Hp & _).
  assert (∀ (m : M unit),
    bind (checkCancelled env wr) (λ _, m) (tick w) =
    (Err ErrCancelled,
     (Update env (wr_finish StatusFailed (clock (tick w)) wr) (tick w)).2)) as Hstop.
  { intros m. apply bind_Err. by apply checkCancelled_fired. }
  destruct (GetTaskRun env (wr_ID wr) (Name t) w) as [[tr|e] w1]; cbn in Hw; subst w1.
  - case_decide; [by left|]. right. rewrite Hstop. by eexists _, _.
  - right. destruct e; rewrite ?Hstop; by eexists _, _.
Qed.

Lemma resumeTasks_cancelled env workflow wr order w :
  ctx_Done env (clock w) = true →
  task_runs (resumeTasks env workflow wr order w).2 = task_runs w ∧
  processes (resumeTasks env workflow wr order w).2 = processes w.
Proof.
  revert w. induction order as [|t rest IH]; intros w Hc; cbn [resumeTasks]; [done|].
  destruct (resumeTask_cancelled env workflow wr t w Hc)
    as [Hskip|(e & w' & Hstop & Htr & Hp)].
  - rewrite (bind_Ok _ _ _ _ _ Hskip). apply (IH (tick w)).
    eapply ctx_Done_mono; [|done]. cbn. lia.
  - by rewrite (bind_Err _ _ _ _ _ Hstop).
Qed.

Section cancellation.
Context `{!Externals}.

(** C7.  (1) If the token has fired by the time [Run], called on a graph
    that [Validate] accepts, comes to its first task, and the store works,
    [Run] returns the cancellation error, the run row it inserted is
    persisted with status failed and an end time, no task row is created and
    no process is spawned.  (2) Whenever the token has fired, the loop of
    [Run] returns the cancellation error at its first task, creates no task
    row and spawns no process.  (3) Whenever the token has fired, the loop of
    [Resume] creates no task row and spawns no process. *)
Theorem cancellation_before_tasks :
  (∀ (ρ ρ' : nat → RangeOrder) (env : Env) (d : DAG) (w : World) (hash : string),
      well_keyed d →
      Validate ρ' d = None →
      ComputeHash ρ d = Ok hash →
      healthy env →
      uuid_New env (clock w) ∉ wr_ID <$> workflow_runs w →
      ctx_Done env (S (clock w)) = true →
      ∃ (run : WorkflowRun) (w' : World),
        Run ρ env d w = (Err ErrCancelled, w') ∧
        workflow_runs w' = workflow_runs w ++ [run] ∧
        wr_Workflow run = DName d ∧
        wr_Status run = StatusFailed ∧
        is_Some (wr_EndedAt run) ∧
        task_runs w' = task_runs w ∧
        processes w' = processes w) ∧
  (∀ (env : Env) (workflow : string) (wr : WorkflowRun) (t : Task)
     (rest : list (option Task)) (w : World),
      ctx_Done env (clock w) = true →
      ∃ w', runTasks env workflow wr (Some t :: rest) w = (Err ErrCancelled, w') ∧
            task_runs w' = task_runs w ∧ processes w' = processes w) ∧
  (∀ (env : Env) (workflow : string) (wr : WorkflowRun)
     (order : list (option Task)) (w : World),
      ctx_Done env (clock w) = true →
      task_runs (resumeTasks env workflow wr order w).2 = task_runs w ∧
      processes (resumeTasks env workflow wr order w).2 = processes w).
Proof.
  split; [|split].
  - intros ρ ρ' env d w hash Hwk Hvalid Hhash [Hstore Hmkdir] Hfresh Hc.
    destruct (TopologicalSort_valid (later ρ) ρ' d Hwk Hvalid)
      as (order & Horder & Hperm & _).
    destruct order as [|t order].
    { apply Validate_None in Hvalid as (_ & Hsize & _).
      apply Permutation_nil in Hperm. apply fmap_nil_inv in Hperm.
      rewrite <-length_map_to_list, Hperm in Hsize. done. }
    unfold Run, bind at 1 2, lift. rewrite Hhash. unfold NewWorkflowRun.
    rewrite Hstore, bool_decide_eq_false_2 by done. cbn [orb]. rewrite Horder.
    unfold bind at 1.
    set (run := {| wr_ID := uuid_New env (clock w); wr_Workflow := DName d;
                   wr_WorkflowHash := hash; wr_Status := StatusRunning;
                   wr_StartedAt := clock w; wr_EndedAt := None; wr_ExitCode := None;
                   wr_Meta := None; wr_CreatedAt := clock w |}).
    set (w1 := with_workflow_runs (workflow_runs w ++ [run]) (tick w)).
    assert (ctx_Done env (clock w1) = true) as Hc1 by done.
    destruct (runTasks_cancelled env (DName d) run (Some <$> (t :: order)) w1 Hc1)
      as (Htr & Hp & Hres).
    rewrite (Hres t (Some <$> order)) in * by done.
    destruct (Update_effect env (wr_finish StatusFailed (clock w1) run) w1)
      as (_ & _ & _ & _ & _ & Hruns).
    rewrite Hstore in Hruns.
    exists (wr_finish StatusFailed (clock w1) run), (Update env (wr_finish StatusFailed (clock w1) run) w1).2.
    split; [done|]. split; [|by repeat split; eauto].
    rewrite Hruns. subst w1. simpl_world. rewrite fmap_app. cbn [fmap list_fmap].
    rewrite update_run_fresh by done. unfold update_run. rewrite decide_True by done.
    done.
  - intros env workflow wr t rest w Hc.
    destruct (runTasks_cancelled env workflow wr (Some t :: rest) w Hc) as (Htr & Hp & Hres).
    rewrite (Hres t rest) in * by done. eauto.
  - intros env workflow wr order w Hc. by apply resumeTasks_cancelled.
Qed.

End cancellation.

Lemma resume_refuses_witness :
  ∃ w', resumeCmd (λ _, ascending) quiet "run-0"
          (with_workflow_runs [first_run] empty_world)
        = (Err (ErrNotResumable "run-0" (wr_Status first_run)), w') ∧
        same_state (with_workflow_runs [first_run] empty_world) w'.
Proof.
  apply (resume_refuses (λ _, ascending) quiet "run-0"
           (with_workflow_runs [first_run] empty_world) first_run);
    [reflexivity|reflexivity|reflexivity|discriminate].
Defined.

Lemma healthy_quiet : healthy quiet.
Proof. by split. Qed.

Lemma cancellation_before_tasks_witness :
  ∃ (run : WorkflowRun) (w' : World),
    Run (λ _, ascending) cancelled diamond empty_world = (Err ErrCancelled, w') ∧
    workflow_runs w' = workflow_runs empty_world ++ [run] ∧
    wr_Workflow run = DName diamond ∧
    wr_Status run = StatusFailed ∧
    is_Some (wr_EndedAt run) ∧
    task_runs w' = task_runs empty_world ∧
    processes w' = processes empty_world.
Proof.
  apply (proj1 cancellation_before_tasks (λ _, ascending) (λ _, descending)
           cancelled diamond empty_world "e3b0c442").
  - apply graph_of_well_keyed.
  - vm_compute. reflexivity.
  - reflexivity.
  - by split.
  - cbn. apply not_elem_of_nil.
  - reflexivity.
Defined.

(** ** The bound of the attempt loop *)

Lemma int_add_small a b :
  (min_int ≤ a + b ≤ max_int)%Z → int_add a b = (a + b)%Z.
Proof.
  unfold int_add, wrap_int, min_int, max_int, int_bits. intros Hab.
  rewrite Z.mod_small; lia.
Qed.

Lemma bind_ext {A B} (m : M A) (f g : A → M B) w :
  (∀ a w', f a w' = g a w') → bind m f w = bind m g w.
Proof. intros Hfg. unfold bind. by destruct (m w) as [[a|e] w1]. Qed.

Lemma wrap_int_range z : (min_int ≤ wrap_int z ≤ max_int)%Z.
Proof.
  unfold wrap_int, min_int, max_int, int_bits.
  pose proof (Z.mod_pos_bound (z + 2 ^ (64 - 1)) (2 ^ 64)). lia.
Qed.

(** Beyond the number of iterations that the loop condition allows, the
    bound does not matter: [attempts_bound] is never what ends the loop. *)
Lemma attemptLoop_bound_irrelevant env b1 b2 workflow t wr tr attempt w :
  (1 ≤ attempt)%Z →
  (Z.to_nat (int_add (Retries t) 1 - attempt + 1) ≤ b1)%nat →
  (Z.to_nat (int_add (Retries t) 1 - attempt + 1) ≤ b2)%nat →
  attemptLoop env b1 workflow t wr tr attempt w =
  attemptLoop env b2 workflow t wr tr attempt w.
Proof.
  pose proof (wrap_int_range (Retries t + 1)) as Hrange. fold (int_add (Retries t) 1) in Hrange.
  revert b2 tr attempt w. induction b1 as [|b1 IH]; intros b2 tr attempt w Ha H1 H2.
  - destruct b2 as [|b2]; [done|]. cbn [attemptLoop].
    rewrite (proj2 (Z.leb_gt _ _)) by lia. done.
  - destruct b2 as [|b2]; cbn [attemptLoop].
    { rewrite (proj2 (Z.leb_gt _ _)) by lia. done. }
    destruct (Z.leb_spec attempt (int_add (Retries t) 1)) as [Hle|Hgt]; [|done].
    apply bind_ext. intros res w1.
    apply bind_ext. intros _ w2.
    apply bind_ext. intros _ w3.
    apply bind_ext. intros _ w4.
    destruct res.2 as [err|]; [|done].
    destruct (Z.eqb_spec attempt (int_add (Retries t) 1)) as [Heq|Hne]; [done|].
    assert (int_add attempt 1 = (attempt + 1)%Z) as Hnext.
    { apply int_add_small. unfold min_int, max_int, int_bits in *. lia. }
    rewrite Hnext. apply IH; lia.
Qed.

(** ** C3 *)

Lemma update_task_twice (a b r : TaskRun) :
  tr_ID a = tr_ID b → update_task b (update_task a r) = update_task b r.
Proof.
  intros Hab. unfold update_task. rewrite <-Hab.
  destruct (decide (tr_ID r = tr_ID a)) as [Heq|Hne]; cbn.
  - by rewrite decide_True.
  - by rewrite decide_False.
Qed.

Lemma update_task_twice_fmap (a b : TaskRun) (rows : list TaskRun) :
  tr_ID a = tr_ID b → update_task b <$> (update_task a <$> rows) = update_task b <$> rows.
Proof.
  intros Hab. rewrite <-list_fmap_compose. apply list_fmap_ext.
  intros i r _. by apply update_task_twice.
Qed.

Lemma record_exit_fields err tr :
  tr_ID (record_exit err tr) = tr_ID tr ∧
  tr_RunID (record_exit err tr) = tr_RunID tr ∧
  tr_Name (record_exit err tr) = tr_Name tr ∧
  tr_Attempts (record_exit err tr) = tr_Attempts tr ∧
  tr_Status (record_exit err tr) = tr_Status tr.
Proof. by destruct err as [[]|]. Qed.

Section attempts.
Context (env : Env) (workflow : string) (t : Task) (wr : WorkflowRun).
Context (Hhealthy : healthy env) (Hfails : always_fails env (Cmd t)).
Context (Hretries : (0 ≤ Retries t < max_int)%Z).

Lemma attemptLoop_exhausts b attempt tr w :
  (1 ≤ b)%nat → (1 ≤ attempt)%Z → (attempt + Z.of_nat b = Retries t + 2)%Z →
  ∃ cause now tr' w',
    attemptLoop env b workflow t wr tr attempt w =
      (Err (ErrTaskFailed (Name t) workflow cause), w') ∧
    processes w' = processes w ++ replicate b (Cmd t) ∧
    task_runs w' = update_task tr' <$> task_runs w ∧
    task_seq w' = task_seq w ∧
    workflow_runs w' = update_run (wr_finish StatusFailed now wr) <$> workflow_runs w ∧
    tr_ID tr' = tr_ID tr ∧ tr_RunID tr' = tr_RunID tr ∧ tr_Name tr' = tr_Name tr ∧
    tr_Attempts tr' = (Retries t + 1)%Z ∧ tr_Status tr' = TaskFailed ∧
    is_Some (tr_EndedAt tr').
Proof.
  destruct Hhealthy as [Hstore Hmkdir].
  assert (int_add (Retries t) 1 = (Retries t + 1)%Z) as Htotal.
  { apply int_add_small. unfold min_int, max_int, int_bits in *. lia. }
  revert attempt tr w. induction b as [|b IH]; intros attempt tr w Hb Ha Hsum; [lia|].
  cbn [attemptLoop]. rewrite Htotal.
  rewrite (proj2 (Z.leb_le attempt (Retries t + 1))) by lia.
  specialize (Hfails (clock w)).
  destruct (command env (Cmd t) (clock w)) as [out [err|]] eqn:Hcmd; [|done].
  unfold bind at 1. unfold CombinedOutput at 1. rewrite Hcmd. cbn [fst snd].
  erewrite bind_Ok by (by apply MkdirAll_ok).
  unfold bind at 1. unfold WriteFile at 1.
  unfold bind at 1. unfold ignore at 1. rewrite UpdateTaskRun_ok by done. cbn [snd].
  set (tr1 := record_exit (Some err) _).
  assert (tr_ID tr1 = tr_ID tr ∧ tr_RunID tr1 = tr_RunID tr ∧ tr_Name tr1 = tr_Name tr ∧
          tr_Attempts tr1 = attempt ∧ tr_Status tr1 = tr_Status tr) as (H1 & H2 & H3 & H4 & H5).
  { subst tr1. by destruct err. }
  destruct (decide (attempt = Retries t + 1)%Z) as [Hlast|Hmore].
  - rewrite (proj2 (Z.eqb_eq attempt (Retries t + 1))) by done.
    assert (b = 0%nat) as -> by lia.
    unfold bind at 1. unfold time_Now at 1.
    unfold bind at 1. unfold ignore at 1. rewrite UpdateTaskRun_ok by done. cbn [snd].
    unfold bind at 1. unfold ignore at 1. rewrite Update_ok by done. cbn [snd].
    unfold fail.
    eexists err, _, (tr_finish TaskFailed _ tr1), _. split; [reflexivity|].
    simpl_world. rewrite update_task_twice_fmap by done.
    repeat split; try done; try (cbn [tr_finish tr_Attempts]; congruence);
      cbn [tr_finish tr_EndedAt]; eauto.
  - rewrite (proj2 (Z.eqb_neq attempt (Retries t + 1))) by done.
    rewrite int_add_small by (unfold min_int, max_int, int_bits in *; lia).
    match goal with |- context [attemptLoop env b workflow t wr tr1 _ ?w1] =>
      destruct (IH (attempt + 1)%Z tr1 w1) as (cause & now & tr' & w' & Hrun & Hp & Htr & Hseq & Hwr & I1 & I2 & I3 & I4 & I5 & I6);
        [lia|lia|lia|] end.
    exists cause, now, tr', w'. split; [done|].
    simpl_world. rewrite Hp, Htr, Hseq, Hwr. simpl_world.
    rewrite update_task_twice_fmap by congruence.
    rewrite <-app_assoc. cbn [replicate app].
    repeat split; try done; congruence.
Qed.

End attempts.

Lemma update_task_absorb (a r r' : TaskRun) :
  tr_ID a = tr_ID r → update_task (update_task a r) r' = update_task a r'.
Proof.
  intros Hid. unfold update_task. rewrite (decide_True (P := tr_ID r = tr_ID a)) by done.
  cbn. rewrite Hid. by destruct (decide (tr_ID r' = tr_ID r)).
Qed.



(** ** Processes are only ever added *)

Create HintDb executor discriminated.

Lemma som_ret {A} (a : A) : spawns_only_more (ret a).
Proof. intros w. exists []. by rewrite app_nil_r. Qed.

Lemma som_fail {A} e : spawns_only_more (@fail A e).
Proof. intros w. exists []. by rewrite app_nil_r. Qed.

Lemma som_lift {A} (r : result A) : spawns_only_more (lift r).
Proof. intros w. exists []. by rewrite app_nil_r. Qed.

Lemma som_bind {A B} (m : M A) (f : A → M B) :
  spawns_only_more m → (∀ a, spawns_only_more (f a)) → spawns_only_more (bind m f).
Proof.
  intros Hm Hf w. unfold bind. destruct (Hm w) as [more Hmore].
  destruct (m w) as [[a|e] w1]; cbn in *.
  - destruct (Hf a w1) as [more' Hmore']. exists (more ++ more').
    by rewrite Hmore', Hmore, app_assoc.
  - by exists more.
Qed.

Lemma som_ignore {A} (m : M A) : spawns_only_more m → spawns_only_more (ignore m).
Proof. intros Hm w. apply Hm. Qed.

Lemma som_same {A} (m : M A) :
  (∀ w, processes (m w).2 = processes w) → spawns_only_more m.
Proof. intros Hm w. exists []. by rewrite app_nil_r. Qed.

Lemma som_time_Now : spawns_only_more time_Now.
Proof. by apply som_same. Qed.

Lemma som_ctx_done env : spawns_only_more (ctx_done env).
Proof. by apply som_same. Qed.

Lemma som_NewWorkflowRun env workflow hash :
  spawns_only_more (NewWorkflowRun env workflow hash).
Proof. apply som_same. intros w. unfold NewWorkflowRun. by destruct (_ || _). Qed.

Lemma som_Update env r : spawns_only_more (Update env r).
Proof. apply som_same. intros w. apply Update_effect. Qed.

Lemma som_SaveTaskRun env tr : spawns_only_more (SaveTaskRun env tr).
Proof. apply som_same. intros w. unfold SaveTaskRun. by destruct (store_fault _ _ _). Qed.

Lemma som_UpdateTaskRun env tr : spawns_only_more (UpdateTaskRun env tr).
Proof. apply som_same. intros w. apply UpdateTaskRun_effect. Qed.

Lemma som_GetTaskRun env runID name : spawns_only_more (GetTaskRun env runID name).
Proof. apply som_same. intros w. by rewrite GetTaskRun_world. Qed.

Lemma som_CombinedOutput env cmd : spawns_only_more (CombinedOutput env cmd).
Proof. intros w. by exists [cmd]. Qed.

Lemma som_MkdirAll env dir : spawns_only_more (MkdirAll env dir).
Proof. apply som_same. intros w. unfold MkdirAll. by destruct (mkdir_fault _ _). Qed.

Lemma som_WriteFile path out : spawns_only_more (WriteFile path out).
Proof. by apply som_same. Qed.

#[export] Hint Resolve som_ret som_fail som_lift som_ignore som_time_Now som_ctx_done
  som_NewWorkflowRun som_Update som_SaveTaskRun som_UpdateTaskRun som_GetTaskRun
  som_CombinedOutput som_MkdirAll som_WriteFile : executor.

Ltac som := repeat (first [ progress auto with executor
                          | apply som_bind; [|intros ?]
                          | match goal with
                            | |- spawns_only_more (match ?x with _ => _ end) => destruct x
                            | |- spawns_only_more (if ?x then _ else _) => destruct x
                            end ]).

Lemma som_attemptLoop env b workflow t wr tr attempt :
  spawns_only_more (attemptLoop env b workflow t wr tr attempt).
Proof.
  revert tr attempt. induction b as [|b IH]; intros tr attempt; cbn [attemptLoop].
  - som.
  - destruct (attempt <=? _)%Z; som.
Qed.
#[export] Hint Resolve som_attemptLoop : executor.

Lemma som_checkCancelled env wr : spawns_only_more (checkCancelled env wr).
Proof. unfold checkCancelled. som. Qed.
#[export] Hint Resolve som_checkCancelled : executor.

Lemma som_runTask env workflow wr t : spawns_only_more (runTask env workflow wr t).
Proof. unfold runTask. som. Qed.

Lemma som_resumeTask env workflow wr t : spawns_only_more (resumeTask env workflow wr t).
Proof.
  destruct t as [t|]; cbn [resumeTask]; [|som]. intros w.
  pose proof (GetTaskRun_world env (wr_ID wr) (Name t) w) as Hw.
  destruct (GetTaskRun env (wr_ID wr) (Name t) w) as [[tr|e] w1]; cbn in Hw; subst w1.
  - case_decide.
    + exists []. by rewrite app_nil_r.
    + assert (spawns_only_more
        (bind (checkCancelled env wr)
           (λ _, bind (attemptLoop env (attempts_bound t) workflow t wr tr 1)
                      (λ _, ret tt)))) as Hk by som.
      apply (Hk (tick w)).
  - assert (spawns_only_more
        (bind (checkCancelled env wr)
           (λ _, bind time_Now (λ now,
              bind (SaveTaskRun env (new_TaskRun wr t now)) (λ tr,
                bind (attemptLoop env (attempts_bound t) workflow t wr tr 1)
                     (λ _, ret tt)))))) as Hk by som.
    destruct e; try (exists []; by rewrite app_nil_r). apply (Hk (tick w)).
Qed.
#[export] Hint Resolve som_runTask som_resumeTask : executor.

Lemma som_runTasks env workflow wr order : spawns_only_more (runTasks env workflow wr order).
Proof. induction order; cbn [runTasks]; som. Qed.

Lemma som_resumeTasks env workflow wr order :
  spawns_only_more (resumeTasks env workflow wr order).
Proof. induction order; cbn [resumeTasks]; som. Qed.
#[export] Hint Resolve som_runTasks som_resumeTasks : executor.

(** ** C5 *)

Lemma bind_prefix {A B} (m : M A) (f : A → M B) w :
  (∀ a, spawns_only_more (f a)) →
  ∃ more, processes (bind m f w).2 = processes (m w).2 ++ more.
Proof.
  intros Hf. unfold bind. destruct (m w) as [[a|e] w1]; cbn.
  - apply Hf.
  - exists []. by rewrite app_nil_r.
Qed.

Lemma bind_ret_world {A} (m : M A) w : (bind m (λ _, ret tt) w).2 = (m w).2.
Proof. unfold bind, ret. by destruct (m w) as [[a|e] w1]. Qed.

Lemma attemptLoop_spawns_first env b workflow t wr tr w :
  (1 ≤ b)%nat → (1 ≤ int_add (Retries t) 1)%Z →
  ∃ more, processes (attemptLoop env b workflow t wr tr 1 w).2 =
          processes w ++ Cmd t :: more.
Proof.
  intros Hb Hcond. destruct b as [|b]; [lia|]. cbn [attemptLoop].
  rewrite (proj2 (Z.leb_le 1 _)) by done.
  match goal with |- context [bind (CombinedOutput env (Cmd t)) ?K] =>
    destruct (bind_prefix (CombinedOutput env (Cmd t)) K w) as [more Hmore]; [intros res; som|]
  end.
  exists more. rewrite Hmore. unfold CombinedOutput. simpl_world.
  by rewrite <-app_assoc.
Qed.

Lemma GetTaskRun_found env runID name w :
  store_fault env OpGetTaskRun (clock w) = false →
  GetTaskRun env runID name w =
  (match task_row w runID name with Some r => Ok r | None => Err ErrNoRows end, tick w).
Proof.
  intros Hf. unfold GetTaskRun, task_row. rewrite Hf. by destruct (List.find _ _).
Qed.

(** C5.  In the loop of [Resume], when the row of the task can be read:
    (1) if the row exists with status success, the iteration changes nothing
    but the clock (no process, no row touched) and the loop goes on with the
    following tasks; (2) if there is no row, or its status is not success,
    and the token has not fired, the store and the file system work and the
    retry budget is a non-negative [int] below the largest, a process is
    spawned for the command of the task. *)
Theorem resume_skips_successful :
  ∀ (env : Env) (workflow : string) (wr : WorkflowRun) (t : Task)
    (rest : list (option Task)) (w : World),
    store_fault env OpGetTaskRun (clock w) = false →
    (∀ row, task_row w (wr_ID wr) (Name t) = Some row →
            tr_Status row = TaskSuccess →
            resumeTask env workflow wr (Some t) w = (Ok tt, tick w) ∧
            same_state w (tick w) ∧
            resumeTasks env workflow wr (Some t :: rest) w =
            resumeTasks env workflow wr rest (tick w)) ∧
    (task_row w (wr_ID wr) (Name t) = None ∨
     (∃ row, task_row w (wr_ID wr) (Name t) = Some row ∧ tr_Status row ≠ TaskSuccess) →
     healthy env →
     ctx_Done env (S (clock w)) = false →
     (0 ≤ Retries t < max_int)%Z →
     ∃ more, processes (resumeTasks env workflow wr (Some t :: rest) w).2 =
             processes w ++ Cmd t :: more).
Proof.
  intros env workflow wr t rest w Hget. split.
  - intros row Hrow Hsuccess.
    assert (resumeTask env workflow wr (Some t) w = (Ok tt, tick w)) as Hskip.
    { cbn [resumeTask]. rewrite GetTaskRun_found, Hrow by done.
      by rewrite decide_True. }
    split; [done|]. split; [apply same_state_tick|].
    cbn [resumeTasks]. by rewrite (bind_Ok _ _ _ _ _ Hskip).
  - intros Hrow [Hstore _] Hctx Hretries.
    assert (int_add (Retries t) 1 = (Retries t + 1)%Z) as Htotal.
    { apply int_add_small. unfold min_int, max_int, int_bits in *. lia. }
    assert (∃ more, processes (resumeTask env workflow wr (Some t) w).2 =
                    processes w ++ Cmd t :: more) as [more Hmore].
    { cbn [resumeTask]. rewrite GetTaskRun_found by done.
      destruct Hrow as [->|(row & -> & Hstatus)].
      - erewrite bind_Ok by (by apply checkCancelled_quiet).
        unfold bind at 1. unfold time_Now at 1.
        erewrite bind_Ok by (by apply SaveTaskRun_ok).
        rewrite bind_ret_world.
        match goal with |- context [attemptLoop env _ workflow t wr ?tr 1 ?w1] =>
          destruct (attemptLoop_spawns_first env (attempts_bound t) workflow t wr tr w1)
            as [more Hmore] end.
        + unfold attempts_bound. rewrite Htotal. lia.
        + rewrite Htotal. lia.
        + exists more. by rewrite Hmore.
      - rewrite decide_False by done.
        erewrite bind_Ok by (by apply checkCancelled_quiet).
        rewrite bind_ret_world.
        destruct (attemptLoop_spawns_first env (attempts_bound t) workflow t wr row (tick w))
          as [more Hmore].
        + unfold attempts_bound. rewrite Htotal. lia.
        + rewrite Htotal. lia.
        + exists more. by rewrite Hmore. }
    cbn [resumeTasks].
    destruct (bind_prefix (resumeTask env workflow wr (Some t))
                (λ _, resumeTasks env workflow wr rest) w) as [more' Hmore'].
    { intros _. apply som_resumeTasks. }
    exists (more ++ more'). rewrite Hmore', Hmore. by rewrite <-app_assoc.
Qed.

Lemma resume_skips_successful_witness :
  (resumeTask quiet "retry" first_run (Some failing_task) finished_world =
     (Ok tt, tick finished_world) ∧
   same_state finished_world (tick finished_world) ∧
   resumeTasks quiet "retry" first_run
     [Some failing_task; Some (task "b" "echo b" ["a"] 0)] finished_world =
   resumeTasks quiet "retry" first_run
     [Some (task "b" "echo b" ["a"] 0)] (tick finished_world)) ∧
  (∃ more,
     processes (resumeTasks quiet "retry" first_run
                  [Some failing_task; Some (task "b" "echo b" ["a"] 0)] empty_world).2 =
     processes empty_world ++ Cmd failing_task :: more).
Proof.
  split.
  - apply (proj1 (resume_skips_successful quiet "retry" first_run failing_task
                    [Some (task "b" "echo b" ["a"] 0)] finished_world eq_refl)
             finished_row); reflexivity.
  - apply (proj2 (resume_skips_successful quiet "retry" first_run failing_task
                    [Some (task "b" "echo b" ["a"] 0)] empty_world eq_refl)).
    + left. reflexivity.
    + apply healthy_quiet.
    + reflexivity.
    + unfold max_int, int_bits. cbn. lia.
Defined.

(** ** C8: which database errors reach the caller *)

Lemma so_ret {A} ops (a : A) : surfaces_only ops (ret a).
Proof. by intros w op. Qed.

Lemma so_lift_Ok {A} ops (a : A) : surfaces_only ops (lift (Ok a)).
Proof. by intros w op. Qed.

Lemma so_fail {A} ops e : (∀ op, e ≠ ErrStore op) → surfaces_only ops (@fail A e).
Proof. intros He w op [= ->]. by destruct (He op). Qed.

Lemma so_bind {A B} ops (m : M A) (f : A → M B) :
  surfaces_only ops m → (∀ a, surfaces_only ops (f a)) → surfaces_only ops (bind m f).
Proof.
  intros Hm Hf w op. unfold bind. specialize (Hm w op).
  destruct (m w) as [[a|e] w1]; [apply Hf|].
  cbn in *. intros [= ->]. by apply Hm.
Qed.

Lemma so_ignore {A} ops (m : M A) : surfaces_only ops (ignore m).
Proof. by intros w op. Qed.

Lemma so_time_Now ops : surfaces_only ops time_Now.
Proof. by intros w op. Qed.

Lemma so_ctx_done ops env : surfaces_only ops (ctx_done env).
Proof. by intros w op. Qed.

Lemma so_CombinedOutput ops env cmd : surfaces_only ops (CombinedOutput env cmd).
Proof. by intros w op. Qed.

Lemma so_MkdirAll ops env dir : surfaces_only ops (MkdirAll env dir).
Proof. intros w op. unfold MkdirAll. by destruct (mkdir_fault _ _). Qed.

Lemma so_WriteFile ops path out : surfaces_only ops (WriteFile path out).
Proof. by intros w op. Qed.

Lemma so_NewWorkflowRun ops env workflow hash :
  OpNewWorkflowRun ∈ ops → surfaces_only ops (NewWorkflowRun env workflow hash).
Proof. intros Hin w op. unfold NewWorkflowRun. destruct (_ || _); [by intros [= <-]|done]. Qed.

Lemma so_SaveTaskRun ops env tr :
  OpSaveTaskRun ∈ ops → surfaces_only ops (SaveTaskRun env tr).
Proof.
  intros Hin w op. unfold SaveTaskRun. destruct (store_fault _ _ _); [by intros [= <-]|done].
Qed.

#[export] Hint Resolve so_ret so_lift_Ok so_ignore so_time_Now so_ctx_done
  so_CombinedOutput so_MkdirAll so_WriteFile : executor.

Ltac so := repeat (first [ progress auto with executor
                         | apply so_bind; [|intros ?]
                         | apply so_fail; intros ?; discriminate
                         | apply so_NewWorkflowRun; set_solver
                         | apply so_SaveTaskRun; set_solver
                         | match goal with
                           | |- surfaces_only _ (match ?x with _ => _ end) => destruct x
                           | |- surfaces_only _ (if ?x then _ else _) => destruct x
                           end ]).

Lemma so_attemptLoop ops env b workflow t wr tr attempt :
  surfaces_only ops (attemptLoop env b workflow t wr tr attempt).
Proof.
  revert tr attempt. induction b as [|b IH]; intros tr attempt; cbn [attemptLoop].
  - so.
  - destruct (attempt <=? _)%Z; so.
Qed.
#[export] Hint Resolve so_attemptLoop : executor.

Lemma so_checkCancelled ops env wr : surfaces_only ops (checkCancelled env wr).
Proof. unfold checkCancelled. so. Qed.
#[export] Hint Resolve so_checkCancelled : executor.

Lemma so_runTasks env workflow wr order :
  surfaces_only [OpSaveTaskRun] (runTasks env workflow wr order).
Proof. induction order as [|t order IH]; cbn [runTasks]; unfold runTask; so. Qed.

Lemma so_resumeTask env workflow wr t :
  surfaces_only [OpGetTaskRun; OpSaveTaskRun] (resumeTask env workflow wr t).
Proof.
  destruct t as [t|]; cbn [resumeTask]; [|so]. intros w op.
  unfold GetTaskRun. destruct (store_fault _ _ _).
  { intros [= <-]. set_solver. }
  destruct (List.find _ _) as [tr|].
  - case_decide; [done|].
    assert (surfaces_only [OpGetTaskRun; OpSaveTaskRun]
        (bind (checkCancelled env wr)
           (λ _, bind (attemptLoop env (attempts_bound t) workflow t wr tr 1)
                      (λ _, ret tt)))) as Hk by so.
    apply Hk.
  - assert (surfaces_only [OpGetTaskRun; OpSaveTaskRun]
        (bind (checkCancelled env wr)
           (λ _, bind time_Now (λ now,
              bind (SaveTaskRun env (new_TaskRun wr t now)) (λ tr,
                bind (attemptLoop env (attempts_bound t) workflow t wr tr 1)
                     (λ _, ret tt)))))) as Hk by so.
    apply Hk.
Qed.

Lemma so_resumeTasks env workflow wr order :
  surfaces_only [OpGetTaskRun; OpSaveTaskRun] (resumeTasks env workflow wr order).
Proof.
  induction order as [|t order IH]; cbn [resumeTasks]; [so|].
  apply so_bind; [apply so_resumeTask|done].
Qed.

Section store_errors.
Context `{!Externals}.

Lemma so_Run ρ env d : surfaces_only [OpNewWorkflowRun; OpSaveTaskRun] (Run ρ env d).
Proof.
  unfold Run, ComputeHash, sortFailed, finishRun.
  apply so_bind.
  { destruct (json_Marshal _); [so|]. intros w op. unfold lift. cbn. intros [=]. }
  intros hash. apply so_bind; [so|]. intros wr.
  destruct (TopologicalSort _ _); [|so].
  apply so_bind; [|intros ?; so].
  intros w op Herr. apply so_runTasks in Herr. set_solver.
Qed.

Lemma so_Resume ρ env wr : surfaces_only [OpGetTaskRun; OpSaveTaskRun] (Resume ρ env wr).
Proof.
  unfold Resume, sortFailed, finishRun.
  destruct (dag_Load _ _ _); [|so].
  destruct (TopologicalSort _ _); [|so].
  apply so_bind; [apply so_resumeTasks|intros ?; so].
Qed.

Lemma runTasks_app env workflow wr pre order w w1 :
  runTasks env workflow wr pre w = (Ok tt, w1) →
  runTasks env workflow wr (pre ++ order) w = runTasks env workflow wr order w1.
Proof.
  revert w. induction pre as [|t pre IH]; intros w Hpre.
  - by injection Hpre as ->.
  - cbn [app runTasks] in Hpre |- *. unfold bind in Hpre |- *.
    destruct (runTask env workflow wr t w) as [[[]|e] w2]; [by apply IH|done].
Qed.

Lemma resumeTasks_app env workflow wr pre order w w1 :
  resumeTasks env workflow wr pre w = (Ok tt, w1) →
  resumeTasks env workflow wr (pre ++ order) w = resumeTasks env workflow wr order w1.
Proof.
  revert w. induction pre as [|t pre IH]; intros w Hpre.
  - by injection Hpre as ->.
  - cbn [app resumeTasks] in Hpre |- *. unfold bind in Hpre |- *.
    destruct (resumeTask env workflow wr t w) as [[[]|e] w2]; [by apply IH|done].
Qed.

(** C8 (as amended).  The errors of the database operations whose result
    the executor looks at are returned to the caller and end the run, at
    whatever task of the order they occur: (1) an error of [NewWorkflowRun]
    is what [Run] returns; (2) when the tasks [pre] have run and
    [SaveTaskRun] fails for the next task, the loop of [Run] returns that
    error, before any process of the task is spawned; in the loop of
    [Resume], (3) an error of [GetTaskRun] other than no-rows is returned,
    and (4) so is an error of [SaveTaskRun] for a task that has no row;
    (5, 6) [Run] and [Resume] return the error of their loop as it is, in
    the state in which the loop stopped: nothing is run or written after it.
    (7) The errors of [UpdateTaskRun] and of [Update] are dropped: a database
    error returned by [Run] comes from [NewWorkflowRun] or [SaveTaskRun], one
    returned by [Resume] from [GetTaskRun] or [SaveTaskRun]. *)
Theorem store_errors_surfaced :
  (∀ (ρ : nat → RangeOrder) (env : Env) (d : DAG) (w : World) (hash : string) (e : Error),
      ComputeHash ρ d = Ok hash →
      (NewWorkflowRun env (DName d) hash w).1 = Err e →
      Run ρ env d w = (Err e, tick w)) ∧
  (∀ (env : Env) (workflow : string) (wr : WorkflowRun) (pre : list (option Task))
     (t : Task) (rest : list (option Task)) (w w1 : World),
      runTasks env workflow wr pre w = (Ok tt, w1) →
      ctx_Done env (clock w1) = false →
      store_fault env OpSaveTaskRun (clock w1) = true →
      runTasks env workflow wr (pre ++ Some t :: rest) w =
      (Err (ErrStore OpSaveTaskRun), tick w1)) ∧
  (∀ (env : Env) (workflow : string) (wr : WorkflowRun) (pre : list (option Task))
     (t : Task) (rest : list (option Task)) (w w1 : World),
      resumeTasks env workflow wr pre w = (Ok tt, w1) →
      store_fault env OpGetTaskRun (clock w1) = true →
      resumeTasks env workflow wr (pre ++ Some t :: rest) w =
      (Err (ErrStore OpGetTaskRun), tick w1)) ∧
  (∀ (env : Env) (workflow : string) (wr : WorkflowRun) (pre : list (option Task))
     (t : Task) (rest : list (option Task)) (w w1 : World),
      resumeTasks env workflow wr pre w = (Ok tt, w1) →
      store_fault env OpGetTaskRun (clock w1) = false →
      task_row w1 (wr_ID wr) (Name t) = None →
      ctx_Done env (S (clock w1)) = false →
      store_fault env OpSaveTaskRun (S (clock w1)) = true →
      resumeTasks env workflow wr (pre ++ Some t :: rest) w =
      (Err (ErrStore OpSaveTaskRun), tick (tick w1))) ∧
  (∀ (ρ : nat → RangeOrder) (env : Env) (d : DAG) (w : World) (hash : string)
     (wr : WorkflowRun) (w0 : World) (order : list (option Task)) (e : Error) (w' : World),
      ComputeHash ρ d = Ok hash →
      NewWorkflowRun env (DName d) hash w = (Ok wr, w0) →
      TopologicalSort (later ρ) d = Ok order →
      runTasks env (DName d) wr order w0 = (Err e, w') →
      Run ρ env d w = (Err e, w')) ∧
  (∀ (ρ : nat → RangeOrder) (env : Env) (wr : WorkflowRun) (w : World) (d : DAG)
     (order : list (option Task)) (e : Error) (w' : World),
      dag_Load ρ env (wr_Workflow wr) = Ok d →
      TopologicalSort (skip 6 ρ) d = Ok order →
      resumeTasks env (DName d) wr order w = (Err e, w') →
      Resume ρ env wr w = (Err e, w')) ∧
  (∀ (ρ : nat → RangeOrder) (env : Env) (w : World) (op : StoreOp),
      (∀ d, (Run ρ env d w).1 = Err (ErrStore op) →
            op = OpNewWorkflowRun ∨ op = OpSaveTaskRun) ∧
      (∀ wr, (Resume ρ env wr w).1 = Err (ErrStore op) →
             op = OpGetTaskRun ∨ op = OpSaveTaskRun)).
Proof.
  split; [|split; [|split; [|split; [|split; [|split]]]]].
  - intros ρ env d w hash e Hhash Hnew. unfold Run.
    unfold bind at 1. unfold lift at 1. rewrite Hhash.
    apply bind_Err. unfold NewWorkflowRun in *.
    destruct (_ || _); [|done]. cbn in Hnew. by injection Hnew as <-.
  - intros env workflow wr pre t rest w w1 Hpre Hctx Hfault.
    rewrite (runTasks_app _ _ _ _ _ _ _ Hpre). cbn [runTasks runTask].
    apply bind_Err. erewrite bind_Ok by (by apply checkCancelled_quiet).
    unfold bind at 1. unfold time_Now at 1. apply bind_Err.
    unfold SaveTaskRun. by rewrite Hfault.
  - intros env workflow wr pre t rest w w1 Hpre Hfault.
    rewrite (resumeTasks_app _ _ _ _ _ _ _ Hpre). cbn [resumeTasks resumeTask].
    apply bind_Err. unfold GetTaskRun. by rewrite Hfault.
  - intros env workflow wr pre t rest w w1 Hpre Hget Hrow Hctx Hfault.
    rewrite (resumeTasks_app _ _ _ _ _ _ _ Hpre). cbn [resumeTasks resumeTask].
    apply bind_Err. rewrite (GetTaskRun_found _ _ _ _ Hget), Hrow. cbn beta iota.
    erewrite bind_Ok by (apply checkCancelled_quiet; exact Hctx).
    unfold bind at 1. unfold time_Now at 1. apply bind_Err.
    unfold SaveTaskRun. cbn [clock tick]. by rewrite Hfault.
  - intros ρ env d w hash wr w0 order e w' Hhash Hnew Hsort Hloop. unfold Run.
    unfold bind at 1. unfold lift at 1. rewrite Hhash.
    rewrite (bind_Ok _ _ _ _ _ Hnew), Hsort. by apply bind_Err.
  - intros ρ env wr w d order e w' Hload Hsort Hloop. unfold Resume.
    rewrite Hload, Hsort. by apply bind_Err.
  - intros ρ env w op. split.
    + intros d Herr%so_Run. set_solver.
    + intros wr Herr%so_Resume. set_solver.
Qed.

End store_errors.

Lemma store_errors_surfaced_witness :
  Run (λ _, ascending) (refusing OpNewWorkflowRun 0 quiet) diamond empty_world =
    (Err (ErrStore OpNewWorkflowRun), tick empty_world) ∧
  (∃ w', Run (λ _, ascending) (refusing OpSaveTaskRun 2 quiet) diamond empty_world =
         (Err (ErrStore OpSaveTaskRun), w') ∧ processes w' = ["echo a"]) ∧
  (∃ w', @Resume document_externals (λ _, ascending) (refusing OpGetTaskRun 0 on_disk)
           failed_run (Run (λ _, ascending) on_disk resume_first empty_world).2 =
         (Err (ErrStore OpGetTaskRun), w') ∧ processes w' = ["exit 1"]) ∧
  (∃ w', @Resume document_externals (λ _, ascending) (refusing OpSaveTaskRun 0 on_disk)
           failed_run (Run (λ _, ascending) on_disk resume_first empty_world).2 =
         (Err (ErrStore OpSaveTaskRun), w') ∧ processes w' = ["exit 1"; "exit 0"]) ∧
  (OpSaveTaskRun = OpNewWorkflowRun ∨ OpSaveTaskRun = OpSaveTaskRun).
Proof.
  destruct (@store_errors_surfaced toy_externals)
    as (Hnew & Hsave & _ & _ & Hrun & _ & Honly).
  destruct (@store_errors_surfaced document_externals)
    as (_ & _ & Hget & Hsave' & _ & Hresume & _).
  pose (a := task "a" "echo a" [] 0). pose (b := task "b" "echo b" ["a"] 0).
  pose (c := task "c" "echo c" ["a"] 0). pose (d := task "d" "echo d" ["b"; "c"] 0).
  pose (t1 := task "t1" "exit 0" [] 0). pose (t2 := task "t2" "echo ok" ["t1"] 0).
  pose (w := (Run (λ _, ascending) on_disk resume_first empty_world).2).
  split; [|split; [|split; [|split]]].
  - apply (Hnew (λ _, ascending) (refusing OpNewWorkflowRun 0 quiet) diamond empty_world
             "e3b0c442"); vm_compute; reflexivity.
  - pose (env := refusing OpSaveTaskRun 2 quiet).
    pose (run := {| wr_ID := "run-0"; wr_Workflow := "complex"; wr_WorkflowHash := "e3b0c442";
                    wr_Status := StatusRunning; wr_StartedAt := 0; wr_EndedAt := None;
                    wr_ExitCode := None; wr_Meta := None; wr_CreatedAt := 0 |}).
    pose (w0 := (NewWorkflowRun env "complex" "e3b0c442" empty_world).2).
    pose (w1 := (runTasks env "complex" run [Some a] w0).2).
    exists (tick w1). split; [|vm_compute; reflexivity].
    apply (Hrun (λ _, ascending) env diamond empty_world "e3b0c442" run w0
             [Some a; Some b; Some c; Some d]); [vm_compute; reflexivity..|].
    apply (Hsave env "complex" run [Some a] b [Some c; Some d] w0 w1);
      vm_compute; reflexivity.
  - pose (env := refusing OpGetTaskRun 0 on_disk).
    exists (tick w). split; [|vm_compute; reflexivity].
    apply (Hresume (λ _, ascending) env failed_run w
             {| DName := "resume"; Tasks := <["t1" := t1]> (<["t2" := t2]> ∅) |}
             [Some t1; Some t2]); [vm_compute; reflexivity..|].
    apply (Hget env "resume" failed_run [] t1 [Some t2] w w); vm_compute; reflexivity.
  - pose (env := refusing OpSaveTaskRun 0 on_disk).
    pose (w1 := (resumeTasks env "resume" failed_run [Some t1] w).2).
    exists (tick (tick w1)). split; [|vm_compute; reflexivity].
    apply (Hresume (λ _, ascending) env failed_run w
             {| DName := "resume"; Tasks := <["t1" := t1]> (<["t2" := t2]> ∅) |}
             [Some t1; Some t2]); [vm_compute; reflexivity..|].
    apply (Hsave' env "resume" failed_run [Some t1] t2 [] w w1); vm_compute; reflexivity.
  - apply (proj1 (Honly (λ _, ascending) (refusing OpSaveTaskRun 2 quiet) empty_world
                          OpSaveTaskRun) diamond).
    vm_compute. reflexivity.
Defined.

(** C8 as stated does not hold.  With a database that refuses every UPDATE,
    [Run] on the one-task workflow "simple" returns no error: every call of
    [UpdateTaskRun] and of [Update] failed, the caller is not told, and the
    rows still say that the task and the run are running. *)
Lemma update_errors_swallowed :
  (∀ tr w, (UpdateTaskRun update_faults tr w).1 = Err (ErrStore OpUpdateTaskRun)) ∧
  (∀ r w, (Update update_faults r w).1 = Err (ErrStore OpUpdate)) ∧
  (Run (λ _, ascending) update_faults simple empty_world).1 = Ok tt ∧
  processes (Run (λ _, ascending) update_faults simple empty_world).2 = ["echo hello"] ∧
  tr_Status <$> task_runs (Run (λ _, ascending) update_faults simple empty_world).2
    = [TaskRunning] ∧
  wr_Status <$> workflow_runs (Run (λ _, ascending) update_faults simple empty_world).2
    = [StatusRunning].
Proof. repeat split; vm_compute; reflexivity. Qed.

(** ** C9: a graph with a cycle *)

Lemma cyclic_not_sorted ρ d : well_keyed d → ¬ acyclic d → TopologicalSort ρ d = Err ErrCycle.
Proof.
  intros Hwk Hcyc. destruct (TopologicalSort ρ d) as [res|e] eqn:Hs.
  - destruct Hcyc. by eapply TopologicalSort_Ok_acyclic.
  - by apply TopologicalSort_error in Hs as ->.
Qed.

Lemma cyclic_not_empty d : ¬ acyclic d → size (Tasks d) ≠ 0%nat.
Proof.
  intros Hcyc Hsize. apply Hcyc. intros v Hv.
  apply map_size_empty_inv in Hsize.
  assert (∃ u, depends_on d v u) as (u & t & Ht & _) by (inversion Hv; eauto).
  by rewrite Hsize, lookup_empty in Ht.
Qed.

Lemma Validate_cyclic ρ d :
  well_keyed d → ¬ acyclic d →
  Validate ρ d ≠ None ∧
  (DName d ≠ "" → validateTasks (Tasks d) ∅ (range (ρ 0) (Tasks d)) = None →
   Validate ρ d = Some ErrCycle).
Proof.
  intros Hwk Hcyc. pose proof (cyclic_not_sorted (later ρ) d Hwk Hcyc) as Hsort.
  pose proof (cyclic_not_empty d Hcyc) as Hsize.
  unfold Validate. rewrite Hsort. split.
  - repeat case_decide; try done. by destruct (validateTasks _ _ _).
  - intros Hname Hv. rewrite Hv. by rewrite !decide_False.
Qed.

Section cycles.
Context `{!Externals}.

(** C9 (as amended).  For a graph with a cycle, stored under the names of
    its tasks: (1) [Validate] returns an error, the cycle error when the
    other checks pass; (2) the run command, which loads and validates the
    workflow first, returns that validation error and leaves the world as it
    was: no run row, no task row, no process; (3) [Executor.Run] called with
    such a graph spawns no process and creates no task row, but it does
    insert the run row and, the store working, persists it as failed with an
    end time before it returns the topological sort error. *)
Theorem cycle_rejected :
  (∀ (ρ : nat → RangeOrder) (d : DAG),
      well_keyed d → ¬ acyclic d →
      Validate ρ d ≠ None ∧
      (DName d ≠ "" → validateTasks (Tasks d) ∅ (range (ρ 0) (Tasks d)) = None →
       Validate ρ d = Some ErrCycle)) ∧
  (∀ (ρ : nat → RangeOrder) (env : Env) (workflowName : string) (w : World)
     (data : list Byte.byte) (d : DAG),
      files env (Join (workflows_dir env) (TrimSuffix workflowName ".toml" +:+ ".toml"))
        = Some data →
      parseWorkflow ρ data = Ok d →
      ¬ acyclic d →
      ∃ e, runCmd ρ env workflowName w = (Err (ErrValidation e), w)) ∧
  (∀ (ρ : nat → RangeOrder) (env : Env) (d : DAG) (w : World) (hash : string),
      well_keyed d → ¬ acyclic d →
      ComputeHash ρ d = Ok hash →
      healthy env →
      uuid_New env (clock w) ∉ wr_ID <$> workflow_runs w →
      ∃ (run : WorkflowRun) (w' : World),
        Run ρ env d w = (Err (ErrTopologicalSort ErrCycle), w') ∧
        workflow_runs w' = workflow_runs w ++ [run] ∧
        wr_Workflow run = DName d ∧
        wr_Status run = StatusFailed ∧
        is_Some (wr_EndedAt run) ∧
        task_runs w' = task_runs w ∧
        processes w' = processes w).
Proof.
  split; [|split].
  - intros ρ d. apply Validate_cyclic.
  - intros ρ env name w data d Hfile Hparse Hcyc.
    pose proof (parseWorkflow_well_keyed ρ data d Hparse) as Hwk.
    destruct (Validate_cyclic (later ρ) d Hwk Hcyc) as [Hv _].
    destruct (Validate (later ρ) d) as [e|] eqn:He; [|done].
    exists e. unfold runCmd, dag_Load. by rewrite Hfile, Hparse, He.
  - intros ρ env d w hash Hwk Hcyc Hhash [Hstore _] Hfresh.
    unfold Run. unfold bind at 1. unfold lift at 1. rewrite Hhash.
    unfold bind at 1. unfold NewWorkflowRun at 1.
    rewrite Hstore, bool_decide_eq_false_2 by done. cbn [orb].
    rewrite (cyclic_not_sorted (later ρ) d Hwk Hcyc).
    unfold sortFailed. unfold bind at 1. unfold time_Now at 1.
    unfold bind at 1. unfold ignore at 1. rewrite Update_ok by apply Hstore.
    cbn [snd]. unfold fail. eexists _, _. split; [reflexivity|].
    simpl_world. rewrite fmap_app. cbn [fmap list_fmap].
    rewrite update_run_fresh by done. unfold update_run at 1.
    rewrite decide_True by done. cbn. split; [reflexivity|]. by repeat split; eauto.
Qed.

End cycles.

Lemma two_cycle_cyclic : ¬ acyclic two_cycle.
Proof.
  intros Hacyclic. apply (Hacyclic "a").
  apply (tc_l _ _ "b").
  - exists (task "a" "echo a" ["b"] 0). split; [by vm_compute|set_solver].
  - apply tc_once. exists (task "b" "echo b" ["a"] 0). split; [by vm_compute|set_solver].
Qed.

Lemma cycle_rejected_witness :
  ∃ (run : WorkflowRun) (w' : World),
    Run (λ _, ascending) quiet two_cycle empty_world =
      (Err (ErrTopologicalSort ErrCycle), w') ∧
    workflow_runs w' = workflow_runs empty_world ++ [run] ∧
    wr_Workflow run = DName two_cycle ∧
    wr_Status run = StatusFailed ∧
    is_Some (wr_EndedAt run) ∧
    task_runs w' = task_runs empty_world ∧
    processes w' = processes empty_world.
Proof.
  apply (proj2 (proj2 cycle_rejected) (λ _, ascending) quiet two_cycle empty_world "e3b0c442").
  - apply graph_of_well_keyed.
  - apply two_cycle_cyclic.
  - reflexivity.
  - apply healthy_quiet.
  - cbn. apply not_elem_of_nil.
Defined.

(** C9 as stated does not hold.  [Validate] reports the cycle of the
    two-task cycle and [Run] spawns no process for it, but [Run] has
    inserted a run row by the time it sorts the graph, and leaves it in the
    store with status failed. *)
Lemma cycle_creates_run_row :
  Validate (λ _, ascending) two_cycle = Some ErrCycle ∧
  (Run (λ _, ascending) quiet two_cycle empty_world).1 = Err (ErrTopologicalSort ErrCycle) ∧
  processes (Run (λ _, ascending) quiet two_cycle empty_world).2 = [] ∧
  workflow_runs empty_world = [] ∧
  workflow_runs (Run (λ _, ascending) quiet two_cycle empty_world).2 =
    [{| wr_ID := "run-0"; wr_Workflow := "cycle"; wr_WorkflowHash := "e3b0c442";
        wr_Status := StatusFailed; wr_StartedAt := 0; wr_EndedAt := Some 1%nat;
        wr_ExitCode := None; wr_Meta := None; wr_CreatedAt := 0 |}].
Proof. repeat split; vm_compute; reflexivity. Qed.

(** * The seed scenarios on the quiet machine *)

(** Scenario 1: one task that succeeds: one process, one row with one
    attempt and exit code 0, the run row ends as success. *)
Example scenario_simple_success :
  (Run (λ _, ascending) quiet simple empty_world).1 = Ok tt ∧
  processes (Run (λ _, ascending) quiet simple empty_world).2 = ["echo hello"] ∧
  (λ tr, (tr_Name tr, tr_Status tr, tr_Attempts tr, tr_ExitCode tr)) <$>
    task_runs (Run (λ _, ascending) quiet simple empty_world).2 =
    [("a", TaskSuccess, 1%Z, Some 0%Z)] ∧
  wr_Status <$> workflow_runs (Run (λ _, ascending) quiet simple empty_world).2 =
    [StatusSuccess].
Proof. repeat split; vm_compute; reflexivity. Qed.

(** Scenario 2: [retries = 2] and a command that fails: three processes,
    three log files, one row with [attempts = 3], the run row ends as failed. *)
Example scenario_retry_exhaustion :
  (Run (λ _, ascending) quiet retry_graph empty_world).1 =
    Err (ErrTaskFailed "a" "retry" (ExitError 1)) ∧
  processes (Run (λ _, ascending) quiet retry_graph empty_world).2 =
    ["false"; "false"; "false"] ∧
  (λ tr, (tr_Name tr, tr_Status tr, tr_Attempts tr, tr_ExitCode tr)) <$>
    task_runs (Run (λ _, ascending) quiet retry_graph empty_world).2 =
    [("a", TaskFailed, 3%Z, Some 1%Z)] ∧
  size (log_files (Run (λ _, ascending) quiet retry_graph empty_world).2) = 3%nat ∧
  wr_Status <$> workflow_runs (Run (λ _, ascending) quiet retry_graph empty_world).2 =
    [StatusFailed].
Proof. repeat split; vm_compute; reflexivity. Qed.

(** Scenario 3: the diamond runs in the order [a; b; c; d], with four rows. *)
Example scenario_complex_order :
  (Run (λ _, descending) quiet diamond empty_world).1 = Ok tt ∧
  processes (Run (λ _, descending) quiet diamond empty_world).2 =
    ["echo a"; "echo b"; "echo c"; "echo d"] ∧
  tr_Name <$> task_runs (Run (λ _, descending) quiet diamond empty_world).2 =
    ["a"; "b"; "c"; "d"].
Proof. repeat split; vm_compute; reflexivity. Qed.

(** Scenario 5: the first run fails at [t1]; with the document rewritten so
    that [t1] succeeds, [resume] runs [t1] again on its old row, then [t2] on
    a new row, and the run row ends as success. *)
Example scenario_resume :
  (Run (λ _, ascending) on_disk resume_first empty_world).1 =
    Err (ErrTaskFailed "t1" "resume" (ExitError 1)) ∧
  (@resumeCmd document_externals (λ _, ascending) on_disk "run-0"
     (Run (λ _, ascending) on_disk resume_first empty_world).2).1 = Ok tt ∧
  processes
    (@resumeCmd document_externals (λ _, ascending) on_disk "run-0"
       (Run (λ _, ascending) on_disk resume_first empty_world).2).2 =
    ["exit 1"; "exit 0"; "echo ok"] ∧
  (λ tr, (tr_ID tr, tr_Name tr, tr_Status tr, tr_Attempts tr)) <$>
    task_runs
      (@resumeCmd document_externals (λ _, ascending) on_disk "run-0"
         (Run (λ _, ascending) on_disk resume_first empty_world).2).2 =
    [(1%Z, "t1", TaskSuccess, 1%Z); (2%Z, "t2", TaskSuccess, 1%Z)] ∧
  wr_Status <$>
    workflow_runs
      (@resumeCmd document_externals (λ _, ascending) on_disk "run-0"
         (Run (λ _, ascending) on_disk resume_first empty_world).2).2 =
    [StatusSuccess].
Proof. repeat split; vm_compute; reflexivity. Qed.

(** * What Validate accepts and what its errors mean *)

Lemma find_missing_None (tasks : gmap string Task) (deps : list string) :
  (∀ dep, dep ∈ deps → is_Some (tasks !! dep)) →
  List.find (λ dep, bool_decide (tasks !! dep = None)) deps = None.
Proof.
  induction deps as [|dep deps IH]; intros Hall; [done|]. cbn.
  destruct (Hall dep) as [t Ht]; [left|]. rewrite bool_decide_eq_false_2 by congruence.
  apply IH. intros dep' Hin. apply Hall. by right.
Qed.

Lemma find_missing_Some (tasks : gmap string Task) (deps : list string) dep :
  List.find (λ dep, bool_decide (tasks !! dep = None)) deps = Some dep →
  dep ∈ deps ∧ tasks !! dep = None.
Proof.
  intros [Hin Hnone]%List.find_some. split; [by apply list_elem_of_In|].
  by apply bool_decide_eq_true in Hnone.
Qed.

Lemma validateTasks_complete tasks seen entries :
  NoDup entries.*1 →
  (∀ k, k ∈ entries.*1 → k ∉ seen) →
  (∀ k t, (k, t) ∈ entries →
     taskNamePattern_MatchString k = true ∧ Cmd t ≠ "" ∧
     ∀ dep, dep ∈ DependsOn t → is_Some (tasks !! dep)) →
  validateTasks tasks seen entries = None.
Proof.
  revert seen. induction entries as [|[k t] entries IH]; intros seen Hnd Hseen Hall; [done|].
  cbn [validateTasks]. apply NoDup_cons in Hnd as [Hk Hnd].
  rewrite decide_False by (apply Hseen; left).
  destruct (Hall k t) as (-> & Hcmd & Hdeps); [left|]. cbn.
  rewrite decide_False by done. rewrite find_missing_None by done.
  apply IH; [done| |].
  - intros k' Hk' [->%elem_of_singleton|Hin]%elem_of_union; [done|].
    apply (Hseen k'); [by right|done].
  - intros k' t' Hin. apply Hall. by right.
Qed.

Lemma validateTasks_Some tasks seen entries e :
  NoDup entries.*1 →
  (∀ k, k ∈ entries.*1 → k ∉ seen) →
  validateTasks tasks seen entries = Some e →
  match e with
  | ErrInvalidTaskName k => k ∈ entries.*1 ∧ taskNamePattern_MatchString k = false
  | ErrNoCommand k => ∃ t, (k, t) ∈ entries ∧ Cmd t = ""
  | ErrMissingDependency k dep =>
      ∃ t, (k, t) ∈ entries ∧ dep ∈ DependsOn t ∧ tasks !! dep = None
  | _ => False
  end.
Proof.
  revert seen. induction entries as [|[k t] entries IH]; intros seen Hnd Hseen; [done|].
  cbn [validateTasks]. apply NoDup_cons in Hnd as [Hk Hnd].
  rewrite decide_False by (apply Hseen; left).
  destruct (taskNamePattern_MatchString k) eqn:Hname; cbn.
  2:{ intros [= <-]. split; [left|done]. }
  destruct (decide (Cmd t = "")) as [Hcmd|Hcmd].
  { intros [= <-]. exists t. split; [left|done]. }
  destruct (List.find _ _) as [dep|] eqn:Hfind.
  { intros [= <-]. apply find_missing_Some in Hfind as [Hin Hnone].
    exists t. split; [left|done]. }
  intros He. apply IH in He; [|done|].
  - destruct e; try done.
    + destruct He as [Hin ?]. split; [by right|done].
    + destruct He as (t' & Hin & ?). exists t'. split; [by right|done].
    + destruct He as (t' & Hin & ?). exists t'. split; [by right|done].
  - intros k' Hk' [->%elem_of_singleton|Hin]%elem_of_union; [done|].
    apply (Hseen k'); [by right|done].
Qed.

(** [Validate] accepts a graph, stored under the names of its tasks, exactly
    when the graph has a name and at least one task, every task name matches
    the pattern, every task has a command, every dependency names a task of
    the graph and the dependency relation is acyclic; the iteration order of
    the map has no part in it. *)
Theorem Validate_accepts_iff :
  ∀ (ρ : nat → RangeOrder) (d : DAG),
    well_keyed d → (Validate ρ d = None ↔ valid d).
Proof.
  intros ρ d Hwk. split.
  - intros Hv. pose proof Hv as (Hname & Hsize & Hclosed & Htasks & res & Hres)%Validate_None.
    split; [done|]. split; [|split; [done|split; [done|]]].
    + intros Hempty. apply Hsize. by rewrite Hempty, map_size_empty.
    + by eapply TopologicalSort_Ok_acyclic.
  - intros (Hname & Hne & Htasks & Hclosed & Hacyclic). unfold Validate.
    rewrite decide_False by done.
    rewrite decide_False by (by intros ?%map_size_empty_inv).
    rewrite validateTasks_complete.
    + destruct (TopologicalSort (later ρ) d) as [res|e] eqn:Hs; [done|].
      by destruct (TopologicalSort_Err_cyclic d Hwk _ _ Hclosed Hs).
    + apply NoDup_range_keys.
    + set_solver.
    + intros k t Hin%elem_of_range. destruct (Htasks k t Hin) as [? ?].
      split; [done|]. split; [done|]. intros dep Hdep. apply (Hclosed k dep). by exists t.
Qed.

Lemma Validate_accepts_iff_witness : Validate (λ _, descending) diamond = None ↔ valid diamond.
Proof. apply Validate_accepts_iff, graph_of_well_keyed. Defined.

(** Every error that [Validate] returns names a defect that the graph has,
    and [Validate] returns no other error than these six. *)
Theorem Validate_error_justified :
  ∀ (ρ : nat → RangeOrder) (d : DAG) (e : Error),
    Validate ρ d = Some e → justified d e.
Proof.
  intros ρ d e. unfold Validate.
  case_decide as Hname; [by intros [= <-]|].
  case_decide as Hsize; [intros [= <-]; by apply map_size_empty_inv|].
  destruct (validateTasks _ _ _) as [e'|] eqn:Hv.
  - intros [= <-]. apply validateTasks_Some in Hv; [|apply NoDup_range_keys|set_solver].
    destruct e'; try done; cbn.
    + destruct Hv as [Hin ?]. split; [|done]. by apply elem_of_range_keys in Hin.
    + destruct Hv as (t & Hin%elem_of_range & ?). eauto.
    + destruct Hv as (t & Hin%elem_of_range & ?). eauto.
  - destruct (TopologicalSort (later ρ) d) as [res|e'] eqn:Hs; [done|]. intros [= <-].
    pose proof (TopologicalSort_error _ _ _ Hs) as ->. cbn.
    pose proof (validateTasks_None _ _ _ Hv) as Hall. split.
    + intros v u (t & Ht & Hu). rewrite <-(elem_of_range (ρ 0)) in Ht.
      destruct (Hall v t Ht) as (_ & _ & Hdeps). by apply Hdeps.
    + intros Hwk. eapply TopologicalSort_Err_cyclic; [done| |done].
      intros v u (t & Ht & Hu). rewrite <-(elem_of_range (ρ 0)) in Ht.
      destruct (Hall v t Ht) as (_ & _ & Hdeps). by apply Hdeps.
Qed.

Lemma Validate_error_justified_witness :
  justified dangling (ErrMissingDependency "a" "ghost").
Proof.
  apply (Validate_error_justified (λ _, ascending) dangling). vm_compute. reflexivity.
Defined.

(** * When the sort succeeds *)

Lemma TopologicalSort_Ok_closed ρ d res :
  well_keyed d → TopologicalSort ρ d = Ok res → deps_closed d.
Proof.
  intros Hwk Hres v u (t & Ht & Hu).
  destruct (TopologicalSort_Ok d Hwk ρ res Hres) as (order & _ & Hperm & Hfirst).
  assert (t ∈ order) as [i Hi]%list_elem_of_lookup.
  { rewrite Hperm. apply list_elem_of_fmap. exists (v, t). split; [done|].
    by apply elem_of_map_to_list. }
  destruct (Hfirst i t u Hi Hu) as (j & t' & _ & Hj & Hname).
  assert (t' ∈ (map_to_list (Tasks d)).*2) as Hin.
  { rewrite <-Hperm. by eapply list_elem_of_lookup_2. }
  apply list_elem_of_fmap in Hin as ([k' t''] & -> & Hin%elem_of_map_to_list). cbn in *.
  rewrite <-Hname, (Hwk k' t'' Hin). eauto.
Qed.

(** [TopologicalSort] succeeds exactly on the graphs whose dependencies all
    name tasks of the graph and form no cycle; its only error is the cycle
    error, which therefore also stands for a missing dependency. *)
Theorem TopologicalSort_succeeds_iff :
  ∀ (ρ : nat → RangeOrder) (d : DAG),
    well_keyed d →
    ((∃ res, TopologicalSort ρ d = Ok res) ↔ deps_closed d ∧ acyclic d) ∧
    (∀ e, TopologicalSort ρ d = Err e → e = ErrCycle).
Proof.
  intros ρ d Hwk. split; [split|].
  - intros [res Hres]. split.
    + by eapply TopologicalSort_Ok_closed.
    + by eapply TopologicalSort_Ok_acyclic.
  - intros [Hclosed Hacyclic]. destruct (TopologicalSort ρ d) as [res|e] eqn:Hs; [eauto|].
    by destruct (TopologicalSort_Err_cyclic d Hwk ρ e Hclosed Hs).
  - intros e. apply TopologicalSort_error.
Qed.

Lemma TopologicalSort_succeeds_iff_witness :
  ((∃ res, TopologicalSort (λ _, ascending) dangling = Ok res) ↔
   deps_closed dangling ∧ acyclic dangling) ∧
  (∀ e, TopologicalSort (λ _, ascending) dangling = Err e → e = ErrCycle).
Proof. apply TopologicalSort_succeeds_iff, graph_of_well_keyed. Defined.

(** * Roots *)

Lemma elem_of_Roots ρ d t :
  t ∈ Roots ρ d ↔ ∃ k, Tasks d !! k = Some t ∧ DependsOn t = [].
Proof.
  unfold Roots. rewrite list_elem_of_fmap. split.
  - intros ([k t'] & -> & [Hlen Hin%elem_of_range]%list_elem_of_filter). cbn in *.
    exists k. split; [done|]. by apply length_zero_iff_nil.
  - intros (k & Ht & Hdeps). exists (k, t). split; [done|].
    apply list_elem_of_filter. split; [cbn; by rewrite Hdeps|]. by apply elem_of_range.
Qed.

Lemma first_of_order (order : list Task) t : deps_first order → order !! 0%nat = Some t → DependsOn t = [].
Proof.
  intros Hfirst H0. destruct (DependsOn t) as [|dep deps] eqn:Hdeps; [done|].
  destruct (Hfirst 0%nat t dep H0) as (j & _ & Hj & _); [rewrite Hdeps; left|lia].
Qed.

(** [Roots] returns the tasks of the graph that have no dependency, in an
    order that only the iteration order of the map decides; a graph that
    [Validate] accepts has at least one. *)
Theorem Roots_spec :
  ∀ (ρ : RangeOrder) (d : DAG),
    (∀ t, t ∈ Roots ρ d ↔ ∃ k, Tasks d !! k = Some t ∧ DependsOn t = []) ∧
    (∀ ρ', Roots ρ d ≡ₚ Roots ρ' d) ∧
    (∀ ρ', well_keyed d → Validate ρ' d = None → Roots ρ d ≠ []).
Proof.
  intros ρ d. split; [|split].
  - intros t. apply elem_of_Roots.
  - intros ρ'. unfold Roots. by rewrite !range_Permutation.
  - intros ρ' Hwk Hvalid.
    destruct (TopologicalSort_valid (λ _, ρ) ρ' d Hwk Hvalid) as (order & _ & Hperm & Hfirst).
    apply Validate_None in Hvalid as (_ & Hsize & _).
    destruct order as [|t order].
    { apply Permutation_nil in Hperm. apply fmap_nil_inv in Hperm.
      rewrite <-length_map_to_list, Hperm in Hsize. done. }
    assert (t ∈ Roots ρ d) as Hin; [|by intros Hnil; rewrite Hnil in Hin; apply elem_of_nil in Hin].
    apply elem_of_Roots.
    assert (t ∈ (map_to_list (Tasks d)).*2) as Hin by (rewrite <-Hperm; left).
    apply list_elem_of_fmap in Hin as ([k t'] & -> & Hin%elem_of_map_to_list).
    exists k. split; [done|]. by eapply (first_of_order (t' :: order)).
Qed.

Lemma Roots_spec_witness : Roots descending diamond ≠ [].
Proof.
  apply (proj2 (proj2 (Roots_spec descending diamond)) (λ _, ascending)).
  - apply graph_of_well_keyed.
  - vm_compute. reflexivity.
Defined.

(** * Every root is emitted before every other task *)

Lemma drain_names_prefix nl Q : ∀ b deg extra,
  (length Q ≤ b)%nat → ∃ rest, drain_names b nl deg (Q ++ extra) = Q ++ rest.
Proof.
  induction Q as [|n Q IH]; intros b deg extra Hb; [by eexists|].
  destruct b as [|b]; [cbn in Hb; lia|]. cbn [app drain_names].
  destruct (release_fold_sublist (get_list nl n) deg (Q ++ extra)) as (pushed & Hq & _).
  rewrite Hq, <-app_assoc.
  destruct (IH b (foldl release (deg, Q ++ extra) (get_list nl n)).1 (extra ++ pushed))
    as [rest Hrest]; [cbn in Hb; lia|].
  exists rest. cbn zeta. by rewrite Hrest.
Qed.

(** In every order that [TopologicalSort] returns, the tasks without
    dependencies come first, before every task that depends on something:
    the queue starts with all of them, and a task is only released behind
    them. *)
Theorem TopologicalSort_roots_first :
  ∀ (ρ : nat → RangeOrder) (d : DAG) (res : list (option Task)),
    well_keyed d →
    TopologicalSort ρ d = Ok res →
    ∃ roots rest : list Task,
      res = Some <$> (roots ++ rest) ∧
      Forall (λ t, DependsOn t = []) roots ∧
      Forall (λ t, DependsOn t ≠ []) rest.
Proof.
  intros ρ d res Hwk. rewrite TopologicalSort_emitted. case_decide as Hlen; [done|].
  intros [= <-].
  destruct (emitted_spec d Hwk ρ) as (Hnd & Htasks & _).
  assert (∃ rest, emitted ρ d = initQueue (ρ 3) (in_degrees d) ++ rest) as [rest Hem].
  { unfold emitted. cbn zeta. rewrite (collectEdges_in_degrees d Hwk).
    destruct (drain_names_prefix (neighborList_of ρ d) (initQueue (ρ 3) (in_degrees d))
                (loop_bound (in_degrees d) (initQueue (ρ 3) (in_degrees d)))
                (in_degrees d) []) as [rest Hrest]; [unfold loop_bound; lia|].
    rewrite app_nil_r in Hrest. eauto. }
  rewrite Hem in Hnd, Htasks |- *.
  exists (omap (λ n, Tasks d !! n) (initQueue (ρ 3) (in_degrees d))),
         (omap (λ n, Tasks d !! n) rest).
  split; [|split].
  - rewrite <-omap_app. apply fmap_omap_total. intros x Hx. by apply Htasks.
  - apply Forall_forall. intros t (n & Hn & Ht)%list_elem_of_omap.
    apply elem_of_initQueue in Hn. unfold in_degrees in Hn.
    rewrite lookup_fmap, Ht in Hn. cbn in Hn. apply length_zero_iff_nil.
    injection Hn. lia.
  - apply Forall_forall. intros t (n & Hn & Ht)%list_elem_of_omap Hdeps.
    apply NoDup_app in Hnd as (_ & Hdisj & _). apply (Hdisj n); [|done].
    apply elem_of_initQueue. unfold in_degrees. rewrite lookup_fmap, Ht. cbn. by rewrite Hdeps.
Qed.

Lemma TopologicalSort_roots_first_witness :
  ∃ roots rest : list Task,
    [Some (task "c" "echo c" [] 0); Some (task "a" "echo a" [] 0);
     Some (task "b" "echo b" ["a"] 0)] = Some <$> (roots ++ rest) ∧
    Forall (λ t, DependsOn t = []) roots ∧
    Forall (λ t, DependsOn t ≠ []) rest.
Proof.
  apply (TopologicalSort_roots_first (λ _, descending) two_roots).
  - apply graph_of_well_keyed.
  - vm_compute. reflexivity.
Defined.

(** * The plan of a dry run *)

Lemma planTasks_spec (order : list Task) : ∀ (i : nat) (acc : list TaskPlan),
  (Z.of_nat i + Z.of_nat (length order) ≤ max_int)%Z →
  ∃ tasks, planTasks (Z.of_nat i) (Some <$> order) acc = Ok (acc ++ tasks) ∧
           ∀ j, tasks !! j = plan_entry (i + j) <$> order !! j.
Proof.
  induction order as [|t order IH]; intros i acc Hmax.
  - exists []. split; [by rewrite app_nil_r|]. done.
  - cbn [fmap list_fmap planTasks]. cbn [length] in Hmax.
    replace (Z.of_nat i + 1)%Z with (Z.of_nat (S i)) by lia.
    destruct (IH (S i) (acc ++ [{| tp_Order := int_add (Z.of_nat i) 1; tp_Name := Name t;
                  tp_Cmd := Cmd t; tp_DependsOn := DependsOn t; tp_Retries := Retries t |}]))
      as (tasks & -> & Hlookup); [lia|].
    eexists (_ :: tasks). split; [by rewrite <-app_assoc|].
    intros [|j]; cbn.
    + unfold plan_entry. rewrite int_add_small, Nat.add_0_r; [done|].
      unfold min_int, max_int, int_bits in *. lia.
    + rewrite Hlookup. by rewrite Nat.add_succ_r.
Qed.

(** For a graph that [Validate] accepts, the dry run builds a plan: it
    carries the name of the workflow and one entry per task, in the order of
    [TopologicalSort], numbered from 1 with the attributes of the task, so
    that every dependency of an entry is an entry with a smaller number. *)
Theorem planRun_valid :
  ∀ (ρ ρ' : nat → RangeOrder) (d : DAG),
    well_keyed d → Validate ρ' d = None →
    (Z.of_nat (size (Tasks d)) ≤ max_int)%Z →
    ∃ (order : list Task) (plan : WorkflowPlan),
      TopologicalSort ρ d = Ok (Some <$> order) ∧
      planRun ρ d = Ok plan ∧
      wp_Workflow plan = DName d ∧
      (∀ i, wp_Tasks plan !! i = plan_entry i <$> order !! i) ∧
      (∀ p dep, p ∈ wp_Tasks plan → dep ∈ tp_DependsOn p →
         ∃ q, q ∈ wp_Tasks plan ∧ tp_Name q = dep ∧ (tp_Order q < tp_Order p)%Z).
Proof.
  intros ρ ρ' d Hwk Hvalid Hsize.
  destruct (TopologicalSort_valid ρ ρ' d Hwk Hvalid) as (order & Hsort & Hperm & Hfirst).
  assert (length order = size (Tasks d)) as Hlen.
  { by rewrite Hperm, length_fmap, length_map_to_list. }
  destruct (planTasks_spec order 0 []) as (tasks & Hplan & Hlookup); [cbn; lia|].
  exists order, {| wp_Workflow := DName d; wp_Tasks := tasks |}.
  split; [done|]. split; [|split; [done|split; [done|]]].
  - unfold planRun. rewrite Hsort. change 0%Z with (Z.of_nat 0). by rewrite Hplan.
  - cbn. intros p dep [i Hi]%list_elem_of_lookup Hdep.
    rewrite Hlookup in Hi. cbn in Hi.
    destruct (order !! i) as [t|] eqn:Ht; [|done]. injection Hi as <-.
    destruct (Hfirst i t dep Ht Hdep) as (j & t' & Hj & Ht' & Hname).
    exists (plan_entry j t'). split; [|split; [done|cbn; lia]].
    apply list_elem_of_lookup. exists j. rewrite Hlookup. cbn. by rewrite Ht'.
Qed.

Lemma planRun_valid_witness :
  ∃ (order : list Task) (plan : WorkflowPlan),
    TopologicalSort (λ _, descending) diamond = Ok (Some <$> order) ∧
    planRun (λ _, descending) diamond = Ok plan ∧
    wp_Workflow plan = DName diamond ∧
    (∀ i, wp_Tasks plan !! i = plan_entry i <$> order !! i) ∧
    (∀ p dep, p ∈ wp_Tasks plan → dep ∈ tp_DependsOn p →
       ∃ q, q ∈ wp_Tasks plan ∧ tp_Name q = dep ∧ (tp_Order q < tp_Order p)%Z).
Proof.
  apply (planRun_valid (λ _, descending) (λ _, ascending) diamond).
  - apply graph_of_well_keyed.
  - vm_compute. reflexivity.
  - vm_compute. discriminate.
Defined.

(** * The loader *)

Lemma foldl_insert_lookup {A B} (f : string → A → B) (l : list (string * A))
    (acc : gmap string B) k :
  NoDup l.*1 →
  (∀ a, (k, a) ∈ l → foldl (λ m kv, <[kv.1 := f kv.1 kv.2]> m) acc l !! k = Some (f k a)) ∧
  (k ∉ l.*1 → foldl (λ m kv, <[kv.1 := f kv.1 kv.2]> m) acc l !! k = acc !! k).
Proof.
  revert acc. induction l as [|[k' a'] l IH]; intros acc Hnd; cbn.
  { split; [by intros a ?%elem_of_nil|done]. }
  apply NoDup_cons in Hnd as [Hk' Hnd]. destruct (IH (<[k' := f k' a']> acc) Hnd) as [IH1 IH2].
  split.
  - intros a [[= -> ->]|Hin]%elem_of_cons.
    + rewrite IH2 by done. by rewrite lookup_insert_eq.
    + by apply IH1.
  - intros [Hne Hnin]%not_elem_of_cons. rewrite IH2 by done. by rewrite lookup_insert_ne.
Qed.

Section loader_spec.
Context `{!Externals}.

(** [parseWorkflow] fails on a document that cannot be decoded or has no
    name; otherwise the graph has the name of the document and, under every
    name of the document and no other, the task built from its entry. *)
Theorem parseWorkflow_spec :
  ∀ (ρ : nat → RangeOrder) (data : list Byte.byte),
    match toml_Unmarshal data with
    | None => parseWorkflow ρ data = Err ErrUnmarshal
    | Some wf =>
        if decide (raw_Name wf = "") then parseWorkflow ρ data = Err ErrNameRequired
        else ∃ d, parseWorkflow ρ data = Ok d ∧ DName d = raw_Name wf ∧
                  ∀ k, Tasks d !! k = task_of_raw k <$> raw_Tasks wf !! k
    end.
Proof.
  intros ρ data. unfold parseWorkflow. destruct (toml_Unmarshal data) as [wf|]; [|done].
  case_decide; [done|]. eexists. split; [done|]. split; [done|]. intros k. cbn.
  destruct (foldl_insert_lookup task_of_raw (range (ρ 0) (raw_Tasks wf)) ∅ k) as [H1 H2].
  { apply NoDup_range_keys. }
  destruct (raw_Tasks wf !! k) as [r|] eqn:Hk; cbn.
  - apply (H1 r). by apply elem_of_range.
  - rewrite <-(lookup_empty (M := gmap string) (A := Task) k). apply H2.
    rewrite elem_of_range_keys, Hk. by intros [? ?].
Qed.

End loader_spec.

(** * The suffix of a workflow path *)

Lemma String_app_cons c (s t : string) : String c s +:+ t = String c (s +:+ t).
Proof. reflexivity. Qed.

Lemma String_length_app (s t : string) :
  String.length (s +:+ t) = (String.length s + String.length t)%nat.
Proof. induction s as [|c s IH]; [done|]. rewrite String_app_cons. cbn. f_equal. apply IH. Qed.

Lemma substring_all (s : string) : String.substring 0 (String.length s) s = s.
Proof. induction s as [|c s IH]; [done|]. cbn. f_equal. apply IH. Qed.

Lemma substring_app_l (s t : string) : String.substring 0 (String.length s) (s +:+ t) = s.
Proof.
  induction s as [|c s IH]; [by destruct t|]. rewrite String_app_cons. cbn. f_equal. apply IH.
Qed.

Lemma substring_app_r (s t : string) :
  String.substring (String.length s) (String.length t) (s +:+ t) = t.
Proof.
  induction s as [|c s IH]; [apply substring_all|]. rewrite String_app_cons. cbn. apply IH.
Qed.

Lemma TrimSuffix_app (s suffix : string) : TrimSuffix (s +:+ suffix) suffix = s.
Proof.
  unfold TrimSuffix. rewrite String_length_app.
  rewrite bool_decide_eq_true_2 by lia.
  replace (String.length s + String.length suffix - String.length suffix)%nat
    with (String.length s) by lia.
  by rewrite substring_app_r, String.eqb_refl, substring_app_l.
Qed.

Section load.
Context `{!Externals}.

(** The suffix [.toml] of the argument of [Load] is optional: a path that
    does not end in [.toml] names the same workflow with and without it. *)
Theorem Load_suffix_optional :
  ∀ (ρ : nat → RangeOrder) (env : Env) (path : string),
    TrimSuffix path ".toml" = path →
    dag_Load ρ env (path +:+ ".toml") = dag_Load ρ env path.
Proof.
  intros ρ env path Hpath. unfold dag_Load. by rewrite TrimSuffix_app, Hpath.
Qed.

(** A graph that [Load] or [LoadFromString] returns is stored under the names
    of its tasks, passes every check of [Validate], and is sorted by
    [TopologicalSort] under every iteration order: the callers that sort a
    loaded graph never see the cycle error. *)
Theorem Load_valid :
  ∀ (ρ : nat → RangeOrder) (d : DAG),
    (∃ data, LoadFromString ρ data = Ok d) ∨ (∃ env path, dag_Load ρ env path = Ok d) →
    well_keyed d ∧ valid d ∧
    ∀ ρ' : nat → RangeOrder,
      ∃ order : list Task,
        TopologicalSort ρ' d = Ok (Some <$> order) ∧
        order ≡ₚ (map_to_list (Tasks d)).*2 ∧ deps_first order.
Proof.
  intros ρ d Hload.
  assert (well_keyed d ∧ Validate (later ρ) d = None) as [Hwk Hvalid].
  { destruct Hload as [[data Hload]|(env & path & Hload)].
    - split; [by eapply LoadFromString_well_keyed|].
      unfold LoadFromString in Hload. destruct (parseWorkflow ρ data); [|done].
      destruct (Validate _ _) eqn:Hv; [done|]. by injection Hload as <-.
    - split; [by eapply dag_Load_well_keyed|by eapply dag_Load_valid]. }
  split; [done|]. split.
  - pose proof Hvalid as (Hname & Hsize & Hclosed & Htasks & res & Hres)%Validate_None.
    split; [done|]. split; [|split; [done|split; [done|]]].
    + intros Hempty. apply Hsize. by rewrite Hempty, map_size_empty.
    + by eapply TopologicalSort_Ok_acyclic.
  - intros ρ'. by eapply TopologicalSort_valid.
Qed.

End load.

Lemma Load_suffix_optional_witness :
  @dag_Load document_externals (λ _, ascending) on_disk ("resume" +:+ ".toml") =
  @dag_Load document_externals (λ _, ascending) on_disk "resume".
Proof. apply Load_suffix_optional. reflexivity. Defined.

Lemma Load_valid_witness :
  well_keyed (graph_of "resume" [task "t1" "exit 0" [] 0; task "t2" "echo ok" ["t1"] 0]) ∧
  valid (graph_of "resume" [task "t1" "exit 0" [] 0; task "t2" "echo ok" ["t1"] 0]) ∧
  ∀ ρ' : nat → RangeOrder,
    ∃ order : list Task,
      TopologicalSort ρ'
        (graph_of "resume" [task "t1" "exit 0" [] 0; task "t2" "echo ok" ["t1"] 0]) =
        Ok (Some <$> order) ∧
      order ≡ₚ (map_to_list (Tasks
        (graph_of "resume" [task "t1" "exit 0" [] 0; task "t2" "echo ok" ["t1"] 0]))).*2 ∧
      deps_first order.
Proof.
  apply (@Load_valid document_externals (λ _, ascending)).
  right. exists on_disk, "resume". vm_compute. reflexivity.
Defined.

(** * The errors of the executor *)

Lemma raises_ret {A} P (a : A) : raises P (ret a).
Proof. by intros w e. Qed.

Lemma raises_fail {A} (P : Error → Prop) e : P e → raises P (@fail A e).
Proof. by intros He w e' [= <-]. Qed.

Lemma raises_bind {A B} P (m : M A) (f : A → M B) :
  raises P m → (∀ a, raises P (f a)) → raises P (bind m f).
Proof.
  intros Hm Hf w e. unfold bind. specialize (Hm w).
  destruct (m w) as [[a|e'] w1]; [apply Hf|].
  cbn in *. intros [= ->]. by apply Hm.
Qed.

Lemma raises_ignore {A} P (m : M A) : raises P (ignore m).
Proof. by intros w e. Qed.

Lemma raises_time_Now P : raises P time_Now.
Proof. by intros w e. Qed.

Lemma raises_ctx_done P env : raises P (ctx_done env).
Proof. by intros w e. Qed.

Lemma raises_CombinedOutput P env cmd : raises P (CombinedOutput env cmd).
Proof. by intros w e. Qed.

Lemma raises_WriteFile P path out : raises P (WriteFile path out).
Proof. by intros w e. Qed.

Lemma raises_MkdirAll (P : Error → Prop) env dir : P ErrMkdirAll → raises P (MkdirAll env dir).
Proof. intros HP w e. unfold MkdirAll. destruct (mkdir_fault _ _); [by intros [= <-]|done]. Qed.

Lemma raises_SaveTaskRun (P : Error → Prop) env tr :
  P (ErrStore OpSaveTaskRun) → raises P (SaveTaskRun env tr).
Proof.
  intros HP w e. unfold SaveTaskRun. destruct (store_fault _ _ _); [by intros [= <-]|done].
Qed.

Lemma raises_NewWorkflowRun (P : Error → Prop) env workflow hash :
  P (ErrStore OpNewWorkflowRun) → raises P (NewWorkflowRun env workflow hash).
Proof.
  intros HP w e. unfold NewWorkflowRun. destruct (_ || _); [by intros [= <-]|done].
Qed.

Lemma raises_checkCancelled (P : Error → Prop) env wr :
  P ErrCancelled → raises P (checkCancelled env wr).
Proof.
  intros HP. unfold checkCancelled. apply raises_bind; [apply raises_ctx_done|].
  intros [|]; [|apply raises_ret].
  apply raises_bind; [apply raises_time_Now|]. intros now.
  apply raises_bind; [apply raises_ignore|]. intros _. by apply raises_fail.
Qed.

Lemma raises_attemptLoop (P : Error → Prop) env b workflow t wr tr attempt :
  P ErrMkdirAll → (∀ cause, P (ErrTaskFailed (Name t) workflow cause)) →
  raises P (attemptLoop env b workflow t wr tr attempt).
Proof.
  intros Hmkdir Hfailed. revert tr attempt.
  induction b as [|b IH]; intros tr attempt; cbn [attemptLoop]; [apply raises_ret|].
  destruct (attempt <=? _)%Z; [|apply raises_ret].
  apply raises_bind; [apply raises_CombinedOutput|]. intros res.
  apply raises_bind; [by apply raises_MkdirAll|]. intros _.
  apply raises_bind; [apply raises_WriteFile|]. intros _.
  apply raises_bind; [apply raises_ignore|]. intros _.
  destruct res.2 as [err|].
  - destruct (attempt =? _)%Z; [|apply IH].
    apply raises_bind; [apply raises_time_Now|]. intros now.
    apply raises_bind; [apply raises_ignore|]. intros _.
    apply raises_bind; [apply raises_ignore|]. intros _.
    by apply raises_fail.
  - apply raises_bind; [apply raises_time_Now|]. intros now.
    apply raises_bind; [apply raises_ignore|]. intros _. apply raises_ret.
Qed.

Lemma raises_runTasks d env order :
  (∀ t, t ∈ order → is_Some (Tasks d !! Name t)) →
  ∀ wr, raises (task_error d) (runTasks env (DName d) wr (Some <$> order)).
Proof.
  induction order as [|t order IH]; intros Hin wr; cbn [fmap list_fmap runTasks];
    [apply raises_ret|].
  apply raises_bind; [|intros _; apply IH; intros t' Ht'; apply Hin; by right].
  unfold runTask.
  apply raises_bind; [by apply raises_checkCancelled|]. intros _.
  apply raises_bind; [apply raises_time_Now|]. intros now.
  apply raises_bind; [by apply raises_SaveTaskRun|]. intros tr.
  apply raises_bind; [|intros ?; apply raises_ret].
  apply raises_attemptLoop; [done|]. intros cause. split; [done|]. apply Hin. left.
Qed.

Lemma raises_resumeTasks d env order :
  (∀ t, t ∈ order → is_Some (Tasks d !! Name t)) →
  ∀ wr, raises (λ e, e = ErrStore OpGetTaskRun ∨ task_error d e)
               (resumeTasks env (DName d) wr (Some <$> order)).
Proof.
  induction order as [|t order IH]; intros Hin wr; cbn [fmap list_fmap resumeTasks];
    [apply raises_ret|].
  apply raises_bind; [|intros _; apply IH; intros t' Ht'; apply Hin; by right].
  assert (∀ tr, raises (λ e, e = ErrStore OpGetTaskRun ∨ task_error d e)
                  (bind (attemptLoop env (attempts_bound t) (DName d) t wr tr 1)
                        (λ _, ret tt))) as Hloop.
  { intros tr. apply raises_bind; [|intros ?; apply raises_ret].
    apply raises_attemptLoop; [by right|]. intros cause. right. split; [done|].
    apply Hin. left. }
  intros w e. cbn [resumeTask]. unfold GetTaskRun.
  destruct (store_fault _ _ _); [intros [= <-]; by left|].
  destruct (List.find _ _) as [tr|].
  - case_decide; [done|].
    assert (raises (λ e, e = ErrStore OpGetTaskRun ∨ task_error d e)
        (bind (checkCancelled env wr)
           (λ _, bind (attemptLoop env (attempts_bound t) (DName d) t wr tr 1)
                      (λ _, ret tt)))) as Hk; [|apply Hk].
    apply raises_bind; [apply raises_checkCancelled; by right|]. intros _. apply Hloop.
  - assert (raises (λ e, e = ErrStore OpGetTaskRun ∨ task_error d e)
        (bind (checkCancelled env wr)
           (λ _, bind time_Now (λ now,
              bind (SaveTaskRun env (new_TaskRun wr t now)) (λ tr,
                bind (attemptLoop env (attempts_bound t) (DName d) t wr tr 1)
                     (λ _, ret tt)))))) as Hk; [|apply Hk].
    apply raises_bind; [apply raises_checkCancelled; by right|]. intros _.
    apply raises_bind; [apply raises_time_Now|]. intros now.
    apply raises_bind; [apply raises_SaveTaskRun; by right|]. intros tr. apply Hloop.
Qed.

Lemma order_tasks d (order : list Task) :
  well_keyed d → order ≡ₚ (map_to_list (Tasks d)).*2 →
  ∀ t, t ∈ order → is_Some (Tasks d !! Name t).
Proof.
  intros Hwk Hperm t Hin. rewrite Hperm in Hin.
  apply list_elem_of_fmap in Hin as ([k t'] & -> & Hin%elem_of_map_to_list). cbn.
  rewrite (Hwk k t' Hin). eauto.
Qed.

Section executor_errors.
Context `{!Externals}.

(** The errors of [Run] on a graph stored under the names of its tasks: the
    error of the hash, of the insertion of the run row or of a task row, the
    cycle error wrapped as a sort error, the cancellation, a failure of
    [MkdirAll], or the failure of a task of the graph reported with the name
    of the workflow.  No error of an UPDATE, no other error. *)
Theorem Run_errors :
  ∀ (ρ : nat → RangeOrder) (env : Env) (d : DAG) (w : World) (e : Error),
    well_keyed d → (Run ρ env d w).1 = Err e → run_error d e.
Proof.
  intros ρ env d w e Hwk. unfold Run, ComputeHash.
  assert (raises (run_error d)
    (let* dagHash := lift match json_Marshal (snapshot (ρ 0) d) with
                          | Some data => Ok (hex_EncodeToString (sha256_Sum256 data))
                          | None => Err ErrMarshal
                          end in
     let* wr := NewWorkflowRun env (DName d) dagHash in
     match TopologicalSort (later ρ) d with
     | Ok order => let* _ := runTasks env (DName d) wr order in finishRun env wr
     | Err e => sortFailed env wr e
     end)) as Hraises; [|apply Hraises].
  apply raises_bind.
  { destruct (json_Marshal _); [by intros ? ?|]. by intros ? ? [= <-]. }
  intros hash. apply raises_bind; [by apply raises_NewWorkflowRun|]. intros wr.
  destruct (TopologicalSort (later ρ) d) as [res|e'] eqn:Hs.
  - destruct (TopologicalSort_Ok d Hwk _ _ Hs) as (order & -> & Hperm & _).
    apply raises_bind.
    + intros w' e' He'. apply (raises_runTasks d env order) in He'.
      * by destruct e' as [| | | | | | | | | | |[]| | | | | | | | | | | ].
      * by apply order_tasks.
    + intros _. unfold finishRun.
      apply raises_bind; [apply raises_time_Now|]. intros now.
      apply raises_bind; [apply raises_ignore|]. intros _. apply raises_ret.
  - apply TopologicalSort_error in Hs as ->. unfold sortFailed.
    apply raises_bind; [apply raises_time_Now|]. intros now.
    apply raises_bind; [apply raises_ignore|]. intros _. by apply raises_fail.
Qed.

(** The errors of [Resume]: the error of [Load], wrapped; an error of
    [GetTaskRun] other than no-rows; or, for the graph that was loaded, the
    cancellation, an error of [SaveTaskRun] or [MkdirAll], or the failure of
    one of its tasks.  [Resume] never returns the sort error: its branch for
    a failing [TopologicalSort] is never taken, because [Load] has validated
    the graph. *)
Theorem Resume_errors :
  ∀ (ρ : nat → RangeOrder) (env : Env) (wr : WorkflowRun) (w : World) (e : Error),
    (Resume ρ env wr w).1 = Err e → resume_error ρ env wr e.
Proof.
  intros ρ env wr w e. unfold Resume.
  destruct (dag_Load ρ env (wr_Workflow wr)) as [d|e'] eqn:Hload.
  2:{ intros [= <-]. cbn. by rewrite Hload. }
  pose proof (dag_Load_well_keyed _ _ _ _ Hload) as Hwk.
  pose proof (dag_Load_valid _ _ _ _ Hload) as Hvalid.
  destruct (TopologicalSort_valid (skip 6 ρ) (later ρ) d Hwk Hvalid)
    as (order & -> & Hperm & _).
  intros He.
  assert (e = ErrStore OpGetTaskRun ∨ task_error d e) as [->|Herr].
  { revert He. apply (raises_bind (λ e, e = ErrStore OpGetTaskRun ∨ task_error d e)).
    - apply raises_resumeTasks. by apply order_tasks.
    - intros _. unfold finishRun.
      apply raises_bind; [apply raises_time_Now|]. intros now.
      apply raises_bind; [apply raises_ignore|]. intros _. apply raises_ret. }
  - done.
  - unfold resume_error. rewrite Hload.
    destruct e as [| | | | | | | | | | |[]| | | | | | | | | | | ]; try done; eauto.
Qed.

End executor_errors.

Lemma Run_errors_witness :
  run_error retry_graph (ErrTaskFailed "a" "retry" (ExitError 1)).
Proof.
  apply (Run_errors (λ _, ascending) quiet retry_graph empty_world).
  - apply graph_of_well_keyed.
  - vm_compute. reflexivity.
Defined.

Lemma Resume_errors_witness :
  @resume_error toy_externals (λ _, ascending) quiet first_run
    (ErrLoadWorkflow "retry" (ErrReadFile "workflows/retry.toml")).
Proof.
  apply (@Resume_errors toy_externals (λ _, ascending) quiet first_run empty_world).
  vm_compute. reflexivity.
Defined.

(** * The store: what is written is what is read *)

Lemma find_app_None {A} (f : A → bool) (l l' : list A) :
  List.find f l = None → List.find f (l ++ l') = List.find f l'.
Proof. induction l as [|x l IH]; cbn; [done|]. destruct (f x); [done|apply IH]. Qed.

Lemma find_app_Some {A} (f : A → bool) (l l' : list A) x :
  List.find f l = Some x → List.find f (l ++ l') = Some x.
Proof. induction l as [|y l IH]; cbn; [done|]. destruct (f y); [done|apply IH]. Qed.

Lemma find_fmap {A} (f : A → bool) (g : A → A) (l : list A) :
  (∀ x, f (g x) = f x) → List.find f (g <$> l) = g <$> List.find f l.
Proof.
  intros Hfg. induction l as [|x l IH]; cbn; [done|]. rewrite Hfg.
  destruct (f x); [done|apply IH].
Qed.

Lemma find_fresh (rows : list WorkflowRun) id :
  id ∉ wr_ID <$> rows → List.find (λ r, bool_decide (wr_ID r = id)) rows = None.
Proof.
  induction rows as [|r rows IH]; cbn; [done|].
  rewrite not_elem_of_cons. intros [Hne Hnin]. rewrite bool_decide_eq_false_2 by congruence.
  by apply IH.
Qed.

Lemma find_run_None (rows : list WorkflowRun) id :
  List.find (λ r, bool_decide (wr_ID r = id)) rows = None → id ∉ wr_ID <$> rows.
Proof.
  induction rows as [|r rows IH]; cbn; [intros _; apply not_elem_of_nil|].
  case_bool_decide as Hid; [done|]. intros Hnone. apply not_elem_of_cons.
  split; [congruence|by apply IH].
Qed.

Lemma wr_ID_update_run run r : wr_ID (update_run run r) = wr_ID r.
Proof. unfold update_run. by case_decide. Qed.

Lemma tr_ID_update_task task r : tr_ID (update_task task r) = tr_ID r.
Proof. unfold update_task. by case_decide. Qed.

(** A run row that [NewWorkflowRun] has inserted is what [Load] returns for
    its id, attribute by attribute, and the rows of the other runs are read
    as before; when the new id is already taken, [NewWorkflowRun] returns an
    error and overwrites nothing. *)
Theorem NewWorkflowRun_Load :
  ∀ (env : Env) (workflow dagHash : string) (w : World),
    store_fault env OpNewWorkflowRun (clock w) = false →
    (uuid_New env (clock w) ∉ wr_ID <$> workflow_runs w →
     store_fault env OpLoad (S (clock w)) = false →
     ∃ (run : WorkflowRun) (w1 : World),
       NewWorkflowRun env workflow dagHash w = (Ok run, w1) ∧
       wr_ID run = uuid_New env (clock w) ∧
       wr_Workflow run = workflow ∧ wr_WorkflowHash run = dagHash ∧
       wr_Status run = StatusRunning ∧ wr_EndedAt run = None ∧
       Store_Load env (wr_ID run) w1 = (Ok run, tick w1) ∧
       ∀ id, id ≠ wr_ID run → run_row w1 id = run_row w id) ∧
    (uuid_New env (clock w) ∈ wr_ID <$> workflow_runs w →
     NewWorkflowRun env workflow dagHash w = (Err (ErrStore OpNewWorkflowRun), tick w)).
Proof.
  intros env workflow hash w Hfault. unfold NewWorkflowRun. rewrite Hfault. cbn [orb]. split.
  - intros Hfresh Hload. rewrite bool_decide_eq_false_2 by done.
    eexists _, _. split; [reflexivity|]. cbn. repeat split.
    + unfold Store_Load. cbn. rewrite Hload.
      rewrite find_app_None by (by apply find_fresh). cbn.
      by rewrite bool_decide_eq_true_2.
    + intros id Hid. unfold run_row. cbn.
      destruct (List.find _ (workflow_runs w)) as [r|] eqn:Hfind.
      * by erewrite find_app_Some.
      * rewrite find_app_None by done. cbn. by rewrite bool_decide_eq_false_2.
  - intros Htaken. by rewrite bool_decide_eq_true_2.
Qed.

Lemma NewWorkflowRun_Load_witness :
  ∃ (run : WorkflowRun) (w1 : World),
    NewWorkflowRun quiet "retry" "e3b0c442" empty_world = (Ok run, w1) ∧
    wr_ID run = uuid_New quiet (clock empty_world) ∧
    wr_Workflow run = "retry" ∧ wr_WorkflowHash run = "e3b0c442" ∧
    wr_Status run = StatusRunning ∧ wr_EndedAt run = None ∧
    Store_Load quiet (wr_ID run) w1 = (Ok run, tick w1) ∧
    ∀ id, id ≠ wr_ID run → run_row w1 id = run_row empty_world id.
Proof.
  apply (proj1 (NewWorkflowRun_Load quiet "retry" "e3b0c442" empty_world eq_refl)).
  - cbn. apply not_elem_of_nil.
  - reflexivity.
Defined.

(** [Update] rewrites status, end time, exit code and meta of the row with
    the id of its argument and nothing else: the other columns of that row
    and the rows of the other runs are read as before, and an id that is not
    stored is no error and changes nothing. *)
Theorem Update_Load :
  ∀ (env : Env) (run : WorkflowRun) (w : World),
    store_fault env OpUpdate (clock w) = false →
    ∃ w1 : World,
      Update env run w = (Ok tt, w1) ∧
      (∀ r, run_row w (wr_ID run) = Some r →
         run_row w1 (wr_ID run) =
         Some {| wr_ID := wr_ID r; wr_Workflow := wr_Workflow r;
                 wr_WorkflowHash := wr_WorkflowHash r; wr_Status := wr_Status run;
                 wr_StartedAt := wr_StartedAt r; wr_EndedAt := wr_EndedAt run;
                 wr_ExitCode := wr_ExitCode run; wr_Meta := wr_Meta run;
                 wr_CreatedAt := wr_CreatedAt r |}) ∧
      (∀ id, id ≠ wr_ID run → run_row w1 id = run_row w id) ∧
      (run_row w (wr_ID run) = None → workflow_runs w1 = workflow_runs w) ∧
      task_runs w1 = task_runs w ∧ processes w1 = processes w.
Proof.
  intros env run w Hfault. rewrite Update_ok by done. eexists. split; [reflexivity|].
  assert (∀ id, run_row (with_workflow_runs (update_run run <$> workflow_runs w) (tick w)) id
                = update_run run <$> run_row w id) as Hrow.
  { intros id. unfold run_row. cbn. apply find_fmap. intros r. by rewrite wr_ID_update_run. }
  split; [|split; [|split; [|done]]].
  - intros r Hr. rewrite Hrow, Hr. cbn. unfold update_run. rewrite decide_True; [done|].
    unfold run_row in Hr. apply List.find_some in Hr as [_ Hid].
    by apply bool_decide_eq_true in Hid.
  - intros id Hid. rewrite Hrow. destruct (run_row w id) as [r|] eqn:Hr; [|done]. cbn.
    unfold update_run. rewrite decide_False; [done|].
    unfold run_row in Hr. apply List.find_some in Hr as [_ Hid'].
    apply bool_decide_eq_true in Hid'. congruence.
  - intros Hnone. cbn. apply update_run_fresh. by apply find_run_None.
Qed.

Lemma Update_Load_witness :
  ∃ w1 : World,
    Update quiet (wr_finish StatusFailed 7 first_run) finished_world = (Ok tt, w1) ∧
    (∀ r, run_row finished_world (wr_ID (wr_finish StatusFailed 7 first_run)) = Some r →
       run_row w1 (wr_ID (wr_finish StatusFailed 7 first_run)) =
       Some {| wr_ID := wr_ID r; wr_Workflow := wr_Workflow r;
               wr_WorkflowHash := wr_WorkflowHash r;
               wr_Status := wr_Status (wr_finish StatusFailed 7 first_run);
               wr_StartedAt := wr_StartedAt r;
               wr_EndedAt := wr_EndedAt (wr_finish StatusFailed 7 first_run);
               wr_ExitCode := wr_ExitCode (wr_finish StatusFailed 7 first_run);
               wr_Meta := wr_Meta (wr_finish StatusFailed 7 first_run);
               wr_CreatedAt := wr_CreatedAt r |}) ∧
    (∀ id, id ≠ wr_ID (wr_finish StatusFailed 7 first_run) →
       run_row w1 id = run_row finished_world id) ∧
    (run_row finished_world (wr_ID (wr_finish StatusFailed 7 first_run)) = None →
     workflow_runs w1 = workflow_runs finished_world) ∧
    task_runs w1 = task_runs finished_world ∧ processes w1 = processes finished_world.
Proof. apply (Update_Load quiet (wr_finish StatusFailed 7 first_run) finished_world). reflexivity. Defined.

(** A task row that [SaveTaskRun] has inserted gets the next id of the
    table, is appended with its other attributes as given, and is what
    [GetTaskRun] returns for its run and name when no row for them existed. *)
Theorem SaveTaskRun_GetTaskRun :
  ∀ (env : Env) (task : TaskRun) (w : World),
    store_fault env OpSaveTaskRun (clock w) = false →
    store_fault env OpGetTaskRun (S (clock w)) = false →
    task_row w (tr_RunID task) (tr_Name task) = None →
    ∃ w1 : World,
      SaveTaskRun env task w = (Ok (tr_set_ID (task_seq w + 1) task), w1) ∧
      task_runs w1 = task_runs w ++ [tr_set_ID (task_seq w + 1) task] ∧
      workflow_runs w1 = workflow_runs w ∧
      GetTaskRun env (tr_RunID task) (tr_Name task) w1 =
        (Ok (tr_set_ID (task_seq w + 1) task), tick w1).
Proof.
  intros env task w Hsave Hget Hnone. rewrite SaveTaskRun_ok by done.
  eexists. split; [reflexivity|]. split; [done|]. split; [done|].
  unfold GetTaskRun. cbn. rewrite Hget. unfold task_row in Hnone.
  rewrite find_app_None by done. cbn. by rewrite bool_decide_eq_true_2.
Qed.

Lemma SaveTaskRun_GetTaskRun_witness :
  ∃ w1 : World,
    SaveTaskRun quiet (new_TaskRun first_run failing_task 0) empty_world =
      (Ok (tr_set_ID (task_seq empty_world + 1) (new_TaskRun first_run failing_task 0)), w1) ∧
    task_runs w1 =
      task_runs empty_world ++
      [tr_set_ID (task_seq empty_world + 1) (new_TaskRun first_run failing_task 0)] ∧
    workflow_runs w1 = workflow_runs empty_world ∧
    GetTaskRun quiet (tr_RunID (new_TaskRun first_run failing_task 0))
      (tr_Name (new_TaskRun first_run failing_task 0)) w1 =
      (Ok (tr_set_ID (task_seq empty_world + 1) (new_TaskRun first_run failing_task 0)),
       tick w1).
Proof.
  apply (SaveTaskRun_GetTaskRun quiet (new_TaskRun first_run failing_task 0) empty_world);
    reflexivity.
Defined.

(** * What every step of the executor keeps *)

Section steps.
Context (R : relation World) `{!PreOrder R}.
Context (R_tick : ∀ w, R w (tick w)).
Context (R_process : ∀ cmd w, R w (with_process cmd w)).
Context (R_log : ∀ path out w, R w (with_log_file path out w)).
Context (R_Update : ∀ env r w, R w (Update env r w).2).
Context (R_SaveTaskRun : ∀ env tr w, R w (SaveTaskRun env tr w).2).
Context (R_UpdateTaskRun : ∀ env tr w, R w (UpdateTaskRun env tr w).2).
Context (R_NewWorkflowRun : ∀ env workflow hash w, R w (NewWorkflowRun env workflow hash w).2).

Lemma steps_ret {A} (a : A) : steps R (ret a).
Proof. intros w. reflexivity. Qed.

Lemma steps_fail {A} e : steps R (@fail A e).
Proof. intros w. reflexivity. Qed.

Lemma steps_lift {A} (r : result A) : steps R (lift r).
Proof. intros w. reflexivity. Qed.

Lemma steps_bind {A B} (m : M A) (f : A → M B) :
  steps R m → (∀ a, steps R (f a)) → steps R (bind m f).
Proof.
  intros Hm Hf w. unfold bind. specialize (Hm w).
  destruct (m w) as [[a|e] w1]; cbn in *; [|done]. etrans; [done|apply Hf].
Qed.

Lemma steps_ignore {A} (m : M A) : steps R m → steps R (ignore m).
Proof. intros Hm w. apply Hm. Qed.

Lemma steps_time_Now : steps R time_Now.
Proof. intros w. reflexivity. Qed.

Lemma steps_ctx_done env : steps R (ctx_done env).
Proof. intros w. reflexivity. Qed.

Lemma steps_CombinedOutput env cmd : steps R (CombinedOutput env cmd).
Proof. intros w. cbn. etrans; [apply R_tick|apply R_process]. Qed.

Lemma steps_MkdirAll env dir : steps R (MkdirAll env dir).
Proof. intros w. unfold MkdirAll. destruct (mkdir_fault _ _); apply R_tick. Qed.

Lemma steps_WriteFile path out : steps R (WriteFile path out).
Proof. intros w. apply R_log. Qed.

Lemma steps_GetTaskRun env runID name : steps R (GetTaskRun env runID name).
Proof. intros w. rewrite GetTaskRun_world. apply R_tick. Qed.

Lemma steps_checkCancelled env wr : steps R (checkCancelled env wr).
Proof.
  unfold checkCancelled. apply steps_bind; [apply steps_ctx_done|]. intros [|]; [|apply steps_ret].
  apply steps_bind; [apply steps_time_Now|]. intros now.
  apply steps_bind; [apply steps_ignore; intros w; apply R_Update|]. intros _. apply steps_fail.
Qed.

Lemma steps_attemptLoop env b workflow t wr tr attempt :
  steps R (attemptLoop env b workflow t wr tr attempt).
Proof.
  revert tr attempt. induction b as [|b IH]; intros tr attempt; cbn [attemptLoop];
    [apply steps_ret|].
  destruct (attempt <=? _)%Z; [|apply steps_ret].
  apply steps_bind; [apply steps_CombinedOutput|]. intros res.
  apply steps_bind; [apply steps_MkdirAll|]. intros _.
  apply steps_bind; [apply steps_WriteFile|]. intros _.
  apply steps_bind; [apply steps_ignore; intros w; apply R_UpdateTaskRun|]. intros _.
  destruct res.2 as [err|].
  - destruct (attempt =? _)%Z; [|apply IH].
    apply steps_bind; [apply steps_time_Now|]. intros now.
    apply steps_bind; [apply steps_ignore; intros w; apply R_UpdateTaskRun|]. intros _.
    apply steps_bind; [apply steps_ignore; intros w; apply R_Update|]. intros _.
    apply steps_fail.
  - apply steps_bind; [apply steps_time_Now|]. intros now.
    apply steps_bind; [apply steps_ignore; intros w; apply R_UpdateTaskRun|]. intros _.
    apply steps_ret.
Qed.

Lemma steps_runTasks env workflow wr order : steps R (runTasks env workflow wr order).
Proof.
  induction order as [|t order IH]; cbn [runTasks]; [apply steps_ret|].
  apply steps_bind; [|by intros _]. destruct t as [t|]; cbn [runTask]; [|apply steps_fail].
  apply steps_bind; [apply steps_checkCancelled|]. intros _.
  apply steps_bind; [apply steps_time_Now|]. intros now.
  apply steps_bind; [intros w; apply R_SaveTaskRun|]. intros tr.
  apply steps_bind; [apply steps_attemptLoop|]. intros _. apply steps_ret.
Qed.

Lemma steps_resumeTask env workflow wr t : steps R (resumeTask env workflow wr t).
Proof.
  destruct t as [t|]; cbn [resumeTask]; [|apply steps_fail]. intros w.
  pose proof (steps_GetTaskRun env (wr_ID wr) (Name t) w) as Hget.
  destruct (GetTaskRun env (wr_ID wr) (Name t) w) as [[tr|e] w1]; cbn in Hget.
  - case_decide; [done|]. etrans; [done|].
    assert (steps R (bind (checkCancelled env wr)
              (λ _, bind (attemptLoop env (attempts_bound t) workflow t wr tr 1)
                         (λ _, ret tt)))) as Hk; [|apply Hk].
    apply steps_bind; [apply steps_checkCancelled|]. intros _.
    apply steps_bind; [apply steps_attemptLoop|]. intros _. apply steps_ret.
  - assert (steps R (bind (checkCancelled env wr)
              (λ _, bind time_Now (λ now,
                 bind (SaveTaskRun env (new_TaskRun wr t now)) (λ tr,
                   bind (attemptLoop env (attempts_bound t) workflow t wr tr 1)
                        (λ _, ret tt)))))) as Hk.
    { apply steps_bind; [apply steps_checkCancelled|]. intros _.
      apply steps_bind; [apply steps_time_Now|]. intros now.
      apply steps_bind; [intros w'; apply R_SaveTaskRun|]. intros tr.
      apply steps_bind; [apply steps_attemptLoop|]. intros _. apply steps_ret. }
    destruct e; try done; etrans; [done|apply Hk].
Qed.

Lemma steps_resumeTasks env workflow wr order : steps R (resumeTasks env workflow wr order).
Proof.
  induction order as [|t order IH]; cbn [resumeTasks]; [apply steps_ret|].
  apply steps_bind; [apply steps_resumeTask|by intros _].
Qed.

Lemma steps_sortFailed env wr e : steps R (sortFailed env wr e).
Proof.
  unfold sortFailed. apply steps_bind; [apply steps_time_Now|]. intros now.
  apply steps_bind; [apply steps_ignore; intros w; apply R_Update|]. intros _. apply steps_fail.
Qed.

Lemma steps_finishRun env wr : steps R (finishRun env wr).
Proof.
  unfold finishRun. apply steps_bind; [apply steps_time_Now|]. intros now.
  apply steps_bind; [apply steps_ignore; intros w; apply R_Update|]. intros _. apply steps_ret.
Qed.

Lemma steps_Resume `{!Externals} ρ env wr : steps R (Resume ρ env wr).
Proof.
  unfold Resume. destruct (dag_Load _ _ _); [|apply steps_fail].
  destruct (TopologicalSort _ _); [|apply steps_sortFailed].
  apply steps_bind; [apply steps_resumeTasks|]. intros _. apply steps_finishRun.
Qed.

Lemma steps_Run `{!Externals} ρ env d : steps R (Run ρ env d).
Proof.
  unfold Run. apply steps_bind; [apply steps_lift|]. intros hash.
  apply steps_bind; [intros w; apply R_NewWorkflowRun|]. intros wr.
  destruct (TopologicalSort _ _); [|apply steps_sortFailed].
  apply steps_bind; [apply steps_runTasks|]. intros _. apply steps_finishRun.
Qed.

Lemma steps_resumeCmd `{!Externals} ρ env runID : steps R (resumeCmd ρ env runID).
Proof.
  intros w. unfold resumeCmd, NewStore, Store_Load.
  assert (R w (tick (tick w))) as H2 by (etrans; apply R_tick).
  destruct (store_fault env OpNewStore _); [apply R_tick|]. cbn.
  destruct (store_fault env OpLoad _); [done|].
  destruct (List.find _ _) as [r|]; [|done].
  case_decide; [done|].
  pose proof (steps_Resume ρ env r (tick (tick w))) as HR.
  destruct (Resume ρ env r (tick (tick w))) as [[[]|e] w1]; cbn in HR; by etrans.
Qed.

Lemma steps_runCmd `{!Externals} ρ env name : steps R (runCmd ρ env name).
Proof.
  unfold runCmd. destruct (dag_Load _ _ _); [|apply steps_fail]. intros w.
  unfold NewStore. destruct (store_fault env OpNewStore _); [apply R_tick|].
  etrans; [apply R_tick|]. apply steps_Run.
Qed.

End steps.

#[local] Instance store_kept_ok_preorder : PreOrder store_kept_ok.
Proof. split; [intros w Hw; exact Hw|]. intros w1 w2 w3 H12 H23 H1. by apply H23, H12. Qed.

#[local] Instance rows_appended_preorder : PreOrder rows_appended.
Proof.
  split.
  - intros w. split; exists []; by rewrite app_nil_r.
  - intros w1 w2 w3 [[a Ha] [b Hb]] [[a' Ha'] [b' Hb']]. split.
    + exists (a ++ a'). by rewrite Ha', Ha, <-app_assoc.
    + exists (b ++ b'). by rewrite Hb', Hb, <-app_assoc.
Qed.

#[local] Instance runs_kept_preorder : PreOrder runs_kept.
Proof.
  split; [by intros w|]. intros w1 w2 w3 H12 H23. unfold runs_kept in *. congruence.
Qed.

Lemma row_key_update_task task r : row_key (update_task task r) = row_key r.
Proof. unfold update_task. by case_decide. Qed.

Lemma run_key_update_run run r : run_key (update_run run r) = run_key r.
Proof. unfold update_run. by case_decide. Qed.

Lemma fmap_update_keys {A B} (key : A → B) (g : A → A) (l : list A) :
  (∀ x, key (g x) = key x) → key <$> (g <$> l) = key <$> l.
Proof. intros Hg. rewrite <-list_fmap_compose. apply list_fmap_ext. intros i x _. apply Hg. Qed.

Lemma Update_runs env r w :
  run_key <$> workflow_runs (Update env r w).2 = run_key <$> workflow_runs w.
Proof.
  destruct (Update_effect env r w) as (_ & _ & _ & _ & _ & ->).
  destruct (store_fault _ _ _); [done|]. apply fmap_update_keys, run_key_update_run.
Qed.

Lemma UpdateTaskRun_rows env tr w :
  row_key <$> task_runs (UpdateTaskRun env tr w).2 = row_key <$> task_runs w.
Proof.
  destruct (UpdateTaskRun_effect env tr w) as (_ & _ & _ & _ & _ & ->).
  destruct (store_fault _ _ _); [done|]. apply fmap_update_keys, row_key_update_task.
Qed.

Lemma rows_appended_same w w' :
  row_key <$> task_runs w' = row_key <$> task_runs w →
  run_key <$> workflow_runs w' = run_key <$> workflow_runs w →
  rows_appended w w'.
Proof. intros Hrows Hruns. split; exists []; by rewrite app_nil_r. Qed.

Lemma store_ok_same w w' :
  wr_ID <$> workflow_runs w' = wr_ID <$> workflow_runs w →
  tr_ID <$> task_runs w' = tr_ID <$> task_runs w →
  task_seq w' = task_seq w →
  store_kept_ok w w'.
Proof.
  intros Hruns Hrows Hseq (H1 & H2 & H3).
  split; [by rewrite Hruns|]. split; [by rewrite Hrows|]. rewrite Hseq.
  apply (Forall_fmap tr_ID (λ i, (i ≤ task_seq w)%Z)). rewrite Hrows.
  by apply Forall_fmap.
Qed.

Section invariants.
Context `{!Externals}.

Lemma store_ok_Update env r w : store_kept_ok w (Update env r w).2.
Proof.
  destruct (Update_effect env r w) as (_ & Htr & Hseq & _ & _ & Hruns).
  apply store_ok_same; [|by rewrite Htr|done].
  rewrite Hruns. destruct (store_fault _ _ _); [done|].
  apply fmap_update_keys, wr_ID_update_run.
Qed.

Lemma store_ok_UpdateTaskRun env tr w : store_kept_ok w (UpdateTaskRun env tr w).2.
Proof.
  destruct (UpdateTaskRun_effect env tr w) as (_ & Hruns & Hseq & _ & _ & Htr).
  apply store_ok_same; [by rewrite Hruns| |done].
  rewrite Htr. destruct (store_fault _ _ _); [done|].
  apply fmap_update_keys, tr_ID_update_task.
Qed.

Lemma store_ok_SaveTaskRun env tr w : store_kept_ok w (SaveTaskRun env tr w).2.
Proof.
  unfold SaveTaskRun. destruct (store_fault _ _ _); [by intros ?|].
  intros (H1 & H2 & H3). split; [done|]. cbn. split.
  - rewrite fmap_app. apply NoDup_app. split; [done|]. split; [|apply NoDup_singleton].
    intros i Hi [= ->]%list_elem_of_singleton.
    apply list_elem_of_fmap in Hi as (r & Hr & Hin).
    rewrite Forall_forall in H3. specialize (H3 r Hin). cbn in Hr. lia.
  - apply Forall_app. split; [|by apply Forall_singleton; cbn; lia].
    eapply Forall_impl; [done|]. intros r Hr. cbn in *. lia.
Qed.

Lemma store_ok_NewWorkflowRun env workflow hash w :
  store_kept_ok w (NewWorkflowRun env workflow hash w).2.
Proof.
  unfold NewWorkflowRun. destruct (store_fault _ _ _); cbn [orb]; [by intros ?|].
  case_bool_decide as Hid; [by intros ?|].
  intros (H1 & H2 & H3). split; [|done]. cbn.
  rewrite fmap_app. apply NoDup_app. split; [done|]. split; [|apply NoDup_singleton].
  intros i Hi [= ->]%list_elem_of_singleton. done.
Qed.

Lemma rows_appended_SaveTaskRun env tr w : rows_appended w (SaveTaskRun env tr w).2.
Proof.
  unfold SaveTaskRun. destruct (store_fault _ _ _); [by apply rows_appended_same|].
  split; cbn; [|exists []; by rewrite app_nil_r]. eexists. by rewrite fmap_app.
Qed.

Lemma rows_appended_NewWorkflowRun env workflow hash w :
  rows_appended w (NewWorkflowRun env workflow hash w).2.
Proof.
  unfold NewWorkflowRun. destruct (_ || _); [by apply rows_appended_same|].
  split; cbn; [exists []; by rewrite app_nil_r|]. eexists. by rewrite fmap_app.
Qed.

Lemma rows_appended_Update env r w : rows_appended w (Update env r w).2.
Proof.
  apply rows_appended_same; [|apply Update_runs].
  by destruct (Update_effect env r w) as (_ & -> & _).
Qed.

Lemma rows_appended_UpdateTaskRun env tr w : rows_appended w (UpdateTaskRun env tr w).2.
Proof.
  apply rows_appended_same; [apply UpdateTaskRun_rows|].
  by destruct (UpdateTaskRun_effect env tr w) as (_ & -> & _).
Qed.

(** The ids of the run rows stay pairwise distinct, the ids of the task rows
    stay pairwise distinct and no greater than the last id handed out: every
    command and both entry points of the executor keep this, whatever the
    commands do and whatever fails. *)
Theorem executor_keeps_store_ok :
  ∀ (ρ : nat → RangeOrder) (env : Env) (w : World),
    store_ok w →
    (∀ d, store_ok (Run ρ env d w).2) ∧
    (∀ wr, store_ok (Resume ρ env wr w).2) ∧
    (∀ workflowName, store_ok (runCmd ρ env workflowName w).2) ∧
    (∀ runID, store_ok (resumeCmd ρ env runID w).2).
Proof.
  intros ρ env w Hok.
  assert (∀ w, store_kept_ok w (tick w)) as Htick by (by intros ? ?).
  assert (∀ cmd w, store_kept_ok w (with_process cmd w)) as Hproc by (by intros ? ? ?).
  assert (∀ path out w, store_kept_ok w (with_log_file path out w)) as Hlog
    by (by intros ? ? ? ?).
  split; [|split; [|split]].
  - intros d. by apply (steps_Run store_kept_ok Htick Hproc Hlog store_ok_Update
      store_ok_SaveTaskRun store_ok_UpdateTaskRun store_ok_NewWorkflowRun ρ env d w).
  - intros wr. by apply (steps_Resume store_kept_ok Htick Hproc Hlog store_ok_Update
      store_ok_SaveTaskRun store_ok_UpdateTaskRun ρ env wr w).
  - intros name. by apply (steps_runCmd store_kept_ok Htick Hproc Hlog store_ok_Update
      store_ok_SaveTaskRun store_ok_UpdateTaskRun store_ok_NewWorkflowRun ρ env name w).
  - intros runID. by apply (steps_resumeCmd store_kept_ok Htick Hproc Hlog store_ok_Update
      store_ok_SaveTaskRun store_ok_UpdateTaskRun ρ env runID w).
Qed.

(** The executor only ever appends rows: after [Run] or [Resume] every row
    that was stored is still there, in its place, with its id, run or
    workflow, name, hash and start time unchanged; [Resume] appends no run
    row. *)
Theorem executor_appends_only :
  ∀ (ρ : nat → RangeOrder) (env : Env) (w : World),
    (∀ d, rows_appended w (Run ρ env d w).2) ∧
    (∀ wr, rows_appended w (Resume ρ env wr w).2 ∧ runs_kept w (Resume ρ env wr w).2).
Proof.
  intros ρ env w.
  assert (∀ w, rows_appended w (tick w)) as Htick by (intros ?; by apply rows_appended_same).
  assert (∀ cmd w, rows_appended w (with_process cmd w)) as Hproc
    by (intros ? ?; by apply rows_appended_same).
  assert (∀ path out w, rows_appended w (with_log_file path out w)) as Hlog
    by (intros ? ? ?; by apply rows_appended_same).
  split; [|split].
  - intros d. apply (steps_Run rows_appended Htick Hproc Hlog rows_appended_Update
      rows_appended_SaveTaskRun rows_appended_UpdateTaskRun rows_appended_NewWorkflowRun).
  - apply (steps_Resume rows_appended Htick Hproc Hlog rows_appended_Update
      rows_appended_SaveTaskRun rows_appended_UpdateTaskRun).
  - apply (steps_Resume runs_kept); try done.
    + intros env' r w'. apply Update_runs.
    + intros env' tr w'. unfold runs_kept, SaveTaskRun. by destruct (store_fault _ _ _).
    + intros env' tr w'. unfold runs_kept.
      by destruct (UpdateTaskRun_effect env' tr w') as (_ & -> & _).
Qed.

End invariants.

Lemma store_ok_empty_world : store_ok empty_world.
Proof. split; [constructor|]. split; constructor. Qed.

Lemma executor_keeps_store_ok_witness :
  (∀ d, store_ok (Run (λ _, ascending) quiet d empty_world).2) ∧
  (∀ wr, store_ok (Resume (λ _, ascending) quiet wr empty_world).2) ∧
  (∀ workflowName, store_ok (runCmd (λ _, ascending) quiet workflowName empty_world).2) ∧
  (∀ runID, store_ok (resumeCmd (λ _, ascending) quiet runID empty_world).2).
Proof.
  apply (executor_keeps_store_ok (λ _, ascending) quiet empty_world).
  split; [constructor|]. split; constructor.
Defined.

(** * The attempt loop on a healthy machine *)

Lemma attemptLoop_skipped env b workflow t wr tr attempt w :
  (int_add (Retries t) 1 < attempt)%Z →
  attemptLoop env b workflow t wr tr attempt w = (Ok tr, w).
Proof.
  intros Hlt. destruct b as [|b]; cbn [attemptLoop]; [done|].
  by rewrite (proj2 (Z.leb_gt _ _)) by lia.
Qed.

Lemma attemptLoop_healthy env workflow t wr :
  healthy env →
  ∀ (b : nat) (attempt : Z) (tr : TaskRun) (w : World),
    (1 ≤ attempt ≤ int_add (Retries t) 1)%Z →
    (Z.to_nat (int_add (Retries t) 1 - attempt + 1) ≤ b)%nat →
    ∃ (k : nat) (tr' : TaskRun) (r : result TaskRun) (w' : World),
      attemptLoop env b workflow t wr tr attempt w = (r, w') ∧
      (1 ≤ k)%nat ∧
      processes w' = processes w ++ replicate k (Cmd t) ∧
      task_runs w' = update_task tr' <$> task_runs w ∧
      task_seq w' = task_seq w ∧
      tr_ID tr' = tr_ID tr ∧
      tr_Attempts tr' = (attempt + Z.of_nat k - 1)%Z ∧
      (tr_Attempts tr' ≤ int_add (Retries t) 1)%Z ∧
      is_Some (tr_EndedAt tr') ∧
      match r with
      | Ok tr'' =>
          tr'' = tr' ∧ tr_Status tr' = TaskSuccess ∧ tr_ExitCode tr' = Some 0%Z ∧
          workflow_runs w' = workflow_runs w
      | Err e =>
          ∃ cause now, e = ErrTaskFailed (Name t) workflow cause ∧
            tr_Status tr' = TaskFailed ∧ tr_Attempts tr' = int_add (Retries t) 1 ∧
            workflow_runs w' = update_run (wr_finish StatusFailed now wr) <$> workflow_runs w
      end ∧
      ((command env (Cmd t) (clock w)).2 = None → k = 1%nat ∧ ∃ tr'', r = Ok tr'').
Proof.
  intros [Hstore Hmkdir].
  pose proof (wrap_int_range (Retries t + 1)) as Hrange.
  fold (int_add (Retries t) 1) in Hrange.
  induction b as [|b IH]; intros attempt tr w Ha Hb; [lia|].
  cbn [attemptLoop]. rewrite (proj2 (Z.leb_le attempt _)) by lia.
  destruct (command env (Cmd t) (clock w)) as [out err] eqn:Hcmd.
  unfold bind at 1. unfold CombinedOutput at 1. rewrite Hcmd. cbn [fst snd].
  erewrite bind_Ok by (by apply MkdirAll_ok).
  unfold bind at 1. unfold WriteFile at 1.
  unfold bind at 1. unfold ignore at 1. rewrite UpdateTaskRun_ok by done. cbn [snd].
  set (tr1 := record_exit err _).
  assert (tr_ID tr1 = tr_ID tr ∧ tr_Attempts tr1 = attempt) as [H1 H2].
  { subst tr1. by destruct err as [[]|]. }
  destruct err as [err|].
  2:{ unfold bind at 1. unfold time_Now at 1.
      unfold bind at 1. unfold ignore at 1. rewrite UpdateTaskRun_ok by done. cbn [snd].
      unfold ret.
      eexists 1%nat, (tr_finish TaskSuccess _ tr1), _, _. split; [reflexivity|].
      simpl_world. rewrite update_task_twice_fmap by done.
      split; [done|]. split; [done|]. split; [done|]. split; [done|]. split; [done|].
      split; [cbn [tr_finish tr_Attempts]; lia|].
      split; [cbn [tr_finish tr_Attempts]; lia|].
      split; [cbn [tr_finish tr_EndedAt]; eauto|]. split; [done|]. intros _. eauto. }
  destruct (Z.eqb_spec attempt (int_add (Retries t) 1)) as [Hlast|Hmore].
  - unfold bind at 1. unfold time_Now at 1.
    unfold bind at 1. unfold ignore at 1. rewrite UpdateTaskRun_ok by done. cbn [snd].
    unfold bind at 1. unfold ignore at 1. rewrite Update_ok by done. cbn [snd].
    unfold fail.
    eexists 1%nat, (tr_finish TaskFailed _ tr1), _, _. split; [reflexivity|].
    simpl_world. rewrite update_task_twice_fmap by done.
    split; [done|]. split; [done|]. split; [done|]. split; [done|]. split; [done|].
    split; [cbn [tr_finish tr_Attempts]; lia|].
    split; [cbn [tr_finish tr_Attempts]; lia|].
    split; [cbn [tr_finish tr_EndedAt]; eauto|].
    split; [|done]. eexists err, _. split; [done|]. split; [done|].
    split; [cbn [tr_finish tr_Attempts]; lia|done].
  - rewrite int_add_small by (unfold min_int, max_int, int_bits in *; lia).
    match goal with |- context [attemptLoop env b workflow t wr tr1 _ ?w1] =>
      destruct (IH (attempt + 1)%Z tr1 w1)
        as (k & tr' & r & w' & Hrun & Hk & Hp & Htr & Hseq & I1 & I2 & I3 & I4 & Hres & _);
        [lia|lia|] end.
    exists (S k), tr', r, w'. split; [done|].
    rewrite Hp, Htr, Hseq. simpl_world.
    rewrite update_task_twice_fmap by congruence.
    rewrite <-app_assoc. cbn [replicate app].
    split; [lia|]. split; [done|]. split; [done|]. split; [done|]. split; [congruence|].
    split; [lia|]. split; [done|]. split; [done|].
    split; [|done].
    destruct r as [tr''|e]; [done|].
    destruct Hres as (cause & now & -> & ? & ? & ->). eexists _, _. done.
Qed.

Lemma update_task_fresh (task : TaskRun) (rows : list TaskRun) :
  Forall (λ r, (tr_ID r < tr_ID task)%Z) rows → update_task task <$> rows = rows.
Proof.
  induction 1 as [|r rows Hr _ IH]; [done|]. cbn. rewrite IH. f_equal.
  unfold update_task. rewrite decide_False; [done|lia].
Qed.

Lemma store_ok_runTask env workflow wr t w :
  store_ok w → store_ok (runTask env workflow wr t w).2.
Proof.
  intros Hok. rewrite <-(bind_ret_world (runTask env workflow wr t) w).
  assert (∀ w, store_kept_ok w (tick w)) as Htick by (by intros ? ?).
  assert (∀ cmd w, store_kept_ok w (with_process cmd w)) as Hproc by (by intros ? ? ?).
  assert (∀ path out w, store_kept_ok w (with_log_file path out w)) as Hlog
    by (by intros ? ? ? ?).
  exact (steps_runTasks store_kept_ok Htick Hproc Hlog store_ok_Update
    store_ok_SaveTaskRun store_ok_UpdateTaskRun env workflow wr [t] w Hok).
Qed.

(** One iteration of the loop of [Run] when the token has not fired. *)
Lemma runTask_healthy env workflow wr t w :
  healthy env → store_ok w → ctx_Done env (clock w) = false →
  ∃ (row : TaskRun) (r : result unit) (w' : World),
    runTask env workflow wr (Some t) w = (r, w') ∧
    task_runs w' = task_runs w ++ [row] ∧
    processes w' = processes w ++ spawned t row ∧
    store_ok w' ∧
    row_of wr t row ∧
    match r with
    | Ok _ => workflow_runs w' = workflow_runs w ∧ tr_Status row ≠ TaskFailed
    | Err e =>
        ∃ cause now, e = ErrTaskFailed (Name t) workflow cause ∧
          tr_Status row = TaskFailed ∧
          workflow_runs w' = update_run (wr_finish StatusFailed now wr) <$> workflow_runs w
    end ∧
    ((command env (Cmd t) (S (clock w))).2 = None → (tr_Attempts row ≤ 1)%Z ∧ r = Ok tt).
Proof.
  intros Hhealthy Hok Hctx. pose proof Hhealthy as [Hstore _].
  pose proof (store_ok_runTask env workflow wr (Some t) w Hok) as Hok'.
  set (tr0 := tr_set_ID (task_seq w + 1) (new_TaskRun wr t (clock w))).
  set (w1 := with_task_runs (task_runs w ++ [tr0]) (task_seq w + 1) (tick w)).
  assert (runTask env workflow wr (Some t) w =
          bind (attemptLoop env (attempts_bound t) workflow t wr tr0 1) (λ _, ret tt) w1)
    as Hstep.
  { cbn [runTask]. erewrite bind_Ok by (by apply checkCancelled_quiet).
    unfold bind at 1. unfold time_Now at 1.
    by erewrite bind_Ok by (by apply SaveTaskRun_ok). }
  rewrite Hstep in Hok' |- *. clear Hstep. unfold bind, ret in Hok' |- *.
  destruct (Z.lt_ge_cases (int_add (Retries t) 1) 1) as [Hnone|Hsome].
  - rewrite attemptLoop_skipped in Hok' |- * by done.
    exists tr0, (Ok tt), w1. split; [done|]. split; [done|].
    split; [by rewrite app_nil_r|]. split; [done|]. split; [by repeat split|].
    split; [done|]. done.
  - destruct (attemptLoop_healthy env workflow t wr Hhealthy (attempts_bound t) 1 tr0 w1)
      as (k & tr' & r & w' & Hrun & Hk & Hp & Htr & Hseq & I1 & I2 & I3 & I4 & Hres & Hone).
    { lia. }
    { unfold attempts_bound. lia. }
    rewrite Hrun in Hok' |- *.
    assert (update_task tr' <$> task_runs w = task_runs w) as Hfresh.
    { apply update_task_fresh. destruct Hok as (_ & _ & Hle).
      eapply Forall_impl; [done|]. intros r0 Hr0. rewrite I1. cbn in *. lia. }
    assert (update_task tr' tr0 =
            {| tr_ID := tr_ID tr0; tr_RunID := tr_RunID tr0; tr_Name := tr_Name tr0;
               tr_Status := tr_Status tr'; tr_StartedAt := tr_StartedAt tr0;
               tr_EndedAt := tr_EndedAt tr'; tr_Attempts := tr_Attempts tr';
               tr_ExitCode := tr_ExitCode tr'; tr_LogPath := tr_LogPath tr';
               tr_LastError := tr_LastError tr' |}) as Hrow.
    { unfold update_task. by rewrite decide_True. }
    assert (task_runs w' = task_runs w ++ [update_task tr' tr0]) as Hrows.
    { rewrite Htr. subst w1. simpl_world. rewrite fmap_app, Hfresh. done. }
    assert (processes w' = processes w ++ spawned t (update_task tr' tr0)) as Hprocs.
    { rewrite Hp, Hrow. unfold spawned. cbn [tr_Attempts]. rewrite I2.
      replace (Z.to_nat (1 + Z.of_nat k - 1)) with k by lia. done. }
    assert ((command env (Cmd t) (S (clock w))).2 = None →
            (tr_Attempts (update_task tr' tr0) ≤ 1)%Z ∧ ∃ tr'', r = Ok tr'') as Hfirst.
    { intros Hcmd. destruct (Hone Hcmd) as [-> Hr]. split; [|done].
      rewrite Hrow. cbn [tr_Attempts]. rewrite I2. lia. }
    destruct r as [tr''|e].
    + destruct Hres as (-> & Hstatus & Hcode & Hruns).
      exists (update_task tr' tr0), (Ok tt), w'.
      split; [done|]. split; [done|]. split; [done|]. split; [done|].
      split; [|split].
      * rewrite Hrow. unfold row_of. cbn. rewrite Hstatus. repeat split; try done; lia.
      * rewrite Hrow. cbn. rewrite Hstatus. by split.
      * intros Hcmd. by destruct (Hfirst Hcmd).
    + destruct Hres as (cause & now & -> & Hstatus & Hatt & Hruns).
      exists (update_task tr' tr0), (Err (ErrTaskFailed (Name t) workflow cause)), w'.
      split; [done|]. split; [done|]. split; [done|]. split; [done|].
      split; [|split].
      * rewrite Hrow. unfold row_of. cbn. rewrite Hstatus. repeat split; try done; lia.
      * exists cause, now. rewrite Hrow. cbn. by rewrite Hstatus.
      * intros Hcmd. by destruct (Hfirst Hcmd) as (_ & ? & ?).
Qed.

Lemma store_ok_checkCancelled env wr w :
  store_ok w → store_ok (Update env (wr_finish StatusFailed (clock w) wr) w).2.
Proof. apply store_ok_Update. Qed.

(** The loop of [Run] on a healthy machine. *)
Lemma runTasks_healthy env workflow wr :
  healthy env →
  ∀ (order : list Task) (w : World),
    store_ok w →
    ∃ (started : list Task) (rows : list TaskRun) (r : result unit) (w' : World),
      runTasks env workflow wr (Some <$> order) w = (r, w') ∧
      started `prefix_of` order ∧
      Forall2 (row_of wr) started rows ∧
      task_runs w' = task_runs w ++ rows ∧
      processes w' = processes w ++ mjoin (zip_with spawned started rows) ∧
      store_ok w' ∧
      match r with
      | Ok _ =>
          started = order ∧ workflow_runs w' = workflow_runs w ∧
          Forall (λ row, tr_Status row ≠ TaskFailed) rows
      | Err e =>
          (∃ now, workflow_runs w' =
                  update_run (wr_finish StatusFailed now wr) <$> workflow_runs w) ∧
          (e = ErrCancelled ∧ cancel_at env ≠ None ∨
           ∃ t cause, e = ErrTaskFailed (Name t) workflow cause ∧ t ∈ order)
      end ∧
      ((∀ cmd k, (command env cmd k).2 = None) →
       Forall (λ row, (tr_Attempts row ≤ 1)%Z) rows ∧ (∀ e, r = Err e → e = ErrCancelled)).
Proof.
  intros Hhealthy. pose proof Hhealthy as [Hstore _].
  induction order as [|t order IH]; intros w Hok.
  { exists [], [], (Ok tt), w. cbn. rewrite !app_nil_r.
    split; [done|]. split; [done|]. split; [constructor|]. split; [done|].
    split; [done|]. split; [done|]. split; [by repeat split|].
    intros _. split; [constructor|done]. }
  cbn [fmap list_fmap runTasks].
  destruct (ctx_Done env (clock w)) eqn:Hctx.
  - exists [], [], (Err ErrCancelled),
           (Update env (wr_finish StatusFailed (clock w) wr) w).2.
    destruct (Update_effect env (wr_finish StatusFailed (clock w) wr) w)
      as (_ & Htr & _ & Hp & _ & Hruns).
    rewrite Hstore in Hruns.
    split.
    { apply bind_Err. cbn [runTask]. apply bind_Err. by apply checkCancelled_fired. }
    split; [apply prefix_nil|]. split; [constructor|].
    split; [by rewrite app_nil_r|]. split; [by rewrite app_nil_r|].
    split; [by apply store_ok_Update|]. split.
    + split; [eauto|]. left. split; [done|].
      unfold ctx_Done in Hctx. by destruct (cancel_at env).
    + intros _. split; [constructor|]. by intros e [= <-].
  - destruct (runTask_healthy env workflow wr t w Hhealthy Hok Hctx)
      as (row & r1 & w1 & Hrun & Hrows & Hprocs & Hok1 & Hrow & Hres & Hfirst).
    destruct r1 as [[]|e].
    + rewrite (bind_Ok _ _ _ _ _ Hrun).
      destruct (IH w1 Hok1)
        as (started & rows & r & w' & Hloop & Hpre & Hall & Hrows' & Hprocs' & Hok' & Hres' & Hsucc).
      destruct Hres as [Hruns Hstatus].
      exists (t :: started), (row :: rows), r, w'. split; [done|].
      split; [by apply prefix_cons|]. split; [by constructor|].
      split; [by rewrite Hrows', Hrows, <-app_assoc|].
      split; [by rewrite Hprocs', Hprocs, <-app_assoc|].
      split; [done|]. split.
      * destruct r as [[]|e].
        -- destruct Hres' as (-> & -> & Hnot). split; [done|]. split; [done|]. by constructor.
        -- destruct Hres' as ([now Hnow] & Herr). rewrite Hruns in Hnow. split; [eauto|].
           destruct Herr as [?|(t' & cause & -> & Hin)]; [by left|].
           right. exists t', cause. split; [done|]. by right.
      * intros Hall'. destruct (Hsucc Hall') as [Hle Herr]. split; [|done].
        constructor; [|done]. by apply Hfirst.
    + rewrite (bind_Err _ _ _ _ _ Hrun).
      destruct Hres as (cause & now & -> & Hstatus & Hruns).
      exists [t], [row], (Err (ErrTaskFailed (Name t) workflow cause)), w1.
      split; [done|]. split; [by apply prefix_cons, prefix_nil|].
      split; [constructor; [done|constructor]|]. split; [done|].
      split; [cbn; by rewrite app_nil_r|]. split; [done|]. split.
      * split; [eauto|]. right. exists t, cause. split; [done|]. left.
      * intros Hall'. by destruct (Hfirst (Hall' _ _)) as [_ [=]].
Qed.

Lemma update_run_own (s : WorkflowStatus) (now : nat) (run : WorkflowRun)
    (rows : list WorkflowRun) :
  wr_ID run ∉ wr_ID <$> rows →
  update_run (wr_finish s now run) <$> (rows ++ [run]) = rows ++ [wr_finish s now run].
Proof.
  intros Hfresh. rewrite fmap_app. cbn [fmap list_fmap].
  rewrite (update_run_fresh (wr_finish s now run)) by done.
  unfold update_run. rewrite decide_True by done. by destruct run.
Qed.

Lemma attempts_sum_spawned (started : list Task) (rows : list TaskRun) wr :
  Forall2 (row_of wr) started rows →
  Z.of_nat (length (mjoin (zip_with spawned started rows))) = attempts_sum rows.
Proof.
  induction 1 as [|t row started rows Hrow _ IH]; [done|].
  change (mjoin (zip_with spawned (t :: started) (row :: rows)))
    with (spawned t row ++ mjoin (zip_with spawned started rows)).
  cbn [attempts_sum foldr].
  rewrite length_app, Nat2Z.inj_add. fold (attempts_sum rows). rewrite <-IH. f_equal.
  unfold spawned. rewrite length_replicate.
  destruct Hrow as (_ & _ & Hstatus). destruct (tr_Status row); [done|lia|lia|lia].
Qed.

Section run_healthy.
Context `{!Externals}.

Lemma Run_healthy ρ env d w hash :
  healthy env → well_keyed d → store_ok w →
  ComputeHash ρ d = Ok hash →
  uuid_New env (clock w) ∉ wr_ID <$> workflow_runs w →
  ∃ (started : list Task) (rows : list TaskRun) (run : WorkflowRun)
    (r : result unit) (w' : World),
    Run ρ env d w = (r, w') ∧
    workflow_runs w' = workflow_runs w ++ [run] ∧
    wr_ID run = uuid_New env (clock w) ∧
    wr_Workflow run = DName d ∧ wr_WorkflowHash run = hash ∧
    is_Some (wr_EndedAt run) ∧
    wr_Status run = match r with Ok _ => StatusSuccess | Err _ => StatusFailed end ∧
    Forall2 (row_of run) started rows ∧
    task_runs w' = task_runs w ++ rows ∧
    processes w' = processes w ++ mjoin (zip_with spawned started rows) ∧
    match TopologicalSort (later ρ) d with
    | Err _ => started = [] ∧ r = Err (ErrTopologicalSort ErrCycle)
    | Ok res =>
        ∃ order, res = Some <$> order ∧ started `prefix_of` order ∧
          match r with
          | Ok _ => started = order ∧ Forall (λ row, tr_Status row ≠ TaskFailed) rows
          | Err e =>
              e = ErrCancelled ∧ cancel_at env ≠ None ∨
              ∃ t cause, e = ErrTaskFailed (Name t) (DName d) cause ∧ t ∈ order
          end
    end ∧
    ((∀ cmd k, (command env cmd k).2 = None) →
     Forall (λ row, (tr_Attempts row ≤ 1)%Z) rows ∧
     (∀ e, r = Err e → e = ErrCancelled ∨ e = ErrTopologicalSort ErrCycle)).
Proof.
  intros Hhealthy Hwk Hok Hhash Hfresh. pose proof Hhealthy as [Hstore _].
  set (run := {| wr_ID := uuid_New env (clock w); wr_Workflow := DName d;
                 wr_WorkflowHash := hash; wr_Status := StatusRunning;
                 wr_StartedAt := clock w; wr_EndedAt := None; wr_ExitCode := None;
                 wr_Meta := None; wr_CreatedAt := clock w |}).
  set (w1 := with_workflow_runs (workflow_runs w ++ [run]) (tick w)).
  assert (NewWorkflowRun env (DName d) hash w = (Ok run, w1)) as Hnew.
  { unfold NewWorkflowRun. by rewrite Hstore, bool_decide_eq_false_2. }
  assert (store_ok w1) as Hok1.
  { pose proof (store_ok_NewWorkflowRun env (DName d) hash w Hok) as H1.
    by rewrite Hnew in H1. }
  assert (Run ρ env d w =
          match TopologicalSort (later ρ) d with
          | Ok order => bind (runTasks env (DName d) run order) (λ _, finishRun env run) w1
          | Err e => sortFailed env run e w1
          end) as ->.
  { unfold Run. unfold bind at 1. unfold lift at 1. rewrite Hhash.
    rewrite (bind_Ok _ _ _ _ _ Hnew). by destruct (TopologicalSort _ _). }
  destruct (TopologicalSort (later ρ) d) as [res|e] eqn:Hs.
  - destruct (TopologicalSort_Ok d Hwk _ _ Hs) as (order & -> & Hperm & _).
    destruct (runTasks_healthy env (DName d) run Hhealthy order w1 Hok1)
      as (started & rows & r & w2 & Hloop & Hpre & Hall & Hrows & Hprocs & Hok2 & Hres & Hsucc).
    destruct r as [[]|e].
    + destruct Hres as (-> & Hruns & Hnot).
      rewrite (bind_Ok _ _ _ _ _ Hloop). unfold finishRun.
      unfold bind at 1. unfold time_Now at 1.
      unfold bind at 1. unfold ignore at 1. rewrite Update_ok by done. cbn [snd]. unfold ret.
      exists order, rows, (wr_finish StatusSuccess (clock w2) run), (Ok tt). eexists.
      split; [reflexivity|]. simpl_world. rewrite Hruns. subst w1. simpl_world.
      rewrite update_run_own by done.
      split; [done|]. split; [done|]. split; [done|]. split; [done|].
      split; [cbn; eauto|]. split; [done|]. split; [done|]. split; [done|]. split; [done|].
      split; [exists order; by repeat split|].
      intros Hall'. destruct (Hsucc Hall') as [Hle _]. by split.
    + destruct Hres as ([now Hruns] & Herr).
      rewrite (bind_Err _ _ _ _ _ Hloop).
      exists started, rows, (wr_finish StatusFailed now run), (Err e), w2.
      split; [done|]. rewrite Hruns. subst w1. simpl_world.
      rewrite update_run_own by done.
      split; [done|]. split; [done|]. split; [done|]. split; [done|].
      split; [cbn; eauto|]. split; [done|]. split; [done|]. split; [done|]. split; [done|].
      split; [exists order; by repeat split|].
      intros Hall'. destruct (Hsucc Hall') as [Hle Hcancel]. split; [done|].
      intros e' [= <-]. left. by apply Hcancel.
  - apply TopologicalSort_error in Hs as ->. unfold sortFailed.
    unfold bind at 1. unfold time_Now at 1.
    unfold bind at 1. unfold ignore at 1. rewrite Update_ok by done. cbn [snd]. unfold fail.
    exists [], [], (wr_finish StatusFailed (clock w1) run), (Err (ErrTopologicalSort ErrCycle)).
    eexists. split; [reflexivity|]. simpl_world. subst w1. simpl_world.
    rewrite update_run_own by done. rewrite !app_nil_r.
    split; [done|]. split; [done|]. split; [done|]. split; [done|].
    split; [cbn; eauto|]. split; [done|]. split; [constructor|]. split; [done|].
    split; [done|]. split; [done|].
    intros _. split; [constructor|]. intros e [= <-]. by right.
Qed.

End run_healthy.

Lemma Forall2_row_names wr (started : list Task) (rows : list TaskRun) :
  Forall2 (row_of wr) started rows →
  tr_Name <$> rows = Name <$> started ∧ Forall (λ row, tr_RunID row = wr_ID wr) rows.
Proof.
  induction 1 as [|t row started rows (Hrun & Hname & _) _ [IH1 IH2]]; [by split|].
  cbn. rewrite Hname, IH1. split; [done|]. by constructor.
Qed.

Section run_properties.
Context `{!Externals}.

(** On a machine whose database and file system work, [Run] leaves the run
    row that it inserted in a final state: status success exactly when [Run]
    returns no error, status failed otherwise, and an end time in both
    cases; the row carries the name and the hash of the graph. *)
Theorem Run_final_status :
  ∀ (ρ : nat → RangeOrder) (env : Env) (d : DAG) (w : World) (hash : string),
    healthy env → well_keyed d → store_ok w →
    ComputeHash ρ d = Ok hash →
    uuid_New env (clock w) ∉ wr_ID <$> workflow_runs w →
    ∃ run : WorkflowRun,
      workflow_runs (Run ρ env d w).2 = workflow_runs w ++ [run] ∧
      wr_ID run = uuid_New env (clock w) ∧
      wr_Workflow run = DName d ∧ wr_WorkflowHash run = hash ∧
      is_Some (wr_EndedAt run) ∧
      wr_Status run =
        match (Run ρ env d w).1 with Ok _ => StatusSuccess | Err _ => StatusFailed end.
Proof.
  intros ρ env d w hash Hhealthy Hwk Hok Hhash Hfresh.
  destruct (Run_healthy ρ env d w hash Hhealthy Hwk Hok Hhash Hfresh)
    as (started & rows & run & r & w' & -> & Hruns & Hid & Hname & Hh & Hend & Hstatus & _).
  by exists run.
Qed.


Lemma spawned_once (order : list Task) (rows : list TaskRun) run :
  Forall2 (succeeded run) order rows → mjoin (zip_with spawned order rows) = Cmd <$> order.
Proof.
  induction 1 as [|t row order rows (_ & _ & _ & Hone & _) _ IH]; [done|].
  change (mjoin (zip_with spawned (t :: order) (row :: rows)))
    with (spawned t row ++ mjoin (zip_with spawned order rows)).
  rewrite IH. unfold spawned. by rewrite Hone.
Qed.

(** When every command succeeds, nothing is cancelled and the database and
    the file system work, [Run] on a graph that [Validate] accepts, with
    retry budgets that are non-negative, returns no error, spawns exactly one
    process per task, the commands in topological order, creates one row per
    task with status success, one attempt and exit code 0, and leaves the
    run row with status success. *)
Theorem Run_all_succeed :
  ∀ (ρ ρ' : nat → RangeOrder) (env : Env) (d : DAG) (w : World) (hash : string),
    healthy env → cancel_at env = None → always_succeeds env →
    well_keyed d → Validate ρ' d = None →
    (∀ k t, Tasks d !! k = Some t → (0 ≤ Retries t < max_int)%Z) →
    store_ok w →
    ComputeHash ρ d = Ok hash →
    uuid_New env (clock w) ∉ wr_ID <$> workflow_runs w →
    ∃ (order : list Task) (rows : list TaskRun) (run : WorkflowRun) (w' : World),
      Run ρ env d w = (Ok tt, w') ∧
      TopologicalSort (later ρ) d = Ok (Some <$> order) ∧
      order ≡ₚ (map_to_list (Tasks d)).*2 ∧ deps_first order ∧
      processes w' = processes w ++ (Cmd <$> order) ∧
      task_runs w' = task_runs w ++ rows ∧
      Forall2 (succeeded run) order rows ∧
      workflow_runs w' = workflow_runs w ++ [run] ∧
      wr_Status run = StatusSuccess.
Proof.
  intros ρ ρ' env d w hash Hhealthy Hcancel Hsucc Hwk Hvalid Hretries Hok Hhash Hfresh.
  destruct (TopologicalSort_valid (later ρ) ρ' d Hwk Hvalid) as (order & Hsort & Hperm & Hfirst).
  destruct (Run_healthy ρ env d w hash Hhealthy Hwk Hok Hhash Hfresh)
    as (started & rows & run & r & w' & Hrun & Hruns & _ & _ & _ & _ & Hstatus & Hall & Hrows
        & Hprocs & Hres & Hone).
  rewrite Hsort in Hres. destruct Hres as (order' & Heq & _ & Hres).
  apply (inj (fmap Some)) in Heq as <-.
  destruct (Hone Hsucc) as [Hle Herr].
  destruct r as [[]|e].
  2:{ destruct (Herr e eq_refl) as [->| ->].
      - by destruct Hres as [[_ ?]|(? & ? & [=] & _)].
      - by destruct Hres as [[[=] _]|(? & ? & [=] & _)]. }
  destruct Hres as [-> Hnot].
  assert (Forall2 (succeeded run) order rows) as Hrows'.
  { assert (∀ t, t ∈ order → (1 ≤ int_add (Retries t) 1)%Z) as Hbudget.
    { intros t Hin. rewrite Hperm in Hin.
      apply list_elem_of_fmap in Hin as ([k t'] & -> & Hin%elem_of_map_to_list).
      specialize (Hretries k t' Hin). cbn.
      rewrite int_add_small; unfold min_int, max_int, int_bits in *; lia. }
    clear Hperm Hfirst Hsort Hprocs Hrows Hrun Hone Herr.
    induction Hall as [|t row order rows (Hrunid & Hname & Hrow) _ IH]; [constructor|].
    apply Forall_cons in Hle as [Hle1 Hle]. apply Forall_cons in Hnot as [Hnot1 Hnot].
    constructor; [|apply IH; [done|done|intros t' Ht'; apply Hbudget; by right]].
    specialize (Hbudget t). destruct (tr_Status row) eqn:Hst; try done.
    + destruct Hrow as [_ Hlt]. specialize (Hbudget ltac:(left)). lia.
    + destruct Hrow as ([? ?] & ? & ?). repeat split; try done. lia. }
  exists order, rows, run, w'. split; [done|]. split; [done|]. split; [done|].
  split; [done|]. split; [by rewrite Hprocs, (spawned_once order rows run)|].
  split; [done|]. split; [done|]. split; [done|]. done.
Qed.

End run_properties.

Lemma Run_final_status_witness :
  ∃ run : WorkflowRun,
    workflow_runs (Run (λ _, ascending) quiet retry_graph empty_world).2 =
      workflow_runs empty_world ++ [run] ∧
    wr_ID run = uuid_New quiet (clock empty_world) ∧
    wr_Workflow run = DName retry_graph ∧ wr_WorkflowHash run = "e3b0c442" ∧
    is_Some (wr_EndedAt run) ∧
    wr_Status run =
      match (Run (λ _, ascending) quiet retry_graph empty_world).1 with
      | Ok _ => StatusSuccess | Err _ => StatusFailed end.
Proof.
  apply (Run_final_status (λ _, ascending) quiet retry_graph empty_world "e3b0c442").
  - apply healthy_quiet.
  - apply graph_of_well_keyed.
  - apply store_ok_empty_world.
  - reflexivity.
  - cbn. apply not_elem_of_nil.
Defined.


Lemma Run_all_succeed_witness :
  ∃ (order : list Task) (rows : list TaskRun) (run : WorkflowRun) (w' : World),
    Run (λ _, descending) obliging diamond empty_world = (Ok tt, w') ∧
    TopologicalSort (later (λ _, descending)) diamond = Ok (Some <$> order) ∧
    order ≡ₚ (map_to_list (Tasks diamond)).*2 ∧ deps_first order ∧
    processes w' = processes empty_world ++ (Cmd <$> order) ∧
    task_runs w' = task_runs empty_world ++ rows ∧
    Forall2 (succeeded run) order rows ∧
    workflow_runs w' = workflow_runs empty_world ++ [run] ∧
    wr_Status run = StatusSuccess.
Proof.
  apply (Run_all_succeed (λ _, descending) (λ _, ascending) obliging diamond empty_world
           "e3b0c442").
  - by split.
  - reflexivity.
  - by intros cmd k.
  - apply graph_of_well_keyed.
  - vm_compute. reflexivity.
  - intros k t Ht.
    destruct (graph_of_lookup "complex"
      [task "a" "echo a" [] 0; task "b" "echo b" ["a"] 0;
       task "c" "echo c" ["a"] 0; task "d" "echo d" ["b"; "c"] 0] k)
      as [[Hnone _]|(t0 & Hsome & Hin & _)];
      [apply (bool_decide_unpack _); vm_compute; reflexivity| |].
    { unfold diamond in Ht. congruence. }
    unfold diamond in Ht. rewrite Hsome in Ht. injection Ht as <-.
    set_unfold in Hin. unfold max_int, int_bits.
    destruct Hin as [->|[->|[->|[->|[]]]]]; cbn; lia.
  - apply store_ok_empty_world.
  - reflexivity.
  - cbn. apply not_elem_of_nil.
Defined.

(** * Edge cases of the loop of Run *)

Lemma int_add_no_budget z :
  (min_int ≤ z < 0 ∨ z = max_int)%Z → (int_add z 1 < 1)%Z.
Proof.
  intros [Hneg| ->].
  - rewrite int_add_small; unfold min_int, max_int, int_bits in *; lia.
  - vm_compute. reflexivity.
Qed.

(** A task whose retry budget is negative, or is the largest [int] (so that
    [Retries + 1] wraps around), is never attempted: the loop of [Run] inserts
    its row, spawns nothing, leaves the row with status running and zero
    attempts, and goes on with the next task as after a success. *)
Theorem no_attempt_without_budget :
  ∀ (env : Env) (workflow : string) (wr : WorkflowRun) (t : Task)
    (rest : list (option Task)) (w : World),
    (min_int ≤ Retries t < 0 ∨ Retries t = max_int)%Z →
    ctx_Done env (clock w) = false →
    store_fault env OpSaveTaskRun (clock w) = false →
    ∃ (row : TaskRun) (w1 : World),
      runTasks env workflow wr (Some t :: rest) w = runTasks env workflow wr rest w1 ∧
      task_runs w1 = task_runs w ++ [row] ∧
      tr_Name row = Name t ∧ tr_Status row = TaskRunning ∧
      tr_Attempts row = 0%Z ∧ tr_EndedAt row = None ∧
      processes w1 = processes w ∧ workflow_runs w1 = workflow_runs w ∧
      log_files w1 = log_files w.
Proof.
  intros env workflow wr t rest w Hbudget%int_add_no_budget Hctx Hsave.
  exists (tr_set_ID (task_seq w + 1) (new_TaskRun wr t (clock w))),
         (with_task_runs
            (task_runs w ++ [tr_set_ID (task_seq w + 1) (new_TaskRun wr t (clock w))])
            (task_seq w + 1) (tick w)).
  split; [|by repeat split].
  cbn [runTasks]. erewrite bind_Ok; [reflexivity|]. cbn [runTask].
  erewrite bind_Ok by (by apply checkCancelled_quiet).
  unfold bind at 1. unfold time_Now at 1.
  erewrite bind_Ok by (by apply SaveTaskRun_ok).
  unfold bind. by rewrite attemptLoop_skipped.
Qed.

Lemma no_attempt_without_budget_witness :
  ∃ (row : TaskRun) (w1 : World),
    runTasks quiet "retry" first_run
      [Some (task "a" "echo a" [] (-1)); Some (task "b" "echo b" ["a"] 0)] empty_world =
    runTasks quiet "retry" first_run [Some (task "b" "echo b" ["a"] 0)] w1 ∧
    task_runs w1 = task_runs empty_world ++ [row] ∧
    tr_Name row = Name (task "a" "echo a" [] (-1)) ∧ tr_Status row = TaskRunning ∧
    tr_Attempts row = 0%Z ∧ tr_EndedAt row = None ∧
    processes w1 = processes empty_world ∧ workflow_runs w1 = workflow_runs empty_world ∧
    log_files w1 = log_files empty_world.
Proof.
  apply (no_attempt_without_budget quiet "retry" first_run (task "a" "echo a" [] (-1))
           [Some (task "b" "echo b" ["a"] 0)] empty_world).
  - left. unfold min_int, int_bits. cbn. lia.
  - reflexivity.
  - reflexivity.
Defined.

(** When [MkdirAll] fails after the first process of a task has run, the
    loop of [Run] returns that error at once: the process was spawned, but no
    log file is written, the row of the task still says running with zero
    attempts, and the run row is not touched. *)
Theorem MkdirAll_failure_unrecorded :
  ∀ (env : Env) (workflow : string) (wr : WorkflowRun) (t : Task)
    (rest : list (option Task)) (w : World),
    (0 ≤ Retries t < max_int)%Z →
    ctx_Done env (clock w) = false →
    store_fault env OpSaveTaskRun (clock w) = false →
    mkdir_fault env (S (S (clock w))) = true →
    ∃ (row : TaskRun) (w' : World),
      runTasks env workflow wr (Some t :: rest) w = (Err ErrMkdirAll, w') ∧
      processes w' = processes w ++ [Cmd t] ∧
      task_runs w' = task_runs w ++ [row] ∧
      tr_Name row = Name t ∧ tr_Status row = TaskRunning ∧ tr_Attempts row = 0%Z ∧
      workflow_runs w' = workflow_runs w ∧ log_files w' = log_files w.
Proof.
  intros env workflow wr t rest w Hretries Hctx Hsave Hmkdir.
  assert (int_add (Retries t) 1 = (Retries t + 1)%Z) as Htotal.
  { apply int_add_small. unfold min_int, max_int, int_bits in *. lia. }
  exists (tr_set_ID (task_seq w + 1) (new_TaskRun wr t (clock w))),
         (tick (with_process (Cmd t) (tick
            (with_task_runs
               (task_runs w ++ [tr_set_ID (task_seq w + 1) (new_TaskRun wr t (clock w))])
               (task_seq w + 1) (tick w))))).
  split; [|by repeat split].
  cbn [runTasks runTask]. apply bind_Err.
  erewrite bind_Ok by (by apply checkCancelled_quiet).
  unfold bind at 1. unfold time_Now at 1.
  erewrite bind_Ok by (by apply SaveTaskRun_ok).
  apply bind_Err. unfold attempts_bound. rewrite Htotal.
  destruct (Z.to_nat (Retries t + 1)) as [|b] eqn:Hb; [lia|].
  cbn [attemptLoop]. rewrite Htotal. rewrite (proj2 (Z.leb_le 1 _)) by lia.
  unfold bind at 1. unfold CombinedOutput at 1. cbn [fst snd].
  apply bind_Err. unfold MkdirAll. simpl_world. by rewrite Hmkdir.
Qed.

Lemma MkdirAll_failure_unrecorded_witness :
  ∃ (row : TaskRun) (w' : World),
    runTasks
      {| cancel_at := None; store_fault := store_fault quiet; mkdir_fault := λ _, true;
         command := command quiet; uuid_New := uuid_New quiet; files := files quiet;
         workflows_dir := workflows_dir quiet; logs_dir := logs_dir quiet |}
      "retry" first_run [Some failing_task] empty_world = (Err ErrMkdirAll, w') ∧
    processes w' = processes empty_world ++ [Cmd failing_task] ∧
    task_runs w' = task_runs empty_world ++ [row] ∧
    tr_Name row = Name failing_task ∧ tr_Status row = TaskRunning ∧ tr_Attempts row = 0%Z ∧
    workflow_runs w' = workflow_runs empty_world ∧ log_files w' = log_files empty_world.
Proof.
  apply MkdirAll_failure_unrecorded; [unfold max_int, int_bits; cbn; lia|done..].
Defined.

(** * Resume *)

(** When [Resume] reaches a task that has a row with a status other than
    success, on a machine whose database and file system work and with the
    token not fired, it adds no row: it runs the command again and rewrites
    the row it found, whose attempts then count the attempts of this resume
    only. *)
Theorem Resume_reuses_row :
  ∀ (env : Env) (workflow : string) (wr : WorkflowRun) (t : Task) (w : World)
    (row : TaskRun),
    healthy env →
    task_row w (wr_ID wr) (Name t) = Some row →
    tr_Status row ≠ TaskSuccess →
    ctx_Done env (S (clock w)) = false →
    (0 ≤ Retries t < max_int)%Z →
    ∃ (k : nat) (tr' : TaskRun) (r : result unit) (w' : World),
      resumeTask env workflow wr (Some t) w = (r, w') ∧
      (1 ≤ k)%nat ∧
      processes w' = processes w ++ replicate k (Cmd t) ∧
      task_runs w' = update_task tr' <$> task_runs w ∧
      tr_ID tr' = tr_ID row ∧ tr_Attempts tr' = Z.of_nat k ∧
      match r with
      | Ok _ => tr_Status tr' = TaskSuccess ∧ workflow_runs w' = workflow_runs w
      | Err e =>
          ∃ cause now, e = ErrTaskFailed (Name t) workflow cause ∧
            tr_Status tr' = TaskFailed ∧ Z.of_nat k = (Retries t + 1)%Z ∧
            workflow_runs w' = update_run (wr_finish StatusFailed now wr) <$> workflow_runs w
      end.
Proof.
  intros env workflow wr t w row Hhealthy Hrow Hstatus Hctx Hretries.
  pose proof Hhealthy as [Hstore _].
  assert (int_add (Retries t) 1 = (Retries t + 1)%Z) as Htotal.
  { apply int_add_small. unfold min_int, max_int, int_bits in *. lia. }
  destruct (attemptLoop_healthy env workflow t wr Hhealthy (attempts_bound t) 1 row (tick w))
    as (k & tr' & r & w' & Hrun & Hk & Hp & Htr & Hseq & I1 & I2 & I3 & I4 & Hres & _).
  { lia. }
  { unfold attempts_bound. lia. }
  exists k, tr', (match r with Ok _ => Ok tt | Err e => Err e end), w'.
  split.
  { cbn [resumeTask]. rewrite GetTaskRun_found, Hrow by done.
    rewrite decide_False by done.
    erewrite bind_Ok by (by apply checkCancelled_quiet).
    unfold bind, ret. rewrite Hrun. by destruct r. }
  split; [done|]. split; [done|]. split; [done|]. split; [done|]. split; [lia|].
  destruct r as [tr''|e].
  - by destruct Hres as (_ & ? & _ & ?).
  - destruct Hres as (cause & now & -> & ? & ? & ?). exists cause, now.
    split; [done|]. split; [done|]. split; [lia|done].
Qed.

Lemma Resume_reuses_row_witness :
  ∃ (k : nat) (tr' : TaskRun) (r : result unit) (w' : World),
    resumeTask quiet "retry" first_run (Some failing_task)
      (with_task_runs [tr_finish TaskFailed 5 finished_row] 1 finished_world) = (r, w') ∧
    (1 ≤ k)%nat ∧
    processes w' =
      processes (with_task_runs [tr_finish TaskFailed 5 finished_row] 1 finished_world) ++
      replicate k (Cmd failing_task) ∧
    task_runs w' =
      update_task tr' <$>
      task_runs (with_task_runs [tr_finish TaskFailed 5 finished_row] 1 finished_world) ∧
    tr_ID tr' = tr_ID (tr_finish TaskFailed 5 finished_row) ∧
    tr_Attempts tr' = Z.of_nat k ∧
    match r with
    | Ok _ =>
        tr_Status tr' = TaskSuccess ∧
        workflow_runs w' =
          workflow_runs (with_task_runs [tr_finish TaskFailed 5 finished_row] 1 finished_world)
    | Err e =>
        ∃ cause now, e = ErrTaskFailed (Name failing_task) "retry" cause ∧
          tr_Status tr' = TaskFailed ∧ Z.of_nat k = (Retries failing_task + 1)%Z ∧
          workflow_runs w' =
            update_run (wr_finish StatusFailed now first_run) <$>
            workflow_runs
              (with_task_runs [tr_finish TaskFailed 5 finished_row] 1 finished_world)
    end.
Proof.
  apply (Resume_reuses_row quiet "retry" first_run failing_task
           (with_task_runs [tr_finish TaskFailed 5 finished_row] 1 finished_world)
           (tr_finish TaskFailed 5 finished_row)).
  - apply healthy_quiet.
  - reflexivity.
  - discriminate.
  - reflexivity.
  - unfold max_int, int_bits. cbn. lia.
Defined.

Section resume_command.
Context `{!Externals}.

(** The resume command leaves the store, the log files and the processes as
    they are, and returns an error, whenever the run is not stored with
    status failed: when the store cannot be opened or read, when there is no
    run with this id, and when the run has another status. *)
Theorem resume_touches_failed_runs_only :
  ∀ (ρ : nat → RangeOrder) (env : Env) (runID : string) (w : World),
    (∀ r, run_row w runID = Some r → wr_Status r ≠ StatusFailed) →
    same_state w (resumeCmd ρ env runID w).2 ∧
    ∃ e, (resumeCmd ρ env runID w).1 = Err e.
Proof.
  intros ρ env runID w Hrow. unfold resumeCmd, NewStore, Store_Load.
  destruct (store_fault env OpNewStore _); [split; [by repeat split|eauto]|].
  simpl_world. destruct (store_fault env OpLoad _); [split; [by repeat split|eauto]|].
  unfold run_row in Hrow.
  destruct (List.find _ _) as [r|]; [|split; [by repeat split|eauto]].
  rewrite decide_True by (by apply Hrow). split; [by repeat split|eauto].
Qed.

End resume_command.

Lemma resume_touches_failed_runs_only_witness :
  same_state empty_world (resumeCmd (λ _, ascending) quiet "run-0" empty_world).2 ∧
  ∃ e, (resumeCmd (λ _, ascending) quiet "run-0" empty_world).1 = Err e.
Proof.
  apply (resume_touches_failed_runs_only (λ _, ascending) quiet "run-0" empty_world).
  intros r. cbn. discriminate.
Defined.

(** * RenderASCII returns on every valid graph *)

#[global] Instance task_le_trans : Transitive task_le.
Proof. intros a b c. unfold task_le. apply transitivity. Qed.

#[global] Instance task_le_total : Total task_le.
Proof. intros a b. unfold task_le. apply total, _. Qed.

Lemma childrenOf_fold (l : list (string * Task)) (ch : gmap string (list string))
    (deg : gmap string Z) :
  foldl (λ children kv,
           foldl (λ children dep, <[dep := get_list children dep ++ [Name kv.2]]> children)
                 children (DependsOn kv.2)) ch l =
  (foldl (λ acc kv, foldl (addEdge kv.2) acc (DependsOn kv.2)) (ch, deg) l).1.
Proof.
  revert ch deg. induction l as [|[k t] l IH]; intros ch deg; [done|]. cbn [foldl].
  assert (∀ deps ch deg,
    foldl (addEdge t) (ch, deg) deps =
    (foldl (λ children dep, <[dep := get_list children dep ++ [Name t]]> children) ch deps,
     (foldl (addEdge t) (ch, deg) deps).2)) as Hinner.
  { induction deps as [|dep deps IHd]; intros ch' deg'; [done|]. cbn [foldl].
    unfold addEdge at 2 4. cbn [fst snd]. apply IHd. }
  cbn [snd]. rewrite (Hinner (DependsOn t) ch deg). apply IH.
Qed.

Lemma get_list_childrenOf ρ (tasks : gmap string Task) u :
  get_list (childrenOf ρ tasks) u = outgoing (range ρ tasks) u.
Proof.
  unfold childrenOf. rewrite (childrenOf_fold _ ∅ ∅).
  destruct (collectEdges_fold (range ρ tasks) (∅, ∅)) as [H1 _].
  rewrite H1. done.
Qed.

Lemma kids_order_irrelevant ρ ρ' (tasks : gmap string Task) u :
  sort_Strings (get_list (childrenOf ρ tasks) u) =
  sort_Strings (get_list (childrenOf ρ' tasks) u).
Proof.
  apply sort_Strings_Permutation. rewrite !get_list_childrenOf.
  apply outgoing_Permutation; [|done]. by rewrite !range_Permutation.
Qed.

Lemma elem_of_kids ρ (tasks : gmap string Task) u v :
  v ∈ sort_Strings (get_list (childrenOf ρ tasks) u) →
  ∃ k t, tasks !! k = Some t ∧ Name t = v ∧ u ∈ DependsOn t.
Proof.
  unfold sort_Strings. rewrite merge_sort_Permutation, get_list_childrenOf.
  unfold outgoing. intros ([k t] & Hv & Hin%elem_of_range)%list_elem_of_bind.
  unfold edges_to in Hv. apply list_elem_of_bind in Hv as (dep & Hv & Hdep). cbn in *.
  case_decide as Heq; [|by apply elem_of_nil in Hv].
  apply list_elem_of_singleton in Hv. subst. eauto.
Qed.

Lemma renderKids_ext rec rec' prefix n i kids out :
  (∀ k p, k ∈ kids → rec k p = rec' k p) →
  renderKids rec prefix n i kids out = renderKids rec' prefix n i kids out.
Proof.
  revert i out. induction kids as [|k kids IH]; intros i out Hrec; [done|].
  cbn [renderKids]. rewrite <-Hrec by left.
  destruct (rec k _); [|done]. apply IH. intros k' p Hk'. apply Hrec. by right.
Qed.

Lemma renderKids_mono rec rec' prefix n i kids out res :
  (∀ k p o, k ∈ kids → rec k p = Some o → rec' k p = Some o) →
  renderKids rec prefix n i kids out = Some res →
  renderKids rec' prefix n i kids out = Some res.
Proof.
  revert i out. induction kids as [|k kids IH]; intros i out Hrec; [done|].
  cbn [renderKids]. destruct (rec k _) as [sub|] eqn:Hk; [|done].
  rewrite (Hrec _ _ _ ltac:(left) Hk). apply IH. intros k' p o Hk'. apply Hrec. by right.
Qed.

Lemma renderKids_Some rec prefix n i kids out :
  (∀ k p, k ∈ kids → is_Some (rec k p)) →
  is_Some (renderKids rec prefix n i kids out).
Proof.
  revert i out. induction kids as [|k kids IH]; intros i out Hrec; [by eexists|].
  cbn [renderKids]. destruct (Hrec k (if bool_decide (i = n - 1)%nat
    then prefix +:+ "    " else prefix +:+ "│   ")) as [sub ->]; [left|].
  apply IH. intros k' p Hk'. apply Hrec. by right.
Qed.

Lemma render_children depth ch ch' node prefix :
  (∀ u, sort_Strings (get_list ch u) = sort_Strings (get_list ch' u)) →
  render depth ch node prefix = render depth ch' node prefix.
Proof.
  intros Hch. revert node prefix. induction depth as [|depth IH]; intros node prefix; [done|].
  cbn [render]. rewrite <-Hch. apply renderKids_ext. intros k p _. apply IH.
Qed.

Lemma render_mono depth ch node prefix out :
  render depth ch node prefix = Some out → render (S depth) ch node prefix = Some out.
Proof.
  revert node prefix out. induction depth as [|depth IH]; intros node prefix out; [done|].
  intros Hr. cbn [render] in Hr |- *. revert Hr. apply renderKids_mono.
  intros k p o _. apply IH.
Qed.

Lemma render_mono_le depth depth' ch node prefix out :
  (depth ≤ depth')%nat →
  render depth ch node prefix = Some out → render depth' ch node prefix = Some out.
Proof. induction 1 as [|depth' _ IH]; [done|]. intros Hr. by apply render_mono, IH. Qed.

Lemma renderRoots_Some depth depth' ch ch' roots out :
  (depth ≤ depth')%nat →
  (∀ u, sort_Strings (get_list ch u) = sort_Strings (get_list ch' u)) →
  (∀ root, root ∈ roots → is_Some (render depth ch (Name root) "")) →
  is_Some (renderRoots depth ch roots out) ∧
  renderRoots depth' ch' roots out = renderRoots depth ch roots out.
Proof.
  intros Hle Hch. revert out. induction roots as [|root roots IH]; intros out Hall.
  { split; [by eexists|done]. }
  cbn [renderRoots]. destruct (Hall root) as [sub Hsub]; [left|].
  rewrite <-(render_children depth' ch ch') by done.
  rewrite (render_mono_le depth depth' ch _ _ sub Hle Hsub), Hsub.
  apply IH. intros root' Hin. apply Hall. by right.
Qed.

Section render_valid.
Context (d : DAG) (Hwk : well_keyed d).
Context (order : list Task).
Context (Hperm : order ≡ₚ (map_to_list (Tasks d)).*2) (Hfirst : deps_first order).

Lemma order_names_NoDup : NoDup (Name <$> order).
Proof.
  rewrite Hperm, <-list_fmap_compose.
  rewrite (list_fmap_ext _ fst (map_to_list (Tasks d))).
  - apply NoDup_fst_map_to_list.
  - intros i [k t] Hin. cbn. apply Hwk.
    apply elem_of_map_to_list. by eapply list_elem_of_lookup_2.
Qed.

Lemma render_returns ρ depth :
  ∀ i t prefix, order !! i = Some t → (length order - i ≤ depth)%nat →
    is_Some (render depth (childrenOf ρ (Tasks d)) (Name t) prefix).
Proof.
  induction depth as [|depth IH]; intros i t prefix Hi Hdepth.
  { apply lookup_lt_Some in Hi. lia. }
  cbn [render]. apply renderKids_Some. intros v p Hv.
  apply elem_of_kids in Hv as (k & t' & Ht' & <- & Hdep).
  assert (t' ∈ order) as [j Hj]%list_elem_of_lookup.
  { rewrite Hperm. apply list_elem_of_fmap. exists (k, t'). split; [done|].
    by apply elem_of_map_to_list. }
  destruct (Hfirst j t' (Name t) Hj Hdep) as (j' & t'' & Hlt & Hj' & Hname).
  assert (j' = i) as ->.
  { eapply (NoDup_lookup (Name <$> order)); [apply order_names_NoDup| |].
    - by rewrite list_lookup_fmap, Hj'.
    - rewrite list_lookup_fmap, Hi. cbn. by rewrite Hname. }
  apply (IH j); [done|lia].
Qed.

End render_valid.

Lemma sort_Slice_roots_order_irrelevant ρ ρ' d :
  well_keyed d → sort_Slice_roots (Roots ρ d) = sort_Slice_roots (Roots ρ' d).
Proof.
  intros Hwk. unfold sort_Slice_roots. apply (StronglySorted_unique_strong task_le).
  - intros x1 x2 Hx1 Hx2 H12 H21.
    rewrite merge_sort_Permutation in Hx1. rewrite merge_sort_Permutation in Hx2.
    apply elem_of_Roots in Hx1 as (k1 & H1 & _). apply elem_of_Roots in Hx2 as (k2 & H2 & _).
    assert (k1 = k2) as ->; [|congruence].
    rewrite <-(Hwk _ _ H1), <-(Hwk _ _ H2). by apply (anti_symm String.le).
  - apply StronglySorted_merge_sort; apply _.
  - apply StronglySorted_merge_sort; apply _.
  - rewrite !merge_sort_Permutation. unfold Roots. by rewrite !range_Permutation.
Qed.

(** On a graph that [Validate] accepts, [RenderASCII] returns: the recursion
    of [render] is never deeper than the number of tasks, and the text that
    is rendered does not depend on the iteration order of the map. *)
Theorem RenderASCII_returns :
  ∀ (ρ' : nat → RangeOrder) (d : DAG),
    well_keyed d → Validate ρ' d = None →
    ∃ out : string,
      ∀ (depth : nat) (ρ : nat → RangeOrder),
        (size (Tasks d) ≤ depth)%nat → RenderASCII depth ρ d = Some out.
Proof.
  intros ρ' d Hwk Hvalid.
  destruct (TopologicalSort_valid ρ' ρ' d Hwk Hvalid) as (order & _ & Hperm & Hfirst).
  assert (length order = size (Tasks d)) as Hlen.
  { by rewrite Hperm, length_fmap, length_map_to_list. }
  assert (∀ ρ root, root ∈ sort_Slice_roots (Roots (ρ 1) d) →
            is_Some (render (size (Tasks d)) (childrenOf (ρ' 0) (Tasks d)) (Name root) ""))
    as Hroots.
  { intros ρ root Hin. unfold sort_Slice_roots in Hin.
    rewrite merge_sort_Permutation in Hin. apply elem_of_Roots in Hin as (k & Hk & _).
    assert (root ∈ order) as [i Hi]%list_elem_of_lookup.
    { rewrite Hperm. apply list_elem_of_fmap. exists (k, root). split; [done|].
      by apply elem_of_map_to_list. }
    apply (render_returns d Hwk order Hperm Hfirst (ρ' 0) _ i); [done|lia]. }
  destruct (renderRoots_Some (size (Tasks d)) (size (Tasks d))
              (childrenOf (ρ' 0) (Tasks d)) (childrenOf (ρ' 0) (Tasks d))
              (sort_Slice_roots (Roots (ρ' 1) d)) "") as [[out Hout] _];
    [done|done|apply Hroots|].
  exists out. intros depth ρ Hdepth. unfold RenderASCII.
  rewrite (sort_Slice_roots_order_irrelevant (ρ 1) (ρ' 1) d Hwk).
  destruct (renderRoots_Some (size (Tasks d)) depth
              (childrenOf (ρ' 0) (Tasks d)) (childrenOf (ρ 0) (Tasks d))
              (sort_Slice_roots (Roots (ρ' 1) d)) "") as [_ ->];
    [done|intros u; apply kids_order_irrelevant|apply Hroots|done].
Qed.

Lemma RenderASCII_returns_witness :
  ∃ out : string,
    ∀ (depth : nat) (ρ : nat → RangeOrder),
      (size (Tasks diamond) ≤ depth)%nat → RenderASCII depth ρ diamond = Some out.
Proof.
  apply (RenderASCII_returns (λ _, ascending) diamond).
  - apply graph_of_well_keyed.
  - vm_compute. reflexivity.
Defined.
